(** * Discord notification bot: change detection and delivery core

    A shallow embedding of [game_monitor.py] and [status_bot.py].

    Python values are modelled by the inductive [pyval]; text is a [string]
    holding the UTF-8 bytes of the Python [str], so that comparing two
    strings byte by byte agrees with Python's comparison by code point.
    Operations that count or classify characters ([strip], slicing) work on
    the UTF-8 characters of the string, see [utf8_chars].

    Effects are explicit: every function that performs I/O is a computation
    in the monad [M], which threads the in-memory state, appends the I/O
    calls it makes to a trace of [event]s and may raise an exception.  The
    outcome of each external call (network, chat platform, file system) is
    read from an environment [env] indexed by the time of the call. *)

From Stdlib Require Import ZArith String Ascii List DecimalString.
From stdpp Require Import gmap strings list sorting.

Local Open Scope string_scope.

(** ** Text *)

Module Text.

Definition newline : string := String "010" "".

(** [str(z)] for an integer. *)
Definition of_Z (z : Z) : string := NilZero.string_of_int (Z.to_int z).

Definition of_nat (n : nat) : string := of_Z (Z.of_nat n).

(** The format specification [:02d] on a non-negative integer. *)
Definition pad2 (n : nat) : string :=
  if Nat.ltb n 10 then "0" +:+ of_nat n else of_nat n.

(** A byte of the form 10xxxxxx continues a UTF-8 character. *)
Definition is_continuation (c : ascii) : bool :=
  let n := nat_of_ascii c in Nat.leb 128 n && Nat.ltb n 192.

Definition starts_with_continuation (s : string) : bool :=
  match s with
  | String c _ => is_continuation c
  | EmptyString => false
  end.

(** The characters of a text, each with all of its bytes. *)
Fixpoint utf8_chars (s : string) : list string :=
  match s with
  | EmptyString => []
  | String c rest =>
      match utf8_chars rest with
      | g :: gs =>
          if starts_with_continuation g
          then String c g :: gs
          else String c "" :: g :: gs
      | [] => [String c ""]
      end
  end.

Definition concat (l : list string) : string :=
  fold_right String.append "" l.

Definition bytes (l : list nat) : string :=
  string_of_list_ascii (map ascii_of_nat l).

(** The characters for which [str.isspace] holds: the ASCII controls
    9-13 and 28-31, the space, and the Unicode spaces U+0085, U+00A0,
    U+1680, U+2000-U+200A, U+2028, U+2029, U+202F, U+205F, U+3000. *)
Definition whitespace : list string :=
  map (fun n => bytes [n]) [9; 10; 11; 12; 13; 28; 29; 30; 31; 32]
  ++ [bytes [194; 133]; bytes [194; 160]; bytes [225; 154; 128]]
  ++ map (fun n => bytes [226; 128; n]) (seq 128 11)
  ++ [bytes [226; 128; 168]; bytes [226; 128; 169]; bytes [226; 128; 175];
      bytes [226; 129; 159]; bytes [227; 128; 128]].

Definition is_space (ch : string) : bool := bool_decide (ch ∈ whitespace).

Fixpoint drop_spaces (l : list string) : list string :=
  match l with
  | ch :: l' => if is_space ch then drop_spaces l' else l
  | [] => []
  end.

(** [s.strip()] *)
Definition strip (s : string) : string :=
  concat (rev (drop_spaces (rev (drop_spaces (utf8_chars s))))).

(** [s[:n]]: the first [n] characters. *)
Definition slice_to (n : nat) (s : string) : string :=
  concat (take n (utf8_chars s)).

Definition lower_ascii (c : ascii) : ascii :=
  let n := nat_of_ascii c in
  if Nat.leb 65 n && Nat.leb n 90 then ascii_of_nat (n + 32) else c.

(** [s.lower()] on the characters whose lower case is ASCII: the letters
    A-Z, U+212A (Kelvin sign, lower case k) and U+0130 (lower case i
    followed by U+0307).  Other characters are kept; their lower case is
    never ASCII, so a search for an ASCII word in the result is answered
    as Python answers it. *)
Definition lower_char (ch : string) : string :=
  if bool_decide (ch = bytes [226; 132; 170]) then "k"
  else if bool_decide (ch = bytes [196; 176]) then "i" +:+ bytes [204; 135]
  else string_of_list_ascii (map lower_ascii (list_ascii_of_string ch)).

Definition lower (s : string) : string :=
  concat (map lower_char (utf8_chars s)).

Fixpoint is_prefix (p s : string) : bool :=
  match p, s with
  | EmptyString, _ => true
  | String a p', String b s' => bool_decide (a = b) && is_prefix p' s'
  | String _ _, EmptyString => false
  end.

(** [needle in s] *)
Fixpoint contains (needle s : string) : bool :=
  is_prefix needle s ||
  match s with
  | String _ s' => contains needle s'
  | EmptyString => false
  end.

Definition drop_bytes (n : nat) (s : string) : string :=
  String.substring n (String.length s - n) s.

(** [s.replace(old, new)] for a non-empty [old]; this is also
    [re.sub(old, new, s)] when [old] has no special character. *)
Fixpoint replace_go (fuel : nat) (old new s : string) : string :=
  match fuel with
  | O => s
  | S fuel' =>
      match s with
      | EmptyString => EmptyString
      | String c s' =>
          if is_prefix old s
          then new +:+ replace_go fuel' old new (drop_bytes (String.length old) s)
          else String c (replace_go fuel' old new s')
      end
  end.

Definition replace (old new s : string) : string :=
  replace_go (String.length s) old new s.

Definition is_suffix (p s : string) : bool :=
  is_prefix (String.rev p) (String.rev s).

Definition drop_last (n : nat) (s : string) : string :=
  String.substring 0 (String.length s - n) s.

(** [s.rstrip('/')] *)
Fixpoint rstrip_slash_rev (r : string) : string :=
  match r with
  | String "/" r' => rstrip_slash_rev r'
  | _ => r
  end.

Definition rstrip_slash (s : string) : string :=
  String.rev (rstrip_slash_rev (String.rev s)).

(** [s.split('/')[-1]]: the text after the last slash. *)
Fixpoint last_segment_rev (r : string) : string :=
  match r with
  | String "/" _ => EmptyString
  | String c r' => String c (last_segment_rev r')
  | EmptyString => EmptyString
  end.

Definition last_segment (s : string) : string :=
  String.rev (last_segment_rev (String.rev s)).

(** [", ".join(l)] with an arbitrary separator. *)
Fixpoint join (sep : string) (l : list string) : string :=
  match l with
  | [] => ""
  | [x] => x
  | x :: l' => x +:+ sep +:+ join sep l'
  end.

End Text.

(** ** Python values and exceptions *)

(** A value read from parsed JSON.  [VOpaque] stands for a value of any
    other type (a float, a list, a dict): the code observes only the name
    of its type, its truth value and its [str()], and it has neither
    [.strip] nor [.get]. *)
Inductive pyval : Type :=
| VNone
| VBool (b : bool)
| VInt (z : Z)
| VStr (s : string)
| VOpaque (type_name : string) (truth : bool) (text : string).

Definition truthy (v : pyval) : bool :=
  match v with
  | VNone => false
  | VBool b => b
  | VInt z => negb (z =? 0)%Z
  | VStr s => negb (bool_decide (s = ""))
  | VOpaque _ t _ => t
  end.

(** [type(v).__name__] *)
Definition type_of (v : pyval) : string :=
  match v with
  | VNone => "NoneType"
  | VBool _ => "bool"
  | VInt _ => "int"
  | VStr _ => "str"
  | VOpaque n _ _ => n
  end.

(** [a or b] *)
Definition py_or (a b : pyval) : pyval := if truthy a then a else b.

(** [str(v)], also what an f-string field [{v}] prints. *)
Definition py_str (v : pyval) : string :=
  match v with
  | VNone => "None"
  | VBool true => "True"
  | VBool false => "False"
  | VInt z => Text.of_Z z
  | VStr s => s
  | VOpaque _ _ t => t
  end.

(** The subclasses of [Exception] the code distinguishes or meets. *)
Inductive exn_class : Type :=
| Forbidden | NotFound | HTTPException | AttributeError | OSError | OtherError.

Record exn : Type := Exn { exn_kind : exn_class; exn_text : string }.

Inductive outcome (A : Type) : Type :=
| Done (a : A)
| Raised (e : exn).
Arguments Done {A} a.
Arguments Raised {A} e.

Definition and_then {A B} (o : outcome A) (f : A → outcome B) : outcome B :=
  match o with
  | Done a => f a
  | Raised e => Raised e
  end.

(** ** Chat payloads *)

Inductive color : Type := Blurple | Green.

Record Embed : Type := mkEmbed {
  title : string;
  description : string;
  colour : color;
  image : option string;
  footer : string
}.

Inductive payload : Type :=
| Content (text : string)
| Rich (e : Embed).

(** ** Persisted configuration of the game monitor *)

Record config_dict : Type := mkConfig {
  cfg_seen_new : list string;
  cfg_seen_update : list string;
  cfg_seen_fixed : list string;
  channel_id_new : option Z;
  channel_id_update : option Z;
  channel_id_fixed : option Z
}.

(** Truth value of a channel id read with [config.get]: [None] and [0] are
    false. *)
Definition channel_set (ch : option Z) : option Z :=
  match ch with
  | Some z => if (z =? 0)%Z then None else Some z
  | None => None
  end.

Inductive write_outcome : Type :=
| WriteOk
| OpenFails (e : exn)      (* [open(CONFIG_FILE, "w")] raises: file untouched *)
| DumpFails (e : exn).     (* [json.dump] raises after the file was truncated *)

Inductive file : Type :=
| NoFile
| Stored (c : config_dict)
| Damaged.

(** ** The trace of I/O calls *)

Inductive event : Type :=
| Print (line : string)
| HttpGet (url : string)
| FetchChannel (ch : Z) (found : bool)
| ChannelSend (ch : Z) (e : Embed) (r : outcome Z)
| WriteConfig (c : config_dict) (r : write_outcome)
| Defer (r : option exn)
| Followup (p : payload) (ephemeral : bool) (r : outcome Z)
| MessageFetch (m : Z) (r : option exn)
| MessageEdit (m : Z) (e : Embed) (r : option exn)
| Sleep (seconds : nat).

(** ** The environment *)

(** An element of the JSON array served by the games endpoint. *)
Inductive game : Type :=
| GDict (d : gmap string pyval)
| GOther (type_name : string).

Inductive json_body : Type :=
| JsonList (items : list game)
| JsonOther                 (* valid JSON that is not an array *)
| JsonError (e : exn).      (* [r.json()] raises *)

Inductive games_response : Type :=
| GamesFailed (e : exn)
| GamesStatus (status : Z) (body : json_body).

(** What the three [re.search] calls of [fetch_fixes] find in one anchor
    block: group 1 of the [href], [file-name] and [file-size] patterns. *)
Record block : Type := mkBlock {
  href_m : option string;
  name_m : option string;
  size_m : option string
}.

(** The page served by the fixes endpoint, as the anchor blocks
    [re.findall] extracts from its text (an empty text has none). *)
Inductive fixes_response : Type :=
| FixesFailed
| FixesStatus (status : Z) (body : option (list block)).

Inductive status_response : Type :=
| StatusFailed (e : exn)
| StatusBlocks (texts : list string).

(** Outcomes of the external calls; the first argument is the time of the
    call, the number of I/O calls made before it. *)
Record env : Type := mkEnv {
  games_feed : nat → games_response;
  fixes_page : nat → fixes_response;
  status_page : nat → status_response;
  channel_cached : nat → Z → bool;
  channel_fetched : nat → Z → bool;
  channel_send : nat → Z → Embed → outcome Z;
  config_write : nat → write_outcome;
  interaction_defer : nat → option exn;
  followup_send : nat → payload → outcome Z;
  message_fetch : nat → Z → option exn;
  message_edit : nat → Z → Embed → option exn
}.

(** ** The monad of effectful code *)

Record world (S : Type) : Type := World { mem : S; out : list event }.
Arguments World {S} mem out.
Arguments mem {S} w.
Arguments out {S} w.

Definition M (S A : Type) : Type := world S → outcome A * world S.

Module Run.

Definition ret {S A} (a : A) : M S A := fun w => (Done a, w).

Definition bind {S A B} (c : M S A) (k : A → M S B) : M S B :=
  fun w =>
    match c w with
    | (Done a, w') => k a w'
    | (Raised e, w') => (Raised e, w')
    end.

Definition raise {S A} (e : exn) : M S A := fun w => (Raised e, w).

Definition emit {S} (ev : event) : M S unit :=
  fun w => (Done tt, World (mem w) (out w ++ [ev])).

Definition now {S} : M S nat := fun w => (Done (length (out w)), w).

Definition get {S} : M S S := fun w => (Done (mem w), w).

Definition modify {S} (f : S → S) : M S unit :=
  fun w => (Done tt, World (f (mem w)) (out w)).

Definition lift {S A} (o : outcome A) : M S A := fun w => (o, w).

(** [try: c  except Exception as e: h e] *)
Definition try_except {S A} (c : M S A) (h : exn → M S A) : M S A :=
  fun w =>
    match c w with
    | (Done a, w') => (Done a, w')
    | (Raised e, w') => h e w'
    end.

(** [for x in l: body x] *)
Fixpoint for_each {S A} (l : list A) (body : A → M S unit) : M S unit :=
  match l with
  | [] => ret tt
  | x :: l' => bind (body x) (fun _ => for_each l' body)
  end.

End Run.
Import Run.

Global Instance outcome_ret : MRet outcome := @Done.
Global Instance outcome_bind : MBind outcome := λ A B f o, and_then o f.

Definition is_Some_b {A} (o : option A) : bool :=
  match o with
  | Some _ => true
  | None => false
  end.

Global Instance M_ret {S} : MRet (M S) := @ret S.
Global Instance M_bind {S} : MBind (M S) := λ A B k c, bind c k.

(** ** [game_monitor.py] *)

Module GameMonitor.

Definition GAMES_JSON_URL : string := "https://generator.ryuu.lol/files/games.json".
Definition FIXES_PAGE_URL : string := "https://generator.ryuu.lol/fixes".
Definition SITE : string := "https://generator.ryuu.lol".

(** The decorations of the message texts, as the source file has them. *)
Definition glyph_game : string := "üéÆ".
Definition glyph_package : string := "üì¶".
Definition glyph_bullet : string := "‚Ä¢".
Definition glyph_fix : string := "üõ†Ô∏è".
Definition glyph_download : string := "üì•".
Definition glyph_dot : string := "‚óè".
Definition glyph_dash : string := "‚Äî".
Definition glyph_list : string := "üìÉ".
Definition glyph_warning : string := "‚ö†".
Definition glyph_check : string := "‚úÖ".
Definition glyph_cross : string := "‚ùå".

(** *** State of a [GameMonitor] object and of its configuration file *)

Record state : Type := mkState {
  seen_new : gset string;
  seen_update : gset string;
  seen_fixed : gset string;
  config : config_dict;
  disk : file
}.

Definition set_seen_new (f : gset string → gset string) (s : state) : state :=
  mkState (f (seen_new s)) (seen_update s) (seen_fixed s) (config s) (disk s).
Definition set_seen_update (f : gset string → gset string) (s : state) : state :=
  mkState (seen_new s) (f (seen_update s)) (seen_fixed s) (config s) (disk s).
Definition set_seen_fixed (f : gset string → gset string) (s : state) : state :=
  mkState (seen_new s) (seen_update s) (f (seen_fixed s)) (config s) (disk s).
Definition set_config (c : config_dict) (s : state) : state :=
  mkState (seen_new s) (seen_update s) (seen_fixed s) c (disk s).
Definition set_disk (d : file) (s : state) : state :=
  mkState (seen_new s) (seen_update s) (seen_fixed s) (config s) d.

(** [load_config] and [__init__]: the state of a monitor started on a
    given configuration file (the channel keys default to [None]).  On a
    file left damaged by an interrupted write [json.load] raises and no
    monitor is built; [init] is stated for the files that exist whole or
    not at all, and gives the empty configuration on a damaged one. *)
Definition empty_config : config_dict := mkConfig [] [] [] None None None.

Definition load_config (d : file) : config_dict :=
  match d with
  | Stored c => c
  | _ => empty_config
  end.

Definition init (d : file) : state :=
  let c := load_config d in
  mkState (list_to_set (cfg_seen_new c)) (list_to_set (cfg_seen_update c))
          (list_to_set (cfg_seen_fixed c)) c d.

(** [save_config] *)
Definition with_seen (s : state) : config_dict :=
  mkConfig (elements (seen_new s)) (elements (seen_update s))
           (elements (seen_fixed s))
           (channel_id_new (config s)) (channel_id_update (config s))
           (channel_id_fixed (config s)).

Definition save_config (E : env) : M state unit :=
  modify (λ s, set_config (with_seen s) s);;
  s ← get;
  t ← now;
  let r := config_write E t in
  emit (WriteConfig (config s) r);;
  match r with
  | WriteOk => modify (set_disk (Stored (config s)))
  | OpenFails e => raise e
  | DumpFails e => modify (set_disk Damaged);; raise e
  end.

(** *** Fetching *)

(** [fetch_games]: every failure is printed and degrades to [[]]. *)
Definition fetch_games {St} (E : env) : M St (list game) :=
  t ← now;
  emit (HttpGet GAMES_JSON_URL);;
  match games_feed E t with
  | GamesFailed e =>
      emit (Print ("[ERROR] Exception in fetch_games(): " +:+ exn_text e));;
      mret []
  | GamesStatus status body =>
      if negb (status =? 200)%Z then
        emit (Print ("[ERROR] Failed to fetch games.json: " +:+ Text.of_Z status));;
        mret []
      else
        match body with
        | JsonError e =>
            emit (Print ("[ERROR] Exception in fetch_games(): " +:+ exn_text e));;
            mret []
        | JsonList items => mret items
        | JsonOther =>
            emit (Print "[ERROR] Invalid JSON format from games.json");;
            mret []
        end
  end.

Record fix_item : Type := mkFix {
  fix_title : string;
  fix_download : string;
  fix_size : string
}.

(** A character of the text matches a lower-case letter of a pattern
    compiled with [re.I]: the letter itself, its capital and, for [i],
    U+0130 and U+0131. *)
Definition matches_ci (pat ch : string) : bool :=
  bool_decide (Text.lower ch = pat)
  || (bool_decide (pat = "i")
      && (bool_decide (ch = Text.bytes [196; 176])
          || bool_decide (ch = Text.bytes [196; 177]))).

(** The text (characters in reverse order) ends with the extension. *)
Fixpoint ends_with_ci (ext_rev text_rev : list string) : option (list string) :=
  match ext_rev, text_rev with
  | [], _ => Some text_rev
  | p :: ext', ch :: text' =>
      if matches_ci p ch then ends_with_ci ext' text' else None
  | _ :: _, [] => None
  end.

Definition archive_extensions : list string := [".zip"; ".rar"; ".7z"; ".tar.gz"].

Fixpoint drop_extension (exts : list string) (text_rev : list string) : list string :=
  match exts with
  | [] => text_rev
  | ext :: exts' =>
      match ends_with_ci (rev (Text.utf8_chars ext)) text_rev with
      | Some rest => rest
      | None => drop_extension exts' text_rev
      end
  end.

(** [re.sub(r'\.(zip|rar|7z|tar\.gz)$', '', s, flags=re.I)]; the [$]
    also matches just before a newline that ends the text. *)
Definition strip_extension (s : string) : string :=
  match rev (Text.utf8_chars s) with
  | nl :: text_rev =>
      if bool_decide (nl = Text.newline)
      then Text.concat (rev (nl :: drop_extension archive_extensions text_rev))
      else Text.concat (rev (drop_extension archive_extensions (nl :: text_rev)))
  | [] => ""
  end.

Definition nonempty (s : string) : bool := negb (bool_decide (s = "")).

(** The fallback title of a block without a name, from its link. *)
Definition title_from_href (href : string) : string :=
  strip_extension
    (Text.replace "%20" " " (Text.last_segment (Text.rstrip_slash href))).

Definition block_title (b : block) : option string :=
  let from_href :=
    match href_m b with
    | Some h => if nonempty h then Some (title_from_href h) else None
    | None => None
    end in
  match Text.strip <$> name_m b with
  | Some raw_name =>
      if nonempty raw_name then Some (Text.strip (strip_extension raw_name))
      else from_href
  | None => from_href
  end.

(** The body of the loop over the anchor blocks in [fetch_fixes]:
    [None] is the [continue] of a block with neither name nor link. *)
Definition fix_of_block (b : block) : option fix_item :=
  match block_title b with
  | None => None
  | Some t =>
      let href :=
        match href_m b with
        | Some h => if Text.is_prefix "/" h then Some (SITE +:+ h) else Some h
        | None => None
        end in
      Some (mkFix t (default "" href) (default "" (Text.strip <$> size_m b)))
  end.

Definition extract (anchors : list block) : list fix_item := omap fix_of_block anchors.

(** "dedupe by title preserving order" *)
Fixpoint dedupe (seen : gset string) (results : list fix_item) : list fix_item :=
  match results with
  | [] => []
  | item :: rest =>
      if bool_decide (fix_title item ∈ seen) then dedupe seen rest
      else item :: dedupe ({[fix_title item]} ∪ seen) rest
  end.

(** [fetch_fixes], with [safe_get_text] inlined: every failure is silent
    and degrades to [[]]. *)
Definition fetch_fixes {St} (E : env) : M St (list fix_item) :=
  t ← now;
  emit (HttpGet FIXES_PAGE_URL);;
  match fixes_page E t with
  | FixesFailed => mret []
  | FixesStatus status body =>
      if negb (status =? 200)%Z then mret []
      else
        match body with
        | None => mret []
        | Some anchors => mret (dedupe ∅ (extract anchors))
        end
  end.

(** *** Embeds *)

Definition make_game_embed (name appid : string) (img : pyval) (kind : string) : Embed :=
  mkEmbed
    (glyph_game +:+ " " +:+ name)
    (glyph_package +:+ " **Manifest for App ID:** `" +:+ appid +:+ "`" +:+ Text.newline
       +:+ glyph_bullet +:+ " **Type:** " +:+ kind)
    (if bool_decide (kind ∈ ["NEW"; "UPDATED"]) then Blurple else Green)
    (if truthy img then Some (py_str img) else None)
    ("Steam Manifest Bot " +:+ glyph_bullet +:+ " Powered by JAY CAPARIDA AKA XALVENGE D.").

Definition make_fix_embed (name download_url size : string) : Embed :=
  mkEmbed
    (glyph_fix +:+ " " +:+ name)
    (glyph_download +:+ " [Download ZIP](" +:+ download_url +:+ ")" +:+ Text.newline
       +:+ (if nonempty size then glyph_bullet +:+ " Size: " +:+ size else ""))
    Green
    None
    ("Fix posted by Steam Manifest Bot " +:+ glyph_bullet +:+ " XALVENGE D.").

Definition not_found_line (ch : Z) : string :=
  "[ERROR] Channel " +:+ Text.of_Z ch +:+ " not found for posting.".

(** The line printed by the [except] clauses of [safe_send]. *)
Definition send_failure_line (ch : Z) (e : exn) : string :=
  match exn_kind e with
  | Forbidden => "[ERROR] Missing access to channel " +:+ Text.of_Z ch
  | _ => "[ERROR] Failed to send embed to " +:+ Text.of_Z ch +:+ ": " +:+ exn_text e
  end.

(** [safe_send]: the channel is looked up in the cache, then fetched;
    a failed delivery is printed and never raised. *)
Definition safe_send {St} (E : env) (channel_id : option Z) (embed : Embed) : M St unit :=
  match channel_set channel_id with
  | None => mret tt
  | Some ch =>
      t ← now;
      found ← (if channel_cached E t ch then mret true
               else emit (FetchChannel ch (channel_fetched E t ch));;
                    mret (channel_fetched E t ch));
      if negb found then emit (Print (not_found_line ch))
      else
        t' ← now;
        let r := channel_send E t' ch embed in
        emit (ChannelSend ch embed r);;
        match r with
        | Done _ => mret tt
        | Raised e => emit (Print (send_failure_line ch e))
        end
  end.

(** *** Processing *)

Record entry : Type := mkEntry {
  e_name : string;
  e_appid : string;
  e_img : pyval
}.

(** [v.strip()]: only a [str] has the method. *)
Definition strip_method (v : pyval) : outcome string :=
  match v with
  | VStr s => Done (Text.strip s)
  | _ => Raised (Exn AttributeError
                   ("'" +:+ type_of v +:+ "' object has no attribute 'strip'"))
  end.

(** [g.get(k)]: only a [dict] has the method; a missing key gives
    [None]. *)
Definition get (g : game) (k : string) : outcome pyval :=
  match g with
  | GDict d => Done (default VNone (d !! k))
  | GOther n => Raised (Exn AttributeError
                          ("'" +:+ n +:+ "' object has no attribute 'get'"))
  end.

(** The first lines of the loop body over the games: name, appid and
    image of an item, with the synthetic name of a nameless one. *)
Definition game_entry (g : game) : outcome entry :=
  t ← get g "title"; n ← get g "name";
  name ← strip_method (py_or t (py_or n (VStr "")));
  a ← get g "appid"; i ← get g "id";
  let appid := py_str (py_or a (py_or i (VStr "N/A"))) in
  i1 ← get g "img"; i2 ← get g "image"; i3 ← get g "header_image";
  let image := py_or i1 (py_or i2 (py_or i3 VNone)) in
  let name := if nonempty name then name else "Unknown Game (" +:+ appid +:+ ")" in
  Done (mkEntry name appid image).

(** The key of an item is its name. *)
Definition game_key (g : game) : outcome string :=
  e ← game_entry g; Done (e_name e).

(** The loop over the games of [process_games_new_updated]. *)
Fixpoint scan_games (games : list game) (current_keys : gset string)
    (mapping : gmap string entry) : outcome (gset string * gmap string entry) :=
  match games with
  | [] => Done (current_keys, mapping)
  | g :: rest =>
      e ← game_entry g;
      scan_games rest ({[e_name e]} ∪ current_keys) (<[e_name e := e]> mapping)
  end.

(** [sorted(keys)] *)
Definition sorted (keys : gset string) : list string :=
  merge_sort String.le (elements keys).

Definition is_empty (keys : gset string) : bool := bool_decide (keys = ∅).

Definition process_games_new_updated (E : env) : M state unit :=
  games ← fetch_games E;
  match games with
  | [] => mret tt
  | _ :: _ =>
      '(current_keys, mapping) ← lift (scan_games games ∅ ∅);
      s ← Run.get;
      let new_keys := current_keys ∖ seen_new s in
      let update_keys := current_keys ∖ seen_update s in
      let ch_new := channel_id_new (config s) in
      let ch_update := channel_id_update (config s) in
      (if is_Some_b (channel_set ch_new) && negb (is_empty new_keys) then
         for_each (sorted new_keys) (λ k,
           match mapping !! k with
           | None => mret tt
           | Some e =>
               safe_send E ch_new
                 (make_game_embed (e_name e) (e_appid e) (e_img e) "NEW")
           end)
       else mret tt);;
      (if is_Some_b (channel_set ch_update) && negb (is_empty update_keys) then
         for_each (sorted update_keys) (λ k,
           if bool_decide (k ∈ new_keys) then mret tt
           else
             match mapping !! k with
             | None => mret tt
             | Some e =>
                 safe_send E ch_update
                   (make_game_embed (e_name e) (e_appid e) (e_img e) "UPDATED")
             end)
       else mret tt);;
      (if negb (is_empty new_keys)
       then modify (set_seen_new (λ seen, seen ∪ new_keys)) else mret tt);;
      (if negb (is_empty update_keys)
       then modify (set_seen_update (λ seen, seen ∪ update_keys)) else mret tt);;
      if negb (is_empty new_keys) || negb (is_empty update_keys)
      then save_config E else mret tt
  end.

(** The loop over the fixes of [process_fixes]; an item comes from
    [fetch_fixes] and has no [name] or [url] key. *)
Fixpoint scan_fixes (fixes : list fix_item) (current_titles : gset string)
    (mapping : gmap string fix_item) : gset string * gmap string fix_item :=
  match fixes with
  | [] => (current_titles, mapping)
  | f :: rest =>
      let name := Text.strip (fix_title f) in
      if nonempty name
      then scan_fixes rest ({[name]} ∪ current_titles)
             (<[name := mkFix name (fix_download f) (fix_size f)]> mapping)
      else scan_fixes rest current_titles mapping
  end.

Definition process_fixes (E : env) : M state unit :=
  fixes ← fetch_fixes E;
  match fixes with
  | [] => mret tt
  | _ :: _ =>
      let '(current_titles, mapping) := scan_fixes fixes ∅ ∅ in
      s ← Run.get;
      let new_fixed := current_titles ∖ seen_fixed s in
      let ch_fixed := channel_id_fixed (config s) in
      (if is_Some_b (channel_set ch_fixed) && negb (is_empty new_fixed) then
         for_each (sorted new_fixed) (λ k,
           match mapping !! k with
           | None => mret tt
           | Some e =>
               safe_send E ch_fixed
                 (make_fix_embed (fix_title e) (fix_download e) (fix_size e))
           end)
       else mret tt);;
      if negb (is_empty new_fixed) then
        modify (set_seen_fixed (λ seen, seen ∪ new_fixed));;
        save_config E
      else mret tt
  end.

Definition check_for_new_games (E : env) : M state unit :=
  process_games_new_updated E;;
  process_fixes E.

(** The body of [monitor_loop], one scheduled cycle. *)
Definition monitor_loop (E : env) : M state unit :=
  try_except (check_for_new_games E)
    (λ e, emit (Print ("[ERROR] Monitor loop exception: " +:+ exn_text e))).

(** *** Slash commands *)

(** [interaction.response.defer()] *)
Definition defer {St} (E : env) : M St unit :=
  t ← now;
  let r := interaction_defer E t in
  emit (Defer r);;
  match r with
  | None => mret tt
  | Some e => raise e
  end.

(** [interaction.followup.send(...)]; the result is the new message. *)
Definition followup {St} (E : env) (p : payload) (ephemeral : bool) : M St Z :=
  t ← now;
  let r := followup_send E t p in
  emit (Followup p ephemeral r);;
  lift r.

(** A line of the game list. *)
Definition format_line (g : game) : outcome string :=
  t ← get g "title"; n ← get g "name";
  let title := py_or t (py_or n (VStr "Unknown Game")) in
  a ← get g "appid"; i ← get g "id";
  let appid := py_or a (py_or i (VStr "N/A")) in
  Done (glyph_dot +:+ " **" +:+ py_str title +:+ "** " +:+ glyph_dash
          +:+ " `" +:+ py_str appid +:+ "`").

Fixpoint format_games (games : list game) : outcome (list string) :=
  match games with
  | [] => Done []
  | g :: rest => line ← format_line g; lines ← format_games rest; Done (line :: lines)
  end.

(** [range(0, n, step)] *)
Definition range_step (n step : nat) : list nat :=
  map (λ j, j * step) (seq 0 ((n + step - 1) / step)).

(** [[formatted[i:i+80] for i in range(0, len(formatted), 80)]] *)
Definition chunks (formatted : list string) : list (list string) :=
  map (λ i, take 80 (drop i formatted)) (range_step (length formatted) 80).

Definition page_embed (total pages idx : nat) (chunk : list string) : Embed :=
  mkEmbed
    (glyph_list +:+ " Game List (" +:+ Text.of_nat total +:+ " total) " +:+ glyph_dash
       +:+ " Page " +:+ Text.of_nat idx +:+ "/" +:+ Text.of_nat pages)
    (Text.slice_to 4096 (Text.join Text.newline chunk))
    Blurple
    None
    ("Steam Manifest Bot " +:+ glyph_bullet +:+ " XALVENGE D.").

Definition page_embeds (total : nat) (formatted : list string) : list Embed :=
  let cs := chunks formatted in
  imap (λ i chunk, page_embed total (length cs) (S i) chunk) cs.

(** [msg.edit(embed=embed)] inside [try] ... [except Exception]. *)
Definition edit_page {St} (E : env) (msg : Z) (embed : Embed) : M St unit :=
  emit (Sleep 2);;
  t ← now;
  let r := message_edit E t msg embed in
  emit (MessageEdit msg embed r);;
  match r with
  | None => mret tt
  | Some e => emit (Print ("[ERROR] Failed to edit message: " +:+ exn_text e))
  end.

(** [msg.fetch()] gives the message again, with the same identity. *)
Definition fetch_message {St} (E : env) (msg : Z) : M St Z :=
  t ← now;
  let r := message_fetch E t msg in
  emit (MessageFetch msg r);;
  match r with
  | None => mret msg
  | Some e => raise e
  end.

Definition gamelist {St} (E : env) : M St unit :=
  defer E;;
  games ← fetch_games E;
  match games with
  | [] =>
      followup E (Content (glyph_cross +:+ " Failed to load game list.")) true;;
      mret tt
  | _ :: _ =>
      formatted ← lift (format_games games);
      match page_embeds (length games) formatted with
      | [] => raise (Exn OtherError "list index out of range")
      | first :: others =>
          msg ← followup E (Rich first) false;
          msg ← fetch_message E msg;
          for_each others (edit_page E msg)
      end
  end.

(** The loop over the games of [newgame]: the keys are kept in a list,
    in the order of the snapshot. *)
Fixpoint scan_games_list (games : list game) (current_keys : list string)
    (mapping : gmap string entry) : outcome (list string * gmap string entry) :=
  match games with
  | [] => Done (current_keys, mapping)
  | g :: rest =>
      e ← game_entry g;
      scan_games_list rest (current_keys ++ [e_name e]) (<[e_name e := e]> mapping)
  end.

Definition newgame (E : env) : M state unit :=
  defer E;;
  games ← fetch_games E;
  match games with
  | [] =>
      followup E (Content (glyph_cross +:+ " Failed to load game list.")) true;;
      mret tt
  | _ :: _ =>
      '(current_keys, mapping) ← lift (scan_games_list games [] ∅);
      s ← Run.get;
      let new_keys := filter (λ k, k ∉ seen_new s) current_keys in
      match new_keys with
      | [] =>
          followup E (Content (glyph_warning +:+ " No newly added games found.")) true;;
          mret tt
      | _ :: _ =>
          for_each (take 10 new_keys) (λ k,
            match mapping !! k with
            | None => raise (Exn OtherError "'NoneType' object is not subscriptable")
            | Some e =>
                followup E
                  (Rich (make_game_embed (e_name e) (e_appid e) (e_img e) "NEW"))
                  false;;
                mret tt
            end);;
          if Nat.ltb 10 (length new_keys) then
            followup E
              (Content (glyph_check +:+ " " +:+ Text.of_nat (length new_keys)
                          +:+ " new games found " +:+ glyph_dash
                          +:+ " showing first 10."))
              true;;
            mret tt
          else mret tt
      end
  end.

Definition fixegame (E : env) : M state unit :=
  defer E;;
  fixes ← fetch_fixes E;
  match fixes with
  | [] =>
      followup E (Content (glyph_cross +:+ " Failed to load fixes.")) true;;
      mret tt
  | _ :: _ =>
      for_each fixes (λ f,
        followup E
          (Rich (make_fix_embed (fix_title f) (fix_download f) (fix_size f)))
          false;;
        mret tt);;
      followup E
        (Content (glyph_check +:+ " " +:+ Text.of_nat (length fixes)
                    +:+ " fixes found " +:+ glyph_dash +:+ " all displayed."))
        true;;
      mret tt
  end.

End GameMonitor.

(** ** [status_bot.py] *)

Module StatusBot.

Definition STATUS_URL : string := "https://status.manifestor.cc/".
Definition CHECK_INTERVAL : nat := 5 * 60.
Definition BANNER_IMAGE_URL : string :=
  "https://media.giphy.com/media/kyLYXonQYYfwYDIeZl/giphy.gif".

(** [self.config]: guild id to channel id, in the order of the dict. *)
Definition state : Type := list (string * Z).

Definition status_emoji (status_text : string) : string :=
  let st_lower := Text.lower status_text in
  if Text.contains "ok" st_lower then "✅"
  else if Text.contains "maintenance" st_lower then "⚠️"
  else if Text.contains "down" st_lower then "❌"
  else "ℹ️".

Definition status_line (idx : nat) (block_text : string) : string :=
  let status_text := Text.strip block_text in
  status_emoji status_text +:+ " Server " +:+ Text.of_nat idx +:+ ": " +:+ status_text.

(** [fetch_status]: a failure is returned as the text to display. *)
Definition fetch_status {St} (E : env) : M St string :=
  t ← now;
  emit (HttpGet STATUS_URL);;
  match status_page E t with
  | StatusFailed e => mret ("❌ Error fetching status: " +:+ exn_text e)
  | StatusBlocks [] => mret "ℹ️ Could not find status blocks"
  | StatusBlocks status_blocks =>
      mret (Text.join Text.newline (imap (λ i b, status_line (S i) b) status_blocks))
  end.

Definition countdown_text (remaining : nat) : string :=
  "Next update in " +:+ Text.pad2 (remaining / 60) +:+ ":" +:+ Text.pad2 (remaining mod 60).

Definition set_footer (text : string) (e : Embed) : Embed :=
  mkEmbed (title e) (description e) (colour e) (image e) text.

Definition set_description (text : string) (e : Embed) : Embed :=
  mkEmbed (title e) text (colour e) (image e) (footer e).

(** The countdown loop; the result tells whether it ran to the end
    ([false]: the function returned from inside the loop). *)
Fixpoint countdown {St} (E : env) (channel_id msg : Z) (embed : Embed)
    (remaining : nat) : M St (bool * Embed) :=
  match remaining with
  | O => mret (true, embed)
  | S remaining' =>
      let embed := set_footer (countdown_text remaining) embed in
      t ← now;
      let r := message_edit E t msg embed in
      emit (MessageEdit msg embed r);;
      match r with
      | None => emit (Sleep 1);; countdown E channel_id msg embed remaining'
      | Some e =>
          match exn_kind e with
          | Forbidden =>
              emit (Print ("Missing permission to edit message in channel "
                             +:+ Text.of_Z channel_id));;
              mret (false, embed)
          | _ => raise e
          end
      end
  end.

Definition send_visual_status {St} (E : env) (channel_id : Z) : M St unit :=
  t ← now;
  if negb (channel_cached E t channel_id) then
    emit (Print ("Channel " +:+ Text.of_Z channel_id +:+ " not found."))
  else
    status_msg ← fetch_status E;
    let embed :=
      mkEmbed "🔔 Manifestor.cc Real-Time Status" status_msg Blurple
        (Some BANNER_IMAGE_URL) (countdown_text CHECK_INTERVAL) in
    t ← now;
    let r := channel_send E t channel_id embed in
    emit (ChannelSend channel_id embed r);;
    msg ← lift r;
    '(finished, embed) ← countdown E channel_id msg embed CHECK_INTERVAL;
    if negb finished then mret tt
    else
      status_msg ← fetch_status E;
      let embed := set_footer (countdown_text CHECK_INTERVAL)
                     (set_description status_msg embed) in
      t ← now;
      let r := message_edit E t msg embed in
      emit (MessageEdit msg embed r);;
      match r with
      | None => mret tt
      | Some e => raise e
      end.

(** The body of [status_loop], one scheduled cycle. *)
Definition status_loop (E : env) : M state unit :=
  config ← Run.get;
  for_each config (λ '(guild_id, channel_id), send_visual_status E channel_id).

End StatusBot.

(** * Vocabulary of the statements *)

Module Obs.
Import GameMonitor.

Local Open Scope list_scope.

(** What [fetch_games] returns for a response, and what it prints. *)
Definition games_snapshot (r : games_response) : list game :=
  match r with
  | GamesStatus status (JsonList items) => if (status =? 200)%Z then items else []
  | _ => []
  end.

Definition games_log (r : games_response) : list event :=
  match r with
  | GamesFailed e => [Print ("[ERROR] Exception in fetch_games(): " +:+ exn_text e)]
  | GamesStatus status body =>
      if (status =? 200)%Z then
        match body with
        | JsonError e => [Print ("[ERROR] Exception in fetch_games(): " +:+ exn_text e)]
        | JsonList _ => []
        | JsonOther => [Print "[ERROR] Invalid JSON format from games.json"]
        end
      else [Print ("[ERROR] Failed to fetch games.json: " +:+ Text.of_Z status)]
  end.

(** What [fetch_fixes] returns for a response. *)
Definition fixes_snapshot (r : fixes_response) : list fix_item :=
  match r with
  | FixesStatus status (Some anchors) =>
      if (status =? 200)%Z then dedupe ∅ (extract anchors) else []
  | _ => []
  end.

(** The events of one call of [safe_send] on a configured channel. *)
Definition report (ch : Z) (r : outcome Z) : list event :=
  match r with
  | Done _ => []
  | Raised e => [Print (send_failure_line ch e)]
  end.

Inductive attempt (ch : Z) (e : Embed) : list event → Prop :=
| attempt_cached r :
    attempt ch e (ChannelSend ch e r :: report ch r)
| attempt_fetched r :
    attempt ch e (FetchChannel ch true :: ChannelSend ch e r :: report ch r)
| attempt_not_found :
    attempt ch e [FetchChannel ch false; Print (not_found_line ch)].

(** [delivers ch posts evs]: [evs] is the trace of handing the embeds
    [posts], in this order, to [safe_send] for the channel [ch]. *)
Inductive delivers (ch : Z) : list Embed → list event → Prop :=
| delivers_nil : delivers ch [] []
| delivers_cons e posts g evs :
    attempt ch e g → delivers ch posts evs → delivers ch (e :: posts) (g ++ evs).

(** The trace of a feed whose destination is [channel_id]: nothing at
    all when the destination is unset. *)
Definition feed_trace (channel_id : option Z) (posts : list Embed)
    (evs : list event) : Prop :=
  match channel_set channel_id with
  | Some ch => delivers ch posts evs
  | None => evs = []
  end.

(** The embed of a key, [None] where the loop body hits [continue]. *)
Definition game_post (mapping : gmap string entry) (kind key : string) : option Embed :=
  e ← mapping !! key;
  Some (make_game_embed (e_name e) (e_appid e) (e_img e) kind).

Definition fix_post (mapping : gmap string fix_item) (key : string) : option Embed :=
  e ← mapping !! key;
  Some (make_fix_embed (fix_title e) (fix_download e) (fix_size e)).

(** The keys the NEW loop and the UPDATED loop reach a [safe_send] for. *)
Definition new_feed_keys (s : state) (current_keys : gset string) : list string :=
  sorted (current_keys ∖ seen_new s).

Definition update_feed_keys (s : state) (current_keys : gset string) : list string :=
  filter (λ k, k ∉ current_keys ∖ seen_new s) (sorted (current_keys ∖ seen_update s)).

(** The memory after lines 257-260 and after [save_config]. *)
Definition merged (s : state) (new_keys update_keys : gset string) : state :=
  set_seen_update (λ seen, seen ∪ update_keys) (set_seen_new (λ seen, seen ∪ new_keys) s).

Definition saved (r : write_outcome) (s : state) : outcome unit * state :=
  let s' := set_config (with_seen s) s in
  match r with
  | WriteOk => (Done tt, set_disk (Stored (with_seen s)) s')
  | OpenFails e => (Raised e, s')
  | DumpFails e => (Raised e, set_disk Damaged s')
  end.

(** Strictly ascending order of keys. *)
Definition before (a b : string) : Prop := String.le a b ∧ a ≠ b.

(** The features of the game monitor, each with its destination, its
    seen-set and its pipeline. *)
Inductive feature : Type := NEW_GAMES | UPDATED_GAMES | FIXED_GAMES.

Definition destination (f : feature) (s : state) : option Z :=
  channel_set
    match f with
    | NEW_GAMES => channel_id_new (config s)
    | UPDATED_GAMES => channel_id_update (config s)
    | FIXED_GAMES => channel_id_fixed (config s)
    end.

Definition seen_of (f : feature) (s : state) : gset string :=
  match f with
  | NEW_GAMES => seen_new s
  | UPDATED_GAMES => seen_update s
  | FIXED_GAMES => seen_fixed s
  end.

Definition stored_seen (f : feature) (c : config_dict) : list string :=
  match f with
  | NEW_GAMES => cfg_seen_new c
  | UPDATED_GAMES => cfg_seen_update c
  | FIXED_GAMES => cfg_seen_fixed c
  end.

Definition cycle (f : feature) (E : env) : M state unit :=
  match f with
  | FIXED_GAMES => process_fixes E
  | _ => process_games_new_updated E
  end.

Definition feed_url (f : feature) : string :=
  match f with
  | FIXED_GAMES => FIXES_PAGE_URL
  | _ => GAMES_JSON_URL
  end.

(** The keys and the entries computed from the games served at time
    [t] (nothing when an item makes the loop raise). *)
Definition scanned (E : env) (t : nat) : gset string * gmap string entry :=
  match scan_games (games_snapshot (games_feed E t)) ∅ ∅ with
  | Done r => r
  | Raised _ => (∅, ∅)
  end.

Definition snapshot_keys (f : feature) (E : env) (t : nat) : gset string :=
  match f with
  | FIXED_GAMES => (scan_fixes (fixes_snapshot (fixes_page E t)) ∅ ∅).1
  | _ => (scanned E t).1
  end.

(** The computed diff of a feature in the cycle started in [w]. *)
Definition to_announce (f : feature) (E : env) (w : world state) : gset string :=
  snapshot_keys f E (length (out w)) ∖ seen_of f (mem w).

(** The deliveries of a pipeline that belong to its other feed. *)
Definition other_feed (f : feature) (E : env) (w : world state)
    (evs : list event) : Prop :=
  let '(keys, mapping) := scanned E (length (out w)) in
  match f with
  | NEW_GAMES =>
      feed_trace (channel_id_update (config (mem w)))
        (omap (game_post mapping "UPDATED") (update_feed_keys (mem w) keys)) evs
  | UPDATED_GAMES =>
      feed_trace (channel_id_new (config (mem w)))
        (omap (game_post mapping "NEW") (new_feed_keys (mem w) keys)) evs
  | FIXED_GAMES => evs = []
  end.

(** The pipeline of a feature finds its source unavailable, or empty. *)
Definition unavailable (f : feature) (E : env) (t : nat) : Prop :=
  match f with
  | FIXED_GAMES => fixes_snapshot (fixes_page E t) = []
  | _ => games_snapshot (games_feed E t) = []
  end.

(** What a fetch prints for the operator. *)
Definition fetch_log (f : feature) (E : env) (t : nat) : list event :=
  match f with
  | FIXED_GAMES => []
  | _ => games_log (games_feed E t)
  end.

Definition is_log (ev : event) : Prop :=
  match ev with
  | Print _ => True
  | _ => False
  end.

Definition is_write (ev : event) : Prop :=
  match ev with
  | WriteConfig _ _ => True
  | _ => False
  end.

(** The manual peek commands and a sequence of their invocations, each
    in its own environment; an invocation that raises ends there and the
    next one starts from the world it left. *)
Inductive peek : Type := PeekNewGames | PeekFixes.

Definition peek_command (p : peek) : env → M state unit :=
  match p with
  | PeekNewGames => newgame
  | PeekFixes => fixegame
  end.

Fixpoint peeks (invocations : list (peek * env)) (w : world state) : world state :=
  match invocations with
  | [] => w
  | (p, E) :: rest => peeks rest (peek_command p E w).2
  end.

(** A block has a title when its name pattern matched a non-blank text,
    and a link when its [href] pattern matched. *)
Definition has_title (b : block) : Prop :=
  ∃ n, name_m b = Some n ∧ Text.strip n ≠ "".

Definition has_link (b : block) : Prop :=
  ∃ h, href_m b = Some h ∧ h ≠ "".

(** The result of [fetch_fixes] on a page with the given anchor blocks. *)
Definition fetched_fixes (anchors : list block) : list fix_item :=
  fixes_snapshot (FixesStatus 200 (Some anchors)).

(** The trace of delivering the pages after the first one: before each
    page a pause of two seconds, then an edit of the message [msg]. *)
Definition edit_report (r : option exn) : list event :=
  match r with
  | None => []
  | Some e => [Print ("[ERROR] Failed to edit message: " +:+ exn_text e)]
  end.

Inductive edits (msg : Z) : list Embed → list event → Prop :=
| edits_nil : edits msg [] []
| edits_cons e pages r evs :
    edits msg pages evs →
    edits msg (e :: pages) (Sleep 2 :: MessageEdit msg e r :: edit_report r ++ evs).

(** The platform accepts every follow-up message and every deferral. *)
Definition accepts_followups (E : env) : Prop :=
  ∀ t p, ∃ m, followup_send E t p = Done m.

Definition accepts_deferrals (E : env) : Prop :=
  ∀ t, interaction_defer E t = None.

(** The games served to a command, which fetches after deferring. *)
Definition served (E : env) {St} (w : world St) : list game :=
  games_snapshot (games_feed E (S (length (out w)))).

(** The text of the count shown by [newgame] when it cuts the list. *)
Definition count_line (n : nat) : string :=
  glyph_check +:+ " " +:+ Text.of_nat n +:+ " new games found " +:+ glyph_dash
    +:+ " showing first 10.".

(** A loop body that posts the embed of a key, or skips the key. *)
Definition posts_or_skips (E : env) channel_id (post : string → option Embed)
    (P : string → Prop) `{!∀ k, Decision (P k)} {St} (body : string → M St unit) : Prop :=
  ∀ k w, body k w
         = if bool_decide (P k) then (Done tt, w)
           else match post k with
                | None => (Done tt, w)
                | Some e => safe_send E channel_id e w
                end.

(** The events of code that is not examined further. *)
Definition any_event (ev : event) : Prop := True.

(** An embed that renders an item served by one of the two sources at
    the time [t]: a game as NEW or UPDATED, or a fix. *)
Definition renders_game (E : env) (t : nat) (embed : Embed) : Prop :=
  ∃ g e kind,
    kind ∈ ["NEW"; "UPDATED"]
    ∧ g ∈ games_snapshot (games_feed E t)
    ∧ game_entry g = Done e
    ∧ embed = make_game_embed (e_name e) (e_appid e) (e_img e) kind.

Definition renders_fix (E : env) (t : nat) (embed : Embed) : Prop :=
  ∃ f,
    f ∈ fixes_snapshot (fixes_page E t)
    ∧ embed = make_fix_embed (Text.strip (fix_title f)) (fix_download f) (fix_size f).

(** The events of a cycle of the game monitor that runs from the time
    [since] to the time [until]: requests, lines printed for the operator,
    channel look-ups, writes of the configuration, and messages that
    render an item served during the cycle. *)
Definition cycle_event (E : env) (since until : nat) (ev : event) : Prop :=
  match ev with
  | HttpGet _ | Print _ | FetchChannel _ _ | WriteConfig _ _ => True
  | ChannelSend _ e _ =>
      ∃ t, (since ≤ t < until)%nat ∧ (renders_game E t e ∨ renders_fix E t e)
  | _ => False
  end.

(** Some message put on a chat surface shows the given text. *)
Definition shown_on_chat (text : string) (evs : list event) : Prop :=
  ∃ ev, ev ∈ evs
        ∧ match ev with
          | ChannelSend _ e _ | MessageEdit _ e _ | Followup (Rich e) _ _ =>
              Text.contains text (description e) = true
          | Followup (Content line) _ _ => Text.contains text line = true
          | _ => False
          end.

(** The key of an item in the words of the specification: its title, or
    its name when it has no title, without the surrounding blanks, and the
    synthetic name made from the app id when that text is empty.  An item
    whose title (or name, when it is the one used) is not a text has no
    key. *)
Definition field (d : gmap string pyval) (k : string) : pyval :=
  default VNone (d !! k).

Definition synthetic_name (d : gmap string pyval) : string :=
  "Unknown Game ("
    +:+ py_str (py_or (field d "appid") (py_or (field d "id") (VStr "N/A")))
    +:+ ")".

Definition item_key (d : gmap string pyval) : option string :=
  match py_or (field d "title") (py_or (field d "name") (VStr "")) with
  | VStr shown =>
      Some (if bool_decide (Text.strip shown = "") then synthetic_name d
            else Text.strip shown)
  | _ => None
  end.

(** What a feed of the games pipeline does with the keys [ks] it has to
    announce.  With a destination: one call of [safe_send] per key, in the
    order of [ks], each with the embed made from the entry of the key and
    the kind of the feed.  Without a destination: nothing. *)
Definition announces (channel_id : option Z) (kind : string)
    (mapping : gmap string entry) (ks : list string) (evs : list event) : Prop :=
  match channel_set channel_id with
  | Some ch =>
      ∃ posts,
        delivers ch posts evs
        ∧ Forall2 (λ k p, ∃ e, mapping !! k = Some e ∧ e_name e = k
                               ∧ p = make_game_embed k (e_appid e) (e_img e) kind)
            ks posts
  | None => evs = []
  end.

(** An event that puts nothing on a chat surface: a line printed for the
    operator or a write of the configuration. *)
Definition off_chat (ev : event) : Prop := is_log ev ∨ is_write ev.

(** A message of some feed carries the key [k]: its embed is the one of a
    game of that name. *)
Definition sends_key (k : string) (ev : event) : Prop :=
  match ev with
  | ChannelSend _ e _ => ∃ appid img kind, e = make_game_embed k appid img kind
  | _ => False
  end.

(** The text [fetch_status] returns for a response: the status lines, or
    the line that tells the failure. *)
Definition status_text (r : status_response) : string :=
  match r with
  | StatusFailed e => "❌ Error fetching status: " +:+ exn_text e
  | StatusBlocks [] => "ℹ️ Could not find status blocks"
  | StatusBlocks status_blocks =>
      Text.join Text.newline (imap (λ i b, StatusBot.status_line (S i) b) status_blocks)
  end.

(** A message of the status monitor: its description is the text of a
    fetch of the status page, its footer a countdown. *)
Definition status_message (E : env) (e : Embed) : Prop :=
  title e = "🔔 Manifestor.cc Real-Time Status"
  ∧ (∃ t, description e = status_text (status_page E t))
  ∧ (∃ remaining, footer e = StatusBot.countdown_text remaining).

(** The events of a cycle of the status monitor: requests, lines printed
    for the operator, pauses, and messages and edits that show the status
    text. *)
Definition status_event (E : env) (ev : event) : Prop :=
  match ev with
  | HttpGet _ | Print _ | Sleep _ => True
  | ChannelSend _ e _ | MessageEdit _ e _ => status_message E e
  | _ => False
  end.

End Obs.

(** * Sample runs *)

Module Sample.
Import GameMonitor Obs.

(** A platform and a network where every call succeeds and the sources
    are unavailable; the samples below change one answer at a time. *)
Definition calm : env :=
  mkEnv (λ _, GamesStatus 503 JsonOther) (λ _, FixesFailed) (λ _, StatusBlocks [])
    (λ _ _, true) (λ _ _, true) (λ t _ _, Done (Z.of_nat t)) (λ _, WriteOk)
    (λ _, None) (λ t _, Done (Z.of_nat t)) (λ _ _, None) (λ _ _ _, None).

Definition with_games (games : list game) (E : env) : env :=
  mkEnv (λ _, GamesStatus 200 (JsonList games)) (fixes_page E) (status_page E)
    (channel_cached E) (channel_fetched E) (channel_send E) (config_write E)
    (interaction_defer E) (followup_send E) (message_fetch E) (message_edit E).

Definition with_fixes (anchors : list block) (E : env) : env :=
  mkEnv (games_feed E) (λ _, FixesStatus 200 (Some anchors)) (status_page E)
    (channel_cached E) (channel_fetched E) (channel_send E) (config_write E)
    (interaction_defer E) (followup_send E) (message_fetch E) (message_edit E).

Definition with_status (r : status_response) (E : env) : env :=
  mkEnv (games_feed E) (fixes_page E) (λ _, r)
    (channel_cached E) (channel_fetched E) (channel_send E) (config_write E)
    (interaction_defer E) (followup_send E) (message_fetch E) (message_edit E).

Definition refusing_sends (e : exn) (E : env) : env :=
  mkEnv (games_feed E) (fixes_page E) (status_page E)
    (channel_cached E) (channel_fetched E) (λ _ _ _, Raised e) (config_write E)
    (interaction_defer E) (followup_send E) (message_fetch E) (message_edit E).

Definition alpha : game := GDict {[ "title" := VStr "Alpha"; "appid" := VStr "1" ]}.
Definition beta : game := GDict {[ "title" := VStr "Beta"; "appid" := VStr "2" ]}.

(** A monitor that has announced "Alpha" on both feeds, with the given
    destinations. *)
Definition monitor (ch_new ch_update ch_fixed : option Z) : state :=
  init (Stored (mkConfig ["Alpha"] ["Alpha"] [] ch_new ch_update ch_fixed)).

(** A monitor that has announced "Alpha" as updated only. *)
Definition fresh_monitor (ch_new ch_update : option Z) : state :=
  init (Stored (mkConfig [] ["Alpha"] [] ch_new ch_update None)).

Definition numbered (n : nat) : game :=
  GDict {[ "title" := VStr ("Game " +:+ Text.of_nat n); "appid" := VInt (Z.of_nat n) ]}.

Definition missing_permissions : exn :=
  Exn Forbidden "403 Forbidden (error code: 50013): Missing Permissions".

(** The feed serves "Beta" then "Alpha" to a monitor that has announced
    "Alpha" and posts new games in channel 5, updated ones in channel 6. *)
Definition two_games : list game := [beta; alpha].
Definition E_games : env := with_games two_games calm.
Definition w_games : world state := World (monitor (Some 5%Z) (Some 6%Z) None) [].
Definition keys_games : gset string := (scanned E_games 0).1.
Definition mapping_games : gmap string entry := (scanned E_games 0).2.

(** The fixes page has one block, with a name and a link and no size,
    and the monitor has no channel for the fixes. *)
Definition patch_block : block := mkBlock (Some "/files/Patch1.zip") (Some "Patch1.zip") None.
Definition empty_block : block := mkBlock None None (Some "12 MB").
Definition E_fixes : env := with_fixes [patch_block] calm.

(** The status page cannot be fetched. *)
Definition boom : exn := Exn OtherError "boom".
Definition E_status : env := with_status (StatusFailed boom) calm.
Definition w_status : world StatusBot.state := World [("1", 42%Z)] [].

(** A feed of 81 games, for a listing of two pages. *)
Definition many_games : list game := map numbered (seq 1 81).
Definition E_many : env := with_games many_games calm.
Definition lines_many : list string :=
  match format_games many_games with
  | Done lines => lines
  | Raised _ => []
  end.

(** A feed of "Beta", "Alpha" and ten more games, for a peek. *)
Definition dozen_games : list game := beta :: alpha :: map numbered (seq 1 10).
Definition E_dozen : env := with_games dozen_games calm.
Definition keys_dozen : list string :=
  match scan_games_list dozen_games [] ∅ with
  | Done r => r.1
  | Raised _ => []
  end.
Definition mapping_dozen : gmap string entry :=
  match scan_games_list dozen_games [] ∅ with
  | Done r => r.2
  | Raised _ => ∅
  end.

(** The same monitor with no destination at all, and with a destination
    for the updated games only. *)
Definition w_silent : world state := World (monitor None None None) [].
Definition w_update_only : world state := World (monitor None (Some 6%Z) None) [].

(** A feed whose second item is a number. *)
Definition E_malformed : env := with_games [beta; GOther "int"] calm.

(** A block with a name and no link, and a block with a link and no
    name. *)
Definition nolink_block : block := mkBlock None (Some "NoLink.zip") None.
Definition nameless_block : block := mkBlock (Some "/files/Only.zip") None None.

End Sample.

(** * The configuration and test commands of [game_monitor.py] *)

Module GameCommands.
Import GameMonitor.

Definition glyph_pin : string := "üìå".

(** ASCII letters to upper case; this is [s.upper()] on ASCII text, and
    the feature names it is applied to are ASCII. *)
Definition upper_ascii (c : ascii) : ascii :=
  let n := nat_of_ascii c in
  if Nat.leb 97 n && Nat.leb n 122 then ascii_of_nat (n - 32) else c.

Definition upper (s : string) : string :=
  string_of_list_ascii (map upper_ascii (list_ascii_of_string s)).

(** What a command passes to [interaction.response.send_message]: the
    call is the last statement on every path of the commands below, so the
    answer is given as the result of the computation. *)
Record answer : Type := mkAnswer { answer_text : string; answer_ephemeral : bool }.

Definition not_owner : answer :=
  mkAnswer (glyph_cross +:+ " Only the server owner can use this command.") true.

(** The first statement of [gamesetup] and of [testgamealerts]. *)
Definition is_owner (user_id owner_id : Z) : bool := (user_id =? owner_id)%Z.

(** [gamesetup] up to its first answer: the feature menu. *)
Definition gamesetup (user_id owner_id : Z) : answer :=
  if negb (is_owner user_id owner_id) then not_owner
  else mkAnswer (glyph_pin +:+ " Select which feature you want to configure:") true.

(** [FeatureSelect.callback]: the channel menu for the chosen feature. *)
Definition feature_selected (feature : string) : answer :=
  mkAnswer (glyph_pin +:+ " Now select the channel for **" +:+ feature +:+ " alerts**:") true.

(** The assignment of [ChannelSelect.callback]: one of the three channel
    keys, or none for another feature name. *)
Definition assign_channel (feature : string) (selected_channel : Z)
    (c : config_dict) : config_dict :=
  if bool_decide (feature = "new") then
    mkConfig (cfg_seen_new c) (cfg_seen_update c) (cfg_seen_fixed c)
      (Some selected_channel) (channel_id_update c) (channel_id_fixed c)
  else if bool_decide (feature = "update") then
    mkConfig (cfg_seen_new c) (cfg_seen_update c) (cfg_seen_fixed c)
      (channel_id_new c) (Some selected_channel) (channel_id_fixed c)
  else if bool_decide (feature = "fixed") then
    mkConfig (cfg_seen_new c) (cfg_seen_update c) (cfg_seen_fixed c)
      (channel_id_new c) (channel_id_update c) (Some selected_channel)
  else c.

(** [ChannelSelect.callback] *)
Definition channel_selected (E : env) (feature : string) (selected_channel : Z) :
    M state answer :=
  modify (λ s, set_config (assign_channel feature selected_channel (config s)) s);;
  save_config E;;
  mret (mkAnswer (glyph_check +:+ " Channel for **" +:+ feature +:+ " games** set to <#"
                    +:+ Text.of_Z selected_channel +:+ ">") true).

(** The embed of [testgamealerts] for a feature. *)
Definition test_embed (feature : string) : Embed :=
  mkEmbed
    (glyph_game +:+ " TEST " +:+ upper feature +:+ " GAME ALERT")
    (glyph_package +:+ " **Manifest for App ID:** `123456`")
    (if bool_decide (feature = "Fixed") then Green else Blurple)
    (Some "https://i.imgur.com/OBaYQvr.jpeg")
    ("Steam Manifest Bot " +:+ glyph_bullet +:+ " XALVENGE D.").

Definition test_features : list (string * (config_dict → option Z)) :=
  [("New", channel_id_new); ("Updated", channel_id_update); ("Fixed", channel_id_fixed)].

(** The loop of [testgamealerts] over the features. *)
Fixpoint test_loop (E : env) (features : list (string * (config_dict → option Z)))
    (sent : list string) : M state (list string) :=
  match features with
  | [] => mret sent
  | (feature, key) :: rest =>
      s ← Run.get;
      let channel_id := key (config s) in
      if is_Some_b (channel_set channel_id) then
        safe_send E channel_id (test_embed feature);;
        test_loop E rest (sent ++ [feature])
      else test_loop E rest sent
  end.

Definition testgamealerts (E : env) (user_id owner_id : Z) : M state answer :=
  if negb (is_owner user_id owner_id) then mret not_owner
  else
    sent ← test_loop E test_features [];
    match sent with
    | [] =>
        mret (mkAnswer (glyph_warning +:+ " No channels configured. Run `/gamesetup` first.")
                true)
    | _ :: _ =>
        mret (mkAnswer (glyph_check +:+ " Test alerts sent for: " +:+ Text.join ", " sent)
                true)
    end.

End GameCommands.

(** * Vocabulary of the further properties *)

Module Props.
Import GameMonitor Obs.

Local Open Scope list_scope.

(** The seen-sets only grow and the destinations stay. *)
Definition grows (s s' : state) : Prop :=
  seen_new s ⊆ seen_new s'
  ∧ seen_update s ⊆ seen_update s'
  ∧ seen_fixed s ⊆ seen_fixed s'
  ∧ channel_id_new (config s') = channel_id_new (config s)
  ∧ channel_id_update (config s') = channel_id_update (config s)
  ∧ channel_id_fixed (config s') = channel_id_fixed (config s).

(** No empty key comes into a seen-set. *)
Definition no_empty_key (s s' : state) : Prop :=
  ∀ f, "" ∈ seen_of f s' → "" ∈ seen_of f s.

(** Every byte of the text is a continuation byte of UTF-8. *)
Fixpoint all_continuation (s : string) : bool :=
  match s with
  | EmptyString => true
  | String c r => Text.is_continuation c && all_continuation r
  end.

(** A character: a byte followed by continuation bytes. *)
Definition group_ok (g : string) : Prop :=
  ∃ c r, g = String c r ∧ all_continuation r = true.

(** A list of characters as [utf8_chars] gives them: only the first one
    may start with a continuation byte. *)
Definition well_grouped (L : list string) : Prop :=
  match L with
  | [] => True
  | g :: gs =>
      group_ok g
      ∧ Forall (λ g', group_ok g' ∧ Text.starts_with_continuation g' = false) gs
  end.

(** The first character of the list, if any, starts with a leading byte. *)
Definition head_starts_fresh (gs : list string) : Prop :=
  match gs with
  | [] => True
  | g :: _ => Text.starts_with_continuation g = false
  end.

(** The spellings of a lower-case ASCII text in every letter case. *)
Definition letter_cases (c : ascii) : list ascii :=
  let n := nat_of_ascii c in
  if Nat.leb 97 n && Nat.leb n 122 then [c; ascii_of_nat (n - 32)] else [c].

Fixpoint spellings (s : string) : list string :=
  match s with
  | EmptyString => [""]
  | String c r =>
      c' ← letter_cases c; String c' <$> spellings r
  end.

(** The value of a feature in the menu of [gamesetup]. *)
Definition feature_value (f : feature) : string :=
  match f with
  | NEW_GAMES => "new"
  | UPDATED_GAMES => "update"
  | FIXED_GAMES => "fixed"
  end.

(** The features of [testgamealerts] that have a destination, each with
    its channel. *)
Definition configured (features : list (string * (config_dict → option Z)))
    (s : state) : list (string * Z) :=
  omap (λ '(name, key), ch ← channel_set (key (config s)); Some (name, ch)) features.

(** The trace of the test alerts: one call of [safe_send] per configured
    feature, whatever its result. *)
Inductive test_deliveries : list (string * Z) → list event → Prop :=
| test_deliveries_nil : test_deliveries [] []
| test_deliveries_cons name ch rest g evs :
    attempt ch (GameCommands.test_embed name) g →
    test_deliveries rest evs →
    test_deliveries ((name, ch) :: rest) (g ++ evs).

(** The seconds a trace sleeps, and the channels it posts a message in. *)
Definition slept (evs : list event) : nat :=
  sum_list ((λ ev, match ev with Sleep n => n | _ => 0 end) <$> evs).

Definition posted_to (evs : list event) : list Z :=
  omap (λ ev, match ev with ChannelSend ch _ _ => Some ch | _ => None end) evs.

(** One step of the countdown that went well: an edit that is accepted,
    or the second of sleep after it. *)
Definition tick (msg : Z) (ev : event) : Prop :=
  match ev with
  | MessageEdit m _ None => m = msg
  | Sleep 1 => True
  | _ => False
  end.

(** A platform that has every channel and accepts every message and every
    edit. *)
Definition healthy (E : env) : Prop :=
  (∀ t ch, channel_cached E t ch = true)
  ∧ (∀ t ch e, ∃ m, channel_send E t ch e = Done m)
  ∧ (∀ t m e, message_edit E t m e = None).

End Props.

(** * More sample runs *)

Module Cases.
Import GameMonitor Obs Sample Props.

(** The configuration file cannot be opened for writing. *)
Definition failing_writes (e : exn) (E : env) : env :=
  mkEnv (games_feed E) (fixes_page E) (status_page E)
    (channel_cached E) (channel_fetched E) (channel_send E) (λ _, OpenFails e)
    (interaction_defer E) (followup_send E) (message_fetch E) (message_edit E).

Definition E_readonly : env := failing_writes boom E_games.

(** From the time [t0] on the platform refuses every edit. *)
Definition refusing_edits_from (t0 : nat) (e : exn) (E : env) : env :=
  mkEnv (games_feed E) (fixes_page E) (status_page E)
    (channel_cached E) (channel_fetched E) (channel_send E) (config_write E)
    (interaction_defer E) (followup_send E) (message_fetch E)
    (λ t _ _, if Nat.ltb t t0 then None else Some e).

Definition E_refused : env := refusing_edits_from 6 missing_permissions calm.

Definition test_posts : list Embed :=
  [GameCommands.test_embed "New"; GameCommands.test_embed "Fixed"].

End Cases.

(** * Reasoning about runs *)

Local Open Scope list_scope.

(** ** What a computation emits and how it changes the memory *)

Section Frames.
Context {S : Type}.

(** [c] extends the trace by events satisfying [P] and changes the
    memory along [R], whatever its outcome. *)
Definition respects (R : relation S) (P : event → Prop) {A} (c : M S A) : Prop :=
  ∀ w, ∃ evs, out (c w).2 = out w ++ evs ∧ Forall P evs ∧ R (mem w) (mem (c w).2).

Context (R : relation S) `{!PreOrder R} (P : event → Prop).

Lemma respects_ret {A} (a : A) : respects R P (mret a : M S A).
Proof. intros w. exists []. by rewrite app_nil_r. Qed.

Lemma respects_raise {A} e : respects R P (raise e : M S A).
Proof. intros w. exists []. by rewrite app_nil_r. Qed.

Lemma respects_lift {A} (o : outcome A) : respects R P (lift o : M S A).
Proof. intros w. exists []. by rewrite app_nil_r. Qed.

Lemma respects_now : respects R P (now : M S nat).
Proof. intros w. exists []. by rewrite app_nil_r. Qed.

Lemma respects_get : respects R P (Run.get : M S S).
Proof. intros w. exists []. by rewrite app_nil_r. Qed.

Lemma respects_emit ev : P ev → respects R P (emit ev : M S unit).
Proof. intros Hev w. exists [ev]. simpl. by repeat constructor. Qed.

Lemma respects_modify f : (∀ s, R s (f s)) → respects R P (modify f).
Proof. intros Hf w. exists []. rewrite app_nil_r. simpl. auto. Qed.

Lemma respects_bind {A B} (c : M S A) (k : A → M S B) :
  respects R P c → (∀ a, respects R P (k a)) → respects R P (c ≫= k).
Proof.
  intros Hc Hk w. unfold mbind, M_bind, bind.
  destruct (Hc w) as (evs & Hout & Hevs & Hmem).
  destruct (c w) as [[a|e] w1]; simpl in *.
  - destruct (Hk a w1) as (evs' & Hout' & Hevs' & Hmem').
    exists (evs ++ evs'). rewrite Hout', Hout, app_assoc.
    split_and!; [done | by apply Forall_app | by etrans].
  - by exists evs.
Qed.

Lemma respects_try {A} (c : M S A) (h : exn → M S A) :
  respects R P c → (∀ e, respects R P (h e)) → respects R P (try_except c h).
Proof.
  intros Hc Hh w. unfold try_except.
  destruct (Hc w) as (evs & Hout & Hevs & Hmem).
  destruct (c w) as [[a|e] w1]; simpl in *.
  - by exists evs.
  - destruct (Hh e w1) as (evs' & Hout' & Hevs' & Hmem').
    exists (evs ++ evs'). rewrite Hout', Hout, app_assoc.
    split_and!; [done | by apply Forall_app | by etrans].
Qed.

Lemma respects_for_each {A} (l : list A) (body : A → M S unit) :
  (∀ x, x ∈ l → respects R P (body x)) → respects R P (for_each l body).
Proof.
  induction l as [|x l IH]; intros Hbody; simpl.
  - apply respects_ret.
  - apply respects_bind.
    + apply Hbody. by left.
    + intros _. apply IH. intros y Hy. apply Hbody. by right.
Qed.

End Frames.

Lemma respects_weaken {S A} (R R' : relation S) (P P' : event → Prop) (c : M S A) :
  (∀ s s', R s s' → R' s s') → (∀ ev, P ev → P' ev) →
  respects R P c → respects R' P' c.
Proof.
  intros HR HP Hc w. destruct (Hc w) as (evs & ? & ? & ?).
  exists evs. split_and!; [done | by eapply Forall_impl | auto].
Qed.

Create HintDb frames.
#[export] Hint Resolve respects_ret respects_raise respects_lift respects_now
  respects_get : frames.

(** ** Runs of the game monitor *)

Section GameRuns.
Import GameMonitor Obs.
Context {St : Type}.

Ltac run := unfold mbind, M_bind, bind, mret, M_ret, ret, emit, now, modify,
              Run.get, lift, raise; simpl.

Lemma fetch_games_run (E : env) (w : world St) :
  let r := games_feed E (length (out w)) in
  fetch_games E w
  = (Done (games_snapshot r),
     World (mem w) (out w ++ HttpGet GAMES_JSON_URL :: games_log r)).
Proof.
  unfold fetch_games. run.
  destruct (games_feed E (length (out w))) as [e | status body]; simpl.
  - by rewrite <- app_assoc.
  - destruct body, (status =? 200)%Z; simpl; by rewrite <- ?app_assoc.
Qed.

Lemma fetch_fixes_run (E : env) (w : world St) :
  fetch_fixes E w
  = (Done (fixes_snapshot (fixes_page E (length (out w)))),
     World (mem w) (out w ++ [HttpGet FIXES_PAGE_URL])).
Proof.
  unfold fetch_fixes. run.
  destruct (fixes_page E (length (out w))) as [| status [anchors|]]; simpl; try done;
    by destruct (status =? 200)%Z.
Qed.

Lemma safe_send_unset (E : env) channel_id e (w : world St) :
  channel_set channel_id = None → safe_send E channel_id e w = (Done tt, w).
Proof. unfold safe_send. by intros ->. Qed.

Lemma safe_send_run (E : env) channel_id ch e (w : world St) :
  channel_set channel_id = Some ch →
  ∃ g, safe_send E channel_id e w = (Done tt, World (mem w) (out w ++ g))
       ∧ attempt ch e g.
Proof.
  unfold safe_send. intros ->. run.
  destruct (channel_cached E (length (out w)) ch); simpl.
  - destruct (channel_send E (length (out w)) ch e) as [m|x] eqn:Hr; simpl.
    + exists [ChannelSend ch e (Done m)]. split; [done|]. apply (attempt_cached _ _ (Done m)).
    + exists [ChannelSend ch e (Raised x); Print (send_failure_line ch x)].
      rewrite <- app_assoc. split; [done|]. apply (attempt_cached _ _ (Raised x)).
  - destruct (channel_fetched E (length (out w)) ch); simpl.
    + destruct (channel_send E _ ch e) as [m|x] eqn:Hr; simpl.
      * exists [FetchChannel ch true; ChannelSend ch e (Done m)].
        rewrite <- app_assoc. split; [done|]. apply (attempt_fetched _ _ (Done m)).
      * exists [FetchChannel ch true; ChannelSend ch e (Raised x);
                Print (send_failure_line ch x)].
        rewrite <- !app_assoc. split; [done|]. apply (attempt_fetched _ _ (Raised x)).
    + exists [FetchChannel ch false; Print (not_found_line ch)].
      rewrite <- app_assoc. split; [done|]. apply attempt_not_found.
Qed.

(** A loop whose body posts the embed of a key, or skips the key. *)
Lemma feed_loop_run (E : env) channel_id ch (post : string → option Embed)
    (P : string → Prop) `{!∀ k, Decision (P k)} body (keys : list string)
    (w : world St) :
  channel_set channel_id = Some ch →
  posts_or_skips E channel_id post P body →
  ∃ evs,
    for_each keys body w = (Done tt, World (mem w) (out w ++ evs))
    ∧ delivers ch (omap post (filter (λ k, ¬ P k) keys)) evs.
Proof.
  intros Hch Hbody. revert w. induction keys as [|k keys IH]; intros w; simpl.
  - exists []. rewrite app_nil_r. split; [by destruct w | constructor].
  - unfold bind at 1. rewrite Hbody, filter_cons.
    destruct (decide (P k)) as [HP|HP].
    + rewrite (bool_decide_eq_true_2 _ HP).
      destruct (decide (¬ P k)) as [?|_]; [done|].
      destruct (IH w) as (evs & Hrun & Hd). by exists evs.
    + rewrite (bool_decide_eq_false_2 _ HP).
      destruct (decide (¬ P k)) as [_|?]; [|done]. simpl.
      destruct (post k) as [e|]; simpl.
      * destruct (safe_send_run E channel_id ch e w Hch) as (g & -> & Hg).
        destruct (IH (World (mem w) (out w ++ g))) as (evs & Hrun & Hd).
        exists (g ++ evs). split; [|by constructor].
        rewrite app_assoc. exact Hrun.
      * destruct (IH w) as (evs & Hrun & Hd). by exists evs.
Qed.

Lemma mbind_run {A B} (c : M St A) (k : A → M St B) w r w' :
  c w = (r, w') →
  (c ≫= k) w = match r with
               | Done a => k a w'
               | Raised e => (Raised e, w')
               end.
Proof. unfold mbind, M_bind, bind. by intros ->. Qed.

End GameRuns.

Section GameCycle.
Import GameMonitor Obs.

Lemma filter_all {A} (P : A → Prop) `{!∀ x, Decision (P x)} (l : list A) :
  (∀ x, P x) → filter P l = l.
Proof.
  intros HP. induction l as [|x l IH]; [done|].
  rewrite filter_cons_True by done. by rewrite IH.
Qed.

Lemma save_config_run (E : env) (w : world state) :
  let r := config_write E (length (out w)) in
  save_config E w
  = ((saved r (mem w)).1,
     World (saved r (mem w)).2 (out w ++ [WriteConfig (with_seen (mem w)) r])).
Proof.
  unfold save_config, saved, mbind, M_bind, bind, modify, Run.get, now, emit, raise.
  simpl. by destruct (config_write E (length (out w))).
Qed.

Lemma sorted_empty : sorted ∅ = [].
Proof. unfold sorted. by rewrite elements_empty. Qed.

Lemma games_log_snapshot r : games_snapshot r ≠ [] → games_log r = [].
Proof. destruct r as [|status []]; simpl; try done; by destruct (status =? 200)%Z. Qed.

Lemma merged_empty s : merged s ∅ ∅ = s.
Proof.
  destruct s. unfold merged, set_seen_update, set_seen_new. simpl.
  by rewrite !(right_id_L ∅ (∪)).
Qed.

(** The trace of a feed loop guarded by [if ch and keys]. *)
Lemma guarded_feed_run (E : env) channel_id (post : string → option Embed)
    (P : string → Prop) `{!∀ k, Decision (P k)} body (keys : gset string)
    (w : world state) :
  posts_or_skips E channel_id post P body →
  ∃ evs,
    (if is_Some_b (channel_set channel_id) && negb (is_empty keys)
     then for_each (sorted keys) body else mret tt) w
    = (Done tt, World (mem w) (out w ++ evs))
    ∧ feed_trace channel_id (omap post (filter (λ k, ¬ P k) (sorted keys))) evs.
Proof.
  intros Hbody. unfold feed_trace.
  destruct (channel_set channel_id) as [ch|] eqn:Hch; simpl.
  - unfold is_empty. case_bool_decide as Hk; simpl.
    + exists []. subst keys. rewrite sorted_empty, app_nil_r.
      split; [by destruct w | constructor].
    + by apply (feed_loop_run E channel_id).
  - exists []. rewrite app_nil_r. by destruct w.
Qed.

End GameCycle.

Section GameCycleRuns.
Import GameMonitor Obs.

Lemma set_seen_new_empty s : set_seen_new (λ seen, seen ∪ ∅) s = s.
Proof. destruct s. unfold set_seen_new. simpl. by rewrite (right_id_L ∅ (∪)). Qed.

Lemma set_seen_update_empty s : set_seen_update (λ seen, seen ∪ ∅) s = s.
Proof. destruct s. unfold set_seen_update. simpl. by rewrite (right_id_L ∅ (∪)). Qed.

Lemma set_seen_fixed_empty s : set_seen_fixed (λ seen, seen ∪ ∅) s = s.
Proof. destruct s. unfold set_seen_fixed. simpl. by rewrite (right_id_L ∅ (∪)). Qed.

(** One cycle of the games pipeline on a non-empty, well-formed
    snapshot: the fetch, the deliveries of the NEW feed, those of the
    UPDATED feed, then the commit. *)
Lemma process_games_run (E : env) (w : world state) keys mapping :
  let games := games_snapshot (games_feed E (length (out w))) in
  games ≠ [] →
  scan_games games ∅ ∅ = Done (keys, mapping) →
  let s := mem w in
  let new_keys := keys ∖ seen_new s in
  let update_keys := keys ∖ seen_update s in
  ∃ evs_new evs_upd,
    feed_trace (channel_id_new (config s))
      (omap (game_post mapping "NEW") (new_feed_keys s keys)) evs_new
    ∧ feed_trace (channel_id_update (config s))
        (omap (game_post mapping "UPDATED") (update_feed_keys s keys)) evs_upd
    ∧ process_games_new_updated E w
      = if is_empty new_keys && is_empty update_keys
        then (Done tt,
              World s (out w ++ HttpGet GAMES_JSON_URL :: evs_new ++ evs_upd))
        else
          let r := config_write E (length (out w ++ HttpGet GAMES_JSON_URL
                                                :: evs_new ++ evs_upd)) in
          let s' := merged s new_keys update_keys in
          ((saved r s').1,
           World (saved r s').2
             (out w ++ HttpGet GAMES_JSON_URL :: evs_new ++ evs_upd
                ++ [WriteConfig (with_seen s') r])).
Proof.
  intros games Hne Hscan s new_keys update_keys.
  unfold process_games_new_updated.
  erewrite mbind_run; [|apply fetch_games_run].
  fold games. rewrite (games_log_snapshot _ Hne).
  destruct games as [|g gs] eqn:Hgames; [done|].
  erewrite mbind_run; [|unfold lift; by rewrite Hscan].
  cbv beta iota.
  erewrite mbind_run; [|reflexivity].
  cbv beta iota. cbn [mem out].
  fold s new_keys update_keys.
  set (w1 := World s (out w ++ [HttpGet GAMES_JSON_URL])).
  destruct (guarded_feed_run E (channel_id_new (config s)) (game_post mapping "NEW")
              (λ _, False)
              (λ k, match mapping !! k with
                    | None => mret tt
                    | Some e =>
                        safe_send E (channel_id_new (config s))
                          (make_game_embed (e_name e) (e_appid e) (e_img e) "NEW")
                    end)
              new_keys w1) as (evs_new & Hnew & Htn);
    [|erewrite mbind_run; [|exact Hnew]].
  { intros k w'. unfold game_post. simpl. by destruct (mapping !! k). }
  cbv beta iota.
  destruct (guarded_feed_run E (channel_id_update (config s))
              (game_post mapping "UPDATED") (λ k, k ∈ new_keys)
              (λ k, if bool_decide (k ∈ new_keys) then mret tt
                    else match mapping !! k with
                         | None => mret tt
                         | Some e =>
                             safe_send E (channel_id_update (config s))
                               (make_game_embed (e_name e) (e_appid e) (e_img e)
                                  "UPDATED")
                         end)
              update_keys
              (World s (out w1 ++ evs_new))) as (evs_upd & Hupd & Htu);
    [|erewrite mbind_run; [|exact Hupd]].
  { intros k w'. unfold game_post. simpl.
    case_bool_decide; [done|]. by destruct (mapping !! k). }
  cbv beta iota. cbn [mem out].
  exists evs_new, evs_upd. split_and!.
  - unfold new_feed_keys. fold new_keys.
    replace (sorted new_keys) with (filter (λ _ : string, ¬ False) (sorted new_keys)); [done|].
    apply filter_all. auto.
  - exact Htu.
  - unfold is_empty.
    set (tr := out w ++ HttpGet GAMES_JSON_URL :: evs_new ++ evs_upd).
    assert ((out w1 ++ evs_new) ++ evs_upd = tr) as ->
      by (subst w1 tr; simpl; by rewrite <- !app_assoc).
    assert (∀ x, tr ++ [x] = out w ++ HttpGet GAMES_JSON_URL :: evs_new ++ evs_upd ++ [x])
      as Htr.
    { intros x. subst tr. rewrite <- app_assoc. simpl. by rewrite <- app_assoc. }
    unfold mbind, M_bind, bind.
    destruct (bool_decide (new_keys = ∅)) eqn:Hn,
             (bool_decide (update_keys = ∅)) eqn:Hu; simpl; [done|..];
      rewrite save_config_run; cbn [mem out]; rewrite Htr; unfold merged.
    + apply bool_decide_eq_true in Hn. by rewrite Hn, set_seen_new_empty.
    + apply bool_decide_eq_true in Hu. by rewrite Hu, set_seen_update_empty.
    + done.
Qed.

(** One cycle of the fixes pipeline on a non-empty snapshot. *)
Lemma process_fixes_run (E : env) (w : world state) titles mapping :
  let fixes := fixes_snapshot (fixes_page E (length (out w))) in
  fixes ≠ [] →
  scan_fixes fixes ∅ ∅ = (titles, mapping) →
  let s := mem w in
  let new_fixed := titles ∖ seen_fixed s in
  ∃ evs,
    feed_trace (channel_id_fixed (config s))
      (omap (fix_post mapping) (sorted new_fixed)) evs
    ∧ process_fixes E w
      = if is_empty new_fixed
        then (Done tt, World s (out w ++ HttpGet FIXES_PAGE_URL :: evs))
        else
          let r := config_write E (length (out w ++ HttpGet FIXES_PAGE_URL :: evs)) in
          let s' := set_seen_fixed (λ seen, seen ∪ new_fixed) s in
          ((saved r s').1,
           World (saved r s').2
             (out w ++ HttpGet FIXES_PAGE_URL :: evs ++ [WriteConfig (with_seen s') r])).
Proof.
  intros fixes Hne Hscan s new_fixed.
  unfold process_fixes.
  erewrite mbind_run; [|apply fetch_fixes_run].
  fold fixes.
  destruct fixes as [|f fs] eqn:Hfixes; [done|].
  rewrite Hscan.
  erewrite mbind_run; [|reflexivity].
  cbv beta iota. cbn [mem out].
  fold s new_fixed.
  set (w1 := World s (out w ++ [HttpGet FIXES_PAGE_URL])).
  destruct (guarded_feed_run E (channel_id_fixed (config s)) (fix_post mapping)
              (λ _, False)
              (λ k, match mapping !! k with
                    | None => mret tt
                    | Some e =>
                        safe_send E (channel_id_fixed (config s))
                          (make_fix_embed (fix_title e) (fix_download e) (fix_size e))
                    end)
              new_fixed w1) as (evs & Hrun & Htr);
    [|erewrite mbind_run; [|exact Hrun]].
  { intros k w'. unfold fix_post. simpl. by destruct (mapping !! k). }
  cbv beta iota. cbn [mem out].
  exists evs. split.
  - replace (sorted new_fixed)
      with (filter (λ _ : string, ¬ False) (sorted new_fixed)); [done|].
    apply filter_all. auto.
  - assert (out w1 ++ evs = out w ++ HttpGet FIXES_PAGE_URL :: evs) as ->
      by (subst w1; simpl; by rewrite <- app_assoc).
    unfold is_empty. destruct (bool_decide (new_fixed = ∅)); simpl; [done|].
    unfold mbind, M_bind, bind. simpl.
    rewrite save_config_run. cbn [mem out]. by rewrite <- app_assoc.
Qed.

End GameCycleRuns.

(** ** The keys of a snapshot and their order *)

Section Keys.
Import GameMonitor Obs.

Lemma elem_of_sorted (keys : gset string) k : k ∈ sorted keys ↔ k ∈ keys.
Proof. unfold sorted. by rewrite merge_sort_Permutation, elem_of_elements. Qed.

Lemma NoDup_sorted (keys : gset string) : NoDup (sorted keys).
Proof. unfold sorted. rewrite merge_sort_Permutation. apply NoDup_elements. Qed.

Lemma sorted_ascending (keys : gset string) : StronglySorted before (sorted keys).
Proof.
  pose proof (NoDup_sorted keys) as Hnd.
  assert (StronglySorted String.le (sorted keys)) as Hs
    by apply (StronglySorted_merge_sort _).
  induction Hs as [|k l Hs IH Hall]; [constructor|].
  apply NoDup_cons in Hnd as [Hk Hnd].
  constructor; [by apply IH|].
  rewrite Forall_forall in Hall |- *. intros k' Hk'. split; [by apply Hall|].
  intros ->. done.
Qed.

Lemma game_key_entry g k :
  game_key g = Done k ↔ ∃ e, game_entry g = Done e ∧ e_name e = k.
Proof.
  unfold game_key. destruct (game_entry g) as [e|x]; simpl.
  - split; [intros [= <-]; by exists e | by intros (? & [= <-] & <-)].
  - split; [done | by intros (? & ? & ?)].
Qed.

(** What the loop over the games accumulates. *)
Lemma scan_games_keys games ks m keys mapping :
  scan_games games ks m = Done (keys, mapping) →
  ∀ k, k ∈ keys ↔ k ∈ ks ∨ ∃ g, g ∈ games ∧ game_key g = Done k.
Proof.
  revert ks m. induction games as [|g games IH]; intros ks m Hscan k; simpl in Hscan.
  - injection Hscan as <- <-. split; [auto|]. intros [?|(g & Hg & _)]; [done|].
    by apply elem_of_nil in Hg.
  - destruct (game_entry g) as [e|x] eqn:He; [|done]. simpl in Hscan.
    rewrite (IH _ _ Hscan k), elem_of_union, elem_of_singleton.
    split.
    + intros [[->|?]|(g' & Hg' & Hk)]; [|auto|].
      * right. exists g. split; [by left|]. apply game_key_entry. eauto.
      * right. exists g'. split; [by right | done].
    + intros [?|(g' & Hg' & Hk)]; [auto|].
      apply elem_of_cons in Hg' as [->|Hg']; [|right; eauto].
      apply game_key_entry in Hk as (e' & He' & <-).
      left. left. congruence.
Qed.

Lemma scan_games_mapping games ks m keys mapping :
  scan_games games ks m = Done (keys, mapping) →
  ∀ k e, mapping !! k = Some e →
         m !! k = Some e ∨ ∃ g, g ∈ games ∧ game_entry g = Done e ∧ e_name e = k.
Proof.
  revert ks m. induction games as [|g games IH]; intros ks m Hscan k e Hk;
    simpl in Hscan.
  - injection Hscan as <- <-. auto.
  - destruct (game_entry g) as [e0|x] eqn:He; [|done]. simpl in Hscan.
    destruct (IH _ _ Hscan k e Hk) as [Hm|(g' & Hg' & ? & ?)].
    + apply lookup_insert_Some in Hm as [[<- <-]|[_ Hm]]; [|auto].
      right. exists g. split; [by left | done].
    + right. exists g'. split; [by right | done].
Qed.

Lemma scan_games_total games ks m keys mapping :
  scan_games games ks m = Done (keys, mapping) →
  (∀ k, k ∈ ks → ∃ e, m !! k = Some e ∧ e_name e = k) →
  ∀ k, k ∈ keys → ∃ e, mapping !! k = Some e ∧ e_name e = k.
Proof.
  revert ks m. induction games as [|g games IH]; intros ks m Hscan Hinv;
    simpl in Hscan.
  - injection Hscan as <- <-. done.
  - destruct (game_entry g) as [e0|x] eqn:He; [|done]. simpl in Hscan.
    apply (IH _ _ Hscan). intros k Hk.
    destruct (decide (k = e_name e0)) as [->|Hne].
    + exists e0. by rewrite lookup_insert_eq.
    + rewrite lookup_insert_ne by done. apply Hinv. set_solver.
Qed.

(** Every key of the diff has an entry: the [continue] of the feed loops
    is never taken, and the embed of a key carries the key. *)
Lemma feed_posts games keys mapping kind (ks : list string) :
  scan_games games ∅ ∅ = Done (keys, mapping) →
  (∀ k, k ∈ ks → k ∈ keys) →
  Forall2 (λ k p, ∃ e, mapping !! k = Some e ∧ e_name e = k
                       ∧ p = make_game_embed k (e_appid e) (e_img e) kind)
    ks (omap (game_post mapping kind) ks).
Proof.
  intros Hscan. induction ks as [|k ks IH]; intros Hks; simpl; [constructor|].
  destruct (scan_games_total _ _ _ _ _ Hscan (λ k Hk, False_ind _ (not_elem_of_empty k Hk)) k)
    as (e & He & Hname); [apply Hks; by left|].
  unfold game_post at 1. rewrite He. simpl. constructor.
  - exists e. by rewrite Hname.
  - apply IH. intros k' Hk'. apply Hks. by right.
Qed.

End Keys.

(** * The claims *)

Section DiffClaims.
Import GameMonitor Obs.

Lemma saved_seen r s :
  seen_new (saved r s).2 = seen_new s
  ∧ seen_update (saved r s).2 = seen_update s
  ∧ seen_fixed (saved r s).2 = seen_fixed s.
Proof. by destruct r. Qed.

Lemma saved_ok s : saved WriteOk s = (Done tt, set_disk (Stored (with_seen s))
                                                (set_config (with_seen s) s)).
Proof. done. Qed.

(** A cycle of the games pipeline that has something to commit. *)
Lemma games_cycle_commits (E : env) (w : world state) keys mapping :
  let games := games_snapshot (games_feed E (length (out w))) in
  scan_games games ∅ ∅ = Done (keys, mapping) →
  let s := mem w in
  let new_keys := keys ∖ seen_new s in
  let update_keys := keys ∖ seen_update s in
  new_keys ≠ ∅ ∨ update_keys ≠ ∅ →
  ∃ evs_new evs_upd wr,
    feed_trace (channel_id_new (config s))
      (omap (game_post mapping "NEW") (new_feed_keys s keys)) evs_new
    ∧ feed_trace (channel_id_update (config s))
        (omap (game_post mapping "UPDATED") (update_feed_keys s keys)) evs_upd
    ∧ process_games_new_updated E w
      = ((saved wr (merged s new_keys update_keys)).1,
         World (saved wr (merged s new_keys update_keys)).2
           (out w ++ HttpGet GAMES_JSON_URL :: evs_new ++ evs_upd
              ++ [WriteConfig (with_seen (merged s new_keys update_keys)) wr])).
Proof.
  intros games Hscan s new_keys update_keys Hdiff.
  assert (games ≠ []) as Hne.
  { intros Hnil. rewrite Hnil in Hscan. injection Hscan as <- <-.
    subst new_keys update_keys. destruct Hdiff as [H|H]; apply H; set_solver. }
  destruct (process_games_run E w keys mapping Hne Hscan)
    as (evs_new & evs_upd & Hn & Hu & Hrun).
  exists evs_new, evs_upd. eexists. split_and!; [done..|].
  rewrite Hrun. fold s new_keys update_keys. unfold is_empty.
  destruct Hdiff as [H|H].
  - by rewrite (bool_decide_eq_false_2 _ H).
  - rewrite (bool_decide_eq_false_2 _ H). by rewrite andb_false_r.
Qed.


Lemma empty_scan keys mapping :
  scan_games [] ∅ ∅ = Done (keys, mapping) → keys = ∅ ∧ mapping = ∅.
Proof. by intros [= <- <-]. Qed.

Lemma Forall2_elem_of_r {A B} (R : A → B → Prop) l k y :
  Forall2 R l k → y ∈ k → ∃ x, x ∈ l ∧ R x y.
Proof.
  induction 1 as [|x y' l k HR _ IH]; intros Hy; [by apply elem_of_nil in Hy|].
  apply elem_of_cons in Hy as [->|Hy].
  - exists x. split; [by left | done].
  - destruct (IH Hy) as (x' & ? & ?). exists x'. split; [by right | done].
Qed.

Lemma game_embed_key k k' a a' i i' kind kind' :
  make_game_embed k a i kind = make_game_embed k' a' i' kind' → k = k'.
Proof.
  intros [= Htitle _]. unfold make_game_embed in Htitle.
  by repeat (apply (inj (String.app _)) in Htitle).
Qed.

Lemma game_key_rule g k :
  game_key g = Done k ↔ ∃ d, g = GDict d ∧ item_key d = Some k.
Proof.
  destruct g as [d|n].
  - trans (item_key d = Some k).
    + unfold game_key, game_entry, item_key, synthetic_name, field. simpl.
      destruct (py_or (default VNone (d !! "title"))
                  (py_or (default VNone (d !! "name")) (VStr "")))
        as [|b|z|shown|n t txt]; simpl; try (split; discriminate).
      unfold nonempty. case_bool_decide; simpl; split; intros [= <-]; done.
    + split; [intros H; by exists d | by intros (d' & [= <-] & H)].
  - split; [done | by intros (d' & ? & ?)].
Qed.

Lemma feed_trace_announces games keys mapping channel_id kind ks evs :
  scan_games games ∅ ∅ = Done (keys, mapping) →
  (∀ k, k ∈ ks → k ∈ keys) →
  feed_trace channel_id (omap (game_post mapping kind) ks) evs →
  announces channel_id kind mapping ks evs.
Proof.
  unfold feed_trace, announces. intros Hscan Hks Htr.
  destruct (channel_set channel_id) as [ch|]; [|done].
  eexists. split; [exact Htr|]. by apply (feed_posts games keys).
Qed.

Lemma announces_nil channel_id kind mapping : announces channel_id kind mapping [] [].
Proof.
  unfold announces. destruct (channel_set channel_id); [|done].
  exists []. split; constructor.
Qed.

Lemma delivers_member {K} ch (R : K → Embed → Prop) ks posts evs k :
  delivers ch posts evs → Forall2 R ks posts → k ∈ ks →
  ∃ p pre g post, R k p ∧ evs = pre ++ g ++ post ∧ attempt ch p g.
Proof.
  intros Hd Hks. revert evs Hd.
  induction Hks as [|k' p ks posts HR _ IH]; intros evs Hd Hk;
    [by apply elem_of_nil in Hk|].
  inversion Hd as [|? ? g evs' Hg Hd']; subst.
  apply elem_of_cons in Hk as [->|Hk].
  - exists p, [], g, evs'. done.
  - destruct (IH _ Hd' Hk) as (p' & pre & g' & post & ? & -> & ?).
    exists p', (g ++ pre), g', post. by rewrite <- app_assoc.
Qed.

Lemma delivers_sends ch posts evs ev :
  delivers ch posts evs → ev ∈ evs →
  match ev with
  | ChannelSend _ e _ => e ∈ posts
  | _ => True
  end.
Proof.
  induction 1 as [|e posts g evs Hg _ IH]; intros Hev; [by apply elem_of_nil in Hev|].
  apply elem_of_app in Hev as [Hev|Hev].
  - destruct ev as [| | |ch' e' r'| | | | | |]; try done.
    assert (e' = e) as -> by
      (destruct Hg as [r|r|]; [| |];
       repeat (apply elem_of_cons in Hev as [Hev|Hev]; [by (discriminate || injection Hev as -> -> ->)|]);
       try (by apply elem_of_nil in Hev);
       destruct r; simpl in Hev;
       repeat (apply elem_of_cons in Hev as [Hev|Hev]; [discriminate|]);
       by apply elem_of_nil in Hev).
    by left.
  - specialize (IH Hev). destruct ev; try done. by right.
Qed.

End DiffClaims.

Import GameMonitor Obs.

(** C1, amended. An item's key is its title, or its name when it has no
    title, without the surrounding blanks, or the synthetic name when that
    text is empty.  For a snapshot of the games pipeline whose items all
    have a key and for any seen-set, the keys to announce,
    [sorted(current_keys - seen)], are exactly the keys of the items that
    are not in the seen-set, in strictly ascending order.  The cycle hands
    these keys, in that order and one call of the notifier each, to the NEW
    feed for [seen_new] and, less the keys of the new-diff, to the UPDATED
    feed for [seen_update]; a feed without a destination announces nothing,
    and the rest of the cycle puts nothing on the chat.  When an item has
    no key the cycle stops with its error before it announces anything. *)
Theorem C1_feeds_announce_the_sorted_diffs (E : env) (w : world state) :
  let games := games_snapshot (games_feed E (length (out w))) in
  let s := mem w in
  (∀ g k, game_key g = Done k ↔ ∃ d, g = GDict d ∧ item_key d = Some k)
  ∧ (∀ keys mapping,
       scan_games games ∅ ∅ = Done (keys, mapping) →
       (∀ seen : gset string,
          (∀ k, k ∈ sorted (keys ∖ seen)
                ↔ (∃ d, GDict d ∈ games ∧ item_key d = Some k) ∧ k ∉ seen)
          ∧ StronglySorted before (sorted (keys ∖ seen)))
       ∧ ∃ evs_new evs_upd tail,
           out (process_games_new_updated E w).2
           = out w ++ HttpGet GAMES_JSON_URL :: evs_new ++ evs_upd ++ tail
           ∧ announces (channel_id_new (config s)) "NEW" mapping
               (sorted (keys ∖ seen_new s)) evs_new
           ∧ announces (channel_id_update (config s)) "UPDATED" mapping
               (filter (λ k, k ∉ keys ∖ seen_new s) (sorted (keys ∖ seen_update s)))
               evs_upd
           ∧ Forall off_chat tail)
  ∧ (∀ x,
       scan_games games ∅ ∅ = Raised x →
       process_games_new_updated E w
       = (Raised x, World s (out w ++ [HttpGet GAMES_JSON_URL]))).
Proof.
  intros games s. split; [apply game_key_rule|]. split.
  - intros keys mapping Hscan. split.
    + intros seen. split; [|apply sorted_ascending].
      intros k. rewrite elem_of_sorted, elem_of_difference.
      rewrite (scan_games_keys _ _ _ _ _ Hscan k).
      split.
      * intros [[Hk|(g & Hg & Hkey)] Hseen]; [by apply not_elem_of_empty in Hk|].
        apply game_key_rule in Hkey as (d & -> & Hd). split; [by exists d | done].
      * intros [(d & Hd & Hkey) Hseen]. split; [|done]. right.
        exists (GDict d). split; [done|]. apply game_key_rule. by exists d.
    + destruct games as [|g gs] eqn:Hgames.
      * apply empty_scan in Hscan as [-> ->].
        exists [], [], (games_log (games_feed E (length (out w)))).
        unfold process_games_new_updated.
        erewrite mbind_run; [|apply fetch_games_run]. fold games. rewrite Hgames.
        cbn [out snd app mret M_ret ret].
        replace (∅ ∖ seen_new s) with (∅ : gset string) by set_solver.
        replace (∅ ∖ seen_update s) with (∅ : gset string) by set_solver.
        rewrite sorted_empty.
        split_and!; [done | apply announces_nil | apply announces_nil |].
        destruct (games_feed E (length (out w))) as [e|status []]; simpl;
          try destruct (status =? 200)%Z; repeat constructor.
      * assert (games_snapshot (games_feed E (length (out w))) ≠ []) as Hne
          by (fold games; by rewrite Hgames).
        pose proof Hscan as Hscan'. rewrite <- Hgames in Hscan'. unfold games in Hscan'.
        destruct (process_games_run E w keys mapping Hne Hscan')
          as (evs_new & evs_upd & Hn & Hu & Hrun).
        exists evs_new, evs_upd.
        assert (announces (channel_id_new (config s)) "NEW" mapping
                  (sorted (keys ∖ seen_new s)) evs_new) as Hnew.
        { apply (feed_trace_announces _ keys _ _ _ _ _ Hscan); [|exact Hn].
          intros k. rewrite elem_of_sorted. set_solver. }
        assert (announces (channel_id_update (config s)) "UPDATED" mapping
                  (filter (λ k, k ∉ keys ∖ seen_new s) (sorted (keys ∖ seen_update s)))
                  evs_upd) as Hupd.
        { apply (feed_trace_announces _ keys _ _ _ _ _ Hscan); [|exact Hu].
          intros k. rewrite list_elem_of_filter, elem_of_sorted. set_solver. }
        rewrite Hrun.
        destruct (is_empty (keys ∖ seen_new (mem w))
                  && is_empty (keys ∖ seen_update (mem w))).
        -- exists []. rewrite app_nil_r. split_and!; [done..|constructor].
        -- eexists [_]. split_and!; [done..|]. constructor; [by right | constructor].
  - intros x Hscan.
    assert (games ≠ []) as Hne by (intros Hnil; by rewrite Hnil in Hscan).
    unfold process_games_new_updated.
    erewrite mbind_run; [|apply fetch_games_run].
    rewrite games_log_snapshot by exact Hne.
    fold games. destruct games as [|g gs]; [done|].
    unfold mbind, M_bind, bind, lift. by rewrite Hscan.
Qed.

(** C2, amended. A key that is in both the new-diff and the updated-diff
    of a cycle is not announced on the UPDATED feed: it is not among the
    keys handed to the notifier of that feed and no message of that feed
    carries it.  When the NEW feed has a destination the key is announced
    there, by one call of the notifier with its NEW embed; when the NEW
    feed has no destination it is announced nowhere.  In both cases, after
    the cycle both [seen_new] and [seen_update] contain the key, and so do
    both lists of the configuration the cycle writes. *)
Theorem C2_key_in_both_diffs_goes_to_the_new_feed (E : env) (w : world state)
    games keys mapping k :
  games_snapshot (games_feed E (length (out w))) = games →
  scan_games games ∅ ∅ = Done (keys, mapping) →
  k ∈ keys ∖ seen_new (mem w) →
  k ∈ keys ∖ seen_update (mem w) →
  let s := mem w in
  let keys_new := sorted (keys ∖ seen_new s) in
  let keys_upd := filter (λ k, k ∉ keys ∖ seen_new s) (sorted (keys ∖ seen_update s)) in
  ∃ evs_new evs_upd c wr r s',
    process_games_new_updated E w
    = (r, World s' (out w ++ HttpGet GAMES_JSON_URL :: evs_new ++ evs_upd
                      ++ [WriteConfig c wr]))
    ∧ announces (channel_id_new (config s)) "NEW" mapping keys_new evs_new
    ∧ announces (channel_id_update (config s)) "UPDATED" mapping keys_upd evs_upd
    ∧ k ∈ keys_new
    ∧ match channel_set (channel_id_new (config s)) with
      | Some ch =>
          ∃ e before g after,
            mapping !! k = Some e
            ∧ evs_new = before ++ g ++ after
            ∧ attempt ch (make_game_embed k (e_appid e) (e_img e) "NEW") g
      | None => evs_new = []
      end
    ∧ k ∉ keys_upd
    ∧ (∀ ev, ev ∈ evs_upd → ¬ sends_key k ev)
    ∧ k ∈ seen_new s' ∧ k ∈ seen_update s'
    ∧ k ∈ cfg_seen_new c ∧ k ∈ cfg_seen_update c
    ∧ (wr = WriteOk → r = Done tt ∧ disk s' = Stored c).
Proof.
  intros Hgames Hscan Hnew Hupd s keys_new keys_upd.
  rewrite <- Hgames in Hscan.
  destruct (games_cycle_commits E w keys mapping Hscan)
    as (evs_new & evs_upd & wr & Hn & Hu & Hrun).
  { left. set_solver. }
  rewrite Hgames in Hscan.
  set (s1 := merged (mem w) (keys ∖ seen_new (mem w)) (keys ∖ seen_update (mem w))) in *.
  exists evs_new, evs_upd, (with_seen s1), wr, (saved wr s1).1, (saved wr s1).2.
  destruct (saved_seen wr s1) as (Hsn & Hsu & _).
  assert (k ∈ seen_new s1 ∧ k ∈ seen_update s1) as [Hk1 Hk2].
  { subst s1. unfold merged, set_seen_update, set_seen_new. simpl. set_solver. }
  assert (announces (channel_id_new (config s)) "NEW" mapping keys_new evs_new) as Han.
  { apply (feed_trace_announces _ keys _ _ _ _ _ Hscan); [|exact Hn].
    intros k'. unfold keys_new. rewrite elem_of_sorted. set_solver. }
  assert (announces (channel_id_update (config s)) "UPDATED" mapping keys_upd evs_upd)
    as Hau.
  { apply (feed_trace_announces _ keys _ _ _ _ _ Hscan); [|exact Hu].
    intros k'. unfold keys_upd. rewrite list_elem_of_filter, elem_of_sorted. set_solver. }
  assert (k ∈ keys_new) as Hin by by apply elem_of_sorted.
  assert (k ∉ keys_upd) as Hout.
  { unfold keys_upd. rewrite list_elem_of_filter. tauto. }
  split_and!; [done..| | done | | by rewrite Hsn | by rewrite Hsu | | |].
  - unfold announces in Han.
    destruct (channel_set (channel_id_new (config s))) as [ch|]; [|done].
    destruct Han as (posts & Hd & Hposts).
    destruct (delivers_member ch _ _ _ _ k Hd Hposts Hin)
      as (p & pre & g & post & (e & He & _ & ->) & -> & Hg).
    by exists e, pre, g, post.
  - intros ev Hev Hsend. unfold announces in Hau.
    destruct (channel_set (channel_id_update (config s))) as [ch|];
      [|subst; by apply elem_of_nil in Hev].
    destruct Hau as (posts & Hd & Hposts).
    pose proof (delivers_sends ch posts evs_upd ev Hd Hev) as Hp.
    destruct ev as [| | |ch' e r| | | | | |]; try done.
    destruct Hsend as (appid & img & kind & ->).
    destruct (Forall2_elem_of_r _ _ _ _ Hposts Hp) as (k' & Hk' & e' & _ & _ & Heq).
    apply game_embed_key in Heq as ->. done.
  - simpl. by apply elem_of_elements.
  - simpl. by apply elem_of_elements.
  - intros ->. done.
Qed.

(** C3. In a cycle where the destination of a feature is unset and its
    computed diff is not empty, the pipeline of the feature makes no
    delivery for it (between the fetch and the write there are only the
    deliveries of the other feed of the pipeline, and none for the fixes),
    the diff is merged into the seen-set of the feature, and the cycle ends
    by writing a configuration whose list for the feature is that seen-set. *)
Theorem C3_unset_destination_still_commits (f : feature) (E : env)
    (w : world state) :
  destination f (mem w) = None →
  to_announce f E w ≠ ∅ →
  ∃ evs c wr r s',
    cycle f E w
    = (r, World s' (out w ++ HttpGet (feed_url f) :: evs ++ [WriteConfig c wr]))
    ∧ other_feed f E w evs
    ∧ seen_of f s' = seen_of f (mem w) ∪ to_announce f E w
    ∧ (∀ k, k ∈ stored_seen f c ↔ k ∈ seen_of f s')
    ∧ (wr = WriteOk → r = Done tt ∧ disk s' = Stored c).
Proof.
  intros Hdest Hdiff. unfold to_announce, snapshot_keys, destination in *.
  destruct f; simpl in *.
  - unfold other_feed, scanned in *.
    destruct (scan_games _ ∅ ∅) as [[keys mapping]|x] eqn:Hscan; simpl in *;
      [|exfalso; apply Hdiff; set_solver].
    destruct (games_cycle_commits E w keys mapping Hscan)
      as (evs_new & evs_upd & wr & Hn & Hu & Hrun); [by left|].
    unfold feed_trace in Hn. rewrite Hdest in Hn. subst evs_new.
    set (s1 := merged _ _ _) in *.
    exists evs_upd, (with_seen s1), wr, (saved wr s1).1, (saved wr s1).2.
    destruct (saved_seen wr s1) as (Hsn & _ & _).
    split_and!; [done | done | by rewrite Hsn | | by intros ->].
    intros k. rewrite Hsn. simpl. apply elem_of_elements.
  - unfold other_feed, scanned in *.
    destruct (scan_games _ ∅ ∅) as [[keys mapping]|x] eqn:Hscan; simpl in *;
      [|exfalso; apply Hdiff; set_solver].
    destruct (games_cycle_commits E w keys mapping Hscan)
      as (evs_new & evs_upd & wr & Hn & Hu & Hrun); [by right|].
    unfold feed_trace in Hu. rewrite Hdest in Hu. subst evs_upd.
    set (s1 := merged _ _ _) in *.
    exists evs_new, (with_seen s1), wr, (saved wr s1).1, (saved wr s1).2.
    destruct (saved_seen wr s1) as (_ & Hsu & _).
    rewrite app_nil_l in Hrun.
    split_and!; [done | done | by rewrite Hsu | | by intros ->].
    intros k. rewrite Hsu. simpl. apply elem_of_elements.
  - destruct (scan_fixes _ ∅ ∅) as [titles mapping] eqn:Hscan. simpl in *.
    assert (fixes_snapshot (fixes_page E (length (out w))) ≠ []) as Hne.
    { intros Hnil. rewrite Hnil in Hscan. injection Hscan as <- <-.
      apply Hdiff. set_solver. }
    destruct (process_fixes_run E w titles mapping Hne Hscan) as (evs & Htr & Hrun).
    unfold feed_trace in Htr. rewrite Hdest in Htr. subst evs.
    unfold is_empty in Hrun. rewrite (bool_decide_eq_false_2 _ Hdiff) in Hrun.
    set (s1 := set_seen_fixed _ _) in *.
    exists [], (with_seen s1), (config_write E (length (out w ++ [HttpGet FIXES_PAGE_URL]))),
      (saved (config_write E (length (out w ++ [HttpGet FIXES_PAGE_URL]))) s1).1,
      (saved (config_write E (length (out w ++ [HttpGet FIXES_PAGE_URL]))) s1).2.
    destruct (saved_seen (config_write E (length (out w ++ [HttpGet FIXES_PAGE_URL]))) s1)
      as (_ & _ & Hsf).
    split_and!; [done | unfold other_feed; by destruct (scanned _ _) | by rewrite Hsf | | by intros ->].
    intros k. rewrite Hsf. simpl. apply elem_of_elements.
Qed.

Ltac frame_with R :=
  repeat first
    [ apply (respects_ret R) | apply (respects_raise R) | apply (respects_lift R)
    | apply (respects_now R) | apply (respects_get R)
    | apply (respects_emit R); try done
    | apply (respects_bind R); [|intros ?]
    | apply (respects_for_each R); intros ? _
    | match goal with
      | |- respects _ _ (match ?x with _ => _ end) => destruct x
      | |- respects _ _ (if ?b then _ else _) => destruct b
      | |- respects _ _ (let '(_, _) := ?x in _) => destruct x
      end ].

Ltac frame := frame_with (@eq GameMonitor.state).

Section FrameClaims.

Context (P : event → Prop).
Hypothesis P_http : ∀ url, P (HttpGet url).
Hypothesis P_print : ∀ line, P (Print line).
Hypothesis P_defer : ∀ r, P (Defer r).
Hypothesis P_followup : ∀ p eph r, P (Followup p eph r).

Lemma fetch_games_respects (E : env) : respects (=) P (fetch_games (St:=GameMonitor.state) E).
Proof. unfold fetch_games. frame. Qed.

Lemma fetch_fixes_respects (E : env) : respects (=) P (fetch_fixes (St:=GameMonitor.state) E).
Proof. unfold fetch_fixes. frame. Qed.

Lemma defer_respects (E : env) : respects (=) P (defer (St:=GameMonitor.state) E).
Proof. unfold defer. frame. Qed.

Lemma followup_respects (E : env) p eph : respects (=) P (followup (St:=GameMonitor.state) E p eph).
Proof. unfold followup. frame. Qed.

Lemma newgame_respects (E : env) : respects (=) P (newgame E).
Proof.
  unfold newgame.
  apply (respects_bind (=)); [apply defer_respects | intros _].
  apply (respects_bind (=)); [apply fetch_games_respects | intros games].
  destruct games as [|g gs].
  { apply (respects_bind (=)); [apply followup_respects | frame]. }
  apply (respects_bind (=)); [frame | intros [current_keys mapping]].
  apply (respects_bind (=)); [frame | intros s].
  destruct (filter _ _).
  - apply (respects_bind (=)); [apply followup_respects | frame].
  - apply (respects_bind (=)).
    + apply (respects_for_each (=)). intros k _. destruct (mapping !! k); [|frame].
      apply (respects_bind (=)); [apply followup_respects | frame].
    + intros _. destruct (Nat.ltb _ _); [|frame].
      apply (respects_bind (=)); [apply followup_respects | frame].
Qed.

Lemma fixegame_respects (E : env) : respects (=) P (fixegame E).
Proof.
  unfold fixegame.
  apply (respects_bind (=)); [apply defer_respects | intros _].
  apply (respects_bind (=)); [apply fetch_fixes_respects | intros fixes].
  destruct fixes.
  - apply (respects_bind (=)); [apply followup_respects | frame].
  - apply (respects_bind (=)).
    + apply (respects_for_each (=)). intros f' _.
      apply (respects_bind (=)); [apply followup_respects | frame].
    + intros _. apply (respects_bind (=)); [apply followup_respects | frame].
Qed.

End FrameClaims.

(** C6. Any sequence of invocations of the two peek commands, whatever the
    platform and the network answer and whether or not an invocation
    raises, leaves the memory of the monitor as it was (the three seen-sets,
    the configuration and the configuration file) and makes no write of the
    configuration. *)
Theorem C6_peek_commands_are_read_only (invocations : list (peek * env))
    (w : world state) :
  mem (peeks invocations w) = mem w
  ∧ ∃ evs, out (peeks invocations w) = out w ++ evs
           ∧ Forall (λ ev, ¬ is_write ev) evs.
Proof.
  revert w. induction invocations as [|[p E] rest IH]; intros w; simpl.
  - split; [done|]. exists []. by rewrite app_nil_r.
  - assert (respects (=) (λ ev, ¬ is_write ev) (peek_command p E)) as Hp.
    { destruct p; [apply newgame_respects | apply fixegame_respects];
        intros; intros Hw; exact Hw. }
    destruct (Hp w) as (evs & Hout & Hevs & Hmem).
    destruct (IH (peek_command p E w).2) as (Hmem' & evs' & Hout' & Hevs').
    split; [congruence|].
    exists (evs ++ evs'). rewrite Hout', Hout, app_assoc.
    split; [done | by apply Forall_app].
Qed.

Lemma cycle_unavailable (f : feature) (E : env) (w : world state) :
  unavailable f E (length (out w)) →
  cycle f E w
  = (Done tt,
     World (mem w) (out w ++ HttpGet (feed_url f) :: fetch_log f E (length (out w))))
  ∧ Forall is_log (fetch_log f E (length (out w))).
Proof.
  intros Hun. split.
  - destruct f; simpl in *.
    + unfold process_games_new_updated.
      erewrite mbind_run; [|apply fetch_games_run]. by rewrite Hun.
    + unfold process_games_new_updated.
      erewrite mbind_run; [|apply fetch_games_run]. by rewrite Hun.
    + unfold process_fixes.
      erewrite mbind_run; [|apply fetch_fixes_run]. by rewrite Hun.
  - assert (Forall is_log (games_log (games_feed E (length (out w))))).
    { destruct (games_feed E (length (out w))) as [|status []]; simpl;
        try destruct (status =? 200)%Z; by repeat constructor. }
    destruct f; simpl; by try constructor.
Qed.

(** C7. A pipeline that finds its source unavailable, or its snapshot
    empty, returns at once: the memory of the monitor (every seen-set, the
    destinations, the configuration file) is as before, and the trace grows
    by the request and by what the fetch prints for the operator, so
    nothing is announced and nothing is written. *)
Theorem C7_unavailable_source_changes_nothing (f : feature) (E : env)
    (w : world state) :
  unavailable f E (length (out w)) →
  cycle f E w
  = (Done tt,
     World (mem w) (out w ++ HttpGet (feed_url f) :: fetch_log f E (length (out w))))
  ∧ Forall is_log (fetch_log f E (length (out w))).
Proof. apply cycle_unavailable. Qed.

(** A whole cycle of the game monitor with both sources unavailable. *)
Lemma monitor_loop_unavailable (E : env) (w : world state) :
  (∀ t, games_snapshot (games_feed E t) = []) →
  (∀ t, fixes_snapshot (fixes_page E t) = []) →
  ∃ log, monitor_loop E w = (Done tt, World (mem w) (out w ++ log))
         ∧ Forall (λ ev, match ev with HttpGet _ | Print _ => True | _ => False end) log.
Proof.
  intros Hg Hf. unfold monitor_loop, check_for_new_games, try_except.
  destruct (cycle_unavailable NEW_GAMES E w (Hg _)) as [Hrun Hlog].
  simpl in Hrun. erewrite mbind_run; [|exact Hrun]. simpl.
  set (w1 := World _ _).
  destruct (cycle_unavailable FIXED_GAMES E w1 (Hf _)) as [Hrun' _].
  simpl in Hrun'. rewrite Hrun'. simpl.
  eexists. rewrite <- app_assoc. split; [done|].
  apply Forall_app. split; [|by repeat constructor].
  constructor; [done|]. eapply Forall_impl; [exact Hlog|]. by intros [].
Qed.


Section FixesClaims.

Lemma fix_of_block_skipped b :
  ¬ has_title b → ¬ has_link b → fix_of_block b = None.
Proof.
  unfold has_title, has_link, fix_of_block, block_title, nonempty.
  intros Ht Hl.
  assert (match href_m b with
          | Some h => if negb (bool_decide (h = "")) then Some (title_from_href h) else None
          | None => None
          end = None) as ->.
  { destruct (href_m b) as [h|]; [|done]. case_bool_decide; [done|].
    exfalso. apply Hl. eauto. }
  destruct (name_m b) as [n|]; simpl; [|done].
  case_bool_decide; [done|]. exfalso. apply Ht. eauto.
Qed.

Lemma fix_of_block_titled b n :
  name_m b = Some n → Text.strip n ≠ "" →
  fix_of_block b
  = Some (mkFix (Text.strip (strip_extension (Text.strip n)))
            (default "" (match href_m b with
                         | Some h => if Text.is_prefix "/" h then Some (SITE +:+ h) else Some h
                         | None => None
                         end))
            (default "" (Text.strip <$> size_m b))).
Proof.
  intros Hn Hne. unfold fix_of_block, block_title, nonempty. rewrite Hn. simpl.
  by rewrite (bool_decide_eq_false_2 _ Hne).
Qed.

Lemma fix_of_block_linked b h :
  ¬ has_title b → href_m b = Some h → h ≠ "" →
  fix_of_block b
  = Some (mkFix (title_from_href h)
            (if Text.is_prefix "/" h then SITE +:+ h else h)
            (default "" (Text.strip <$> size_m b))).
Proof.
  intros Ht Hh Hne. unfold fix_of_block, block_title, nonempty. rewrite Hh.
  rewrite (bool_decide_eq_false_2 _ Hne). cbn [negb].
  destruct (name_m b) as [n|] eqn:Hn; cbn [fmap option_fmap option_map].
  - case_bool_decide as Hs; cbn [negb].
    + by destruct (Text.is_prefix "/" h).
    + exfalso. apply Ht. by exists n.
  - by destruct (Text.is_prefix "/" h).
Qed.

Lemma fix_of_block_kept b :
  has_title b ∨ has_link b → ∃ item, fix_of_block b = Some item.
Proof.
  destruct (name_m b) as [n|] eqn:Hn.
  - destruct (decide (Text.strip n = "")) as [Hs|Hs].
    + intros [(n' & Hn' & Hs')|(h & Hh & Hne)].
      * rewrite Hn in Hn'. by injection Hn' as <-.
      * eexists. apply (fix_of_block_linked b h); [|done..].
        intros (n' & Hn' & Hs'). rewrite Hn in Hn'. by injection Hn' as <-.
    + intros _. eexists. by apply (fix_of_block_titled b n).
  - intros [(n' & Hn' & _)|(h & Hh & Hne)]; [by rewrite Hn in Hn'|].
    eexists. apply (fix_of_block_linked b h); [|done..].
    intros (n' & Hn' & _). by rewrite Hn in Hn'.
Qed.

Lemma dedupe_keeps_fresh seen l1 x l2 :
  fix_title x ∉ seen →
  fix_title x ∉ map fix_title l1 →
  x ∈ dedupe seen (l1 ++ x :: l2).
Proof.
  revert seen. induction l1 as [|y l1 IH]; intros seen Hseen Hl1; simpl.
  - rewrite (bool_decide_eq_false_2 _ Hseen). by left.
  - apply not_elem_of_cons in Hl1 as [Hy Hl1].
    case_bool_decide; [by apply IH|].
    right. apply IH; [|done]. set_solver.
Qed.

Lemma dedupe_sublist seen l : sublist (dedupe seen l) l.
Proof.
  revert seen. induction l as [|x l IH]; intros seen; simpl; [done|].
  case_bool_decide; [by apply sublist_cons | by apply sublist_skip].
Qed.

End FixesClaims.

(** C8, amended. In the page parsed by [fetch_fixes], a block yields no
    item exactly when it has neither a title nor a link (the result is
    then that of the page without the block).  A block with a title and no
    link yields an item whose link is empty, and a block with a link and
    no title yields an item titled after the last segment of the link.  A
    block with a title and no size yields an item whose size is the empty
    string; that item is in the result unless an earlier block has already
    given its title. *)
Theorem C8_fixes_blocks_skipped_or_sized (before after : list block) (b : block) :
  (fix_of_block b = None ↔ ¬ has_title b ∧ ¬ has_link b)
  ∧ (fix_of_block b = None →
     fetched_fixes (before ++ b :: after) = fetched_fixes (before ++ after))
  ∧ (has_title b → ¬ has_link b →
     ∃ item, fix_of_block b = Some item ∧ fix_download item = "")
  ∧ (¬ has_title b → has_link b →
     ∃ h item, href_m b = Some h ∧ fix_of_block b = Some item
               ∧ fix_title item = title_from_href h)
  ∧ (has_title b → size_m b = None →
     ∃ item,
       fix_of_block b = Some item
       ∧ fix_size item = ""
       ∧ extract (before ++ b :: after) = extract before ++ item :: extract after
       ∧ (fix_title item ∉ map fix_title (extract before) →
          item ∈ fetched_fixes (before ++ b :: after))).
Proof.
  split_and!.
  - split.
    + intros Hnone. split; intros H;
        (destruct (fix_of_block_kept b) as [item Hitem]; [auto|]);
        by rewrite Hitem in Hnone.
    + intros [Ht Hl]. by apply fix_of_block_skipped.
  - intros Hb. unfold fetched_fixes, fixes_snapshot, extract. simpl.
    rewrite !omap_app. simpl. by rewrite Hb.
  - intros (n & Hn & Hne) Hl.
    eexists. split; [by apply (fix_of_block_titled b n)|]. cbn [fix_download].
    destruct (href_m b) as [h|] eqn:Hh; [|done].
    destruct (decide (h = "")) as [->|Hh']; [done|].
    exfalso. apply Hl. by exists h.
  - intros Ht (h & Hh & Hne). exists h. eexists.
    split; [done|]. split; [by apply (fix_of_block_linked b h)|]. done.
  - unfold fetched_fixes, fixes_snapshot, extract. simpl.
    intros (n & Hn & Hne) Hsize.
    pose proof (fix_of_block_titled b n Hn Hne) as Hb.
    rewrite Hsize in Hb.
    change (default "" (Text.strip <$> None)) with "" in Hb.
    set (item := mkFix _ _ "") in Hb.
    exists item. split; [exact Hb|]. split; [done|].
    rewrite omap_app. cbn [omap list_omap]. rewrite Hb.
    split; [done|]. intros Hfresh.
    apply dedupe_keeps_fresh; [set_solver | done].
Qed.

Section CommandRuns.
Context {St : Type}.

Lemma defer_run (E : env) (w : world St) :
  interaction_defer E (length (out w)) = None →
  defer E w = (Done tt, World (mem w) (out w ++ [Defer None])).
Proof.
  intros H. unfold defer, mbind, M_bind, bind, now, emit, mret, M_ret, ret. simpl.
  by rewrite H.
Qed.

Lemma followup_run (E : env) p eph (w : world St) :
  followup E p eph w
  = (followup_send E (length (out w)) p,
     World (mem w) (out w ++ [Followup p eph (followup_send E (length (out w)) p)])).
Proof.
  unfold followup, mbind, M_bind, bind, now, emit, lift. simpl.
  by destruct (followup_send E (length (out w)) p).
Qed.

Lemma fetch_message_run (E : env) msg (w : world St) :
  message_fetch E (length (out w)) msg = None →
  fetch_message E msg w = (Done msg, World (mem w) (out w ++ [MessageFetch msg None])).
Proof.
  intros H. unfold fetch_message, mbind, M_bind, bind, now, emit, mret, M_ret, ret.
  simpl. by rewrite H.
Qed.

Lemma edit_pages_run (E : env) msg (pages : list Embed) (w : world St) :
  ∃ evs, for_each pages (edit_page E msg) w = (Done tt, World (mem w) (out w ++ evs))
         ∧ edits msg pages evs.
Proof.
  revert w. induction pages as [|e pages IH]; intros w; simpl.
  - exists []. rewrite app_nil_r. split; [by destruct w | constructor].
  - unfold bind at 1, edit_page at 1, mbind, M_bind, bind, now, emit, mret, M_ret, ret.
    simpl.
    destruct (message_edit E _ msg e) as [x|] eqn:Hr; simpl;
      match goal with
      | |- ∃ _, for_each _ _ ?w1 = _ ∧ _ => destruct (IH w1) as (evs & Hrun & Hed)
      end.
    + exists (Sleep 2 :: MessageEdit msg e (Some x) :: edit_report (Some x) ++ evs).
      split; [|by constructor].
      rewrite Hrun. simpl. by rewrite <- !app_assoc.
    + exists (Sleep 2 :: MessageEdit msg e None :: edit_report None ++ evs).
      split; [|by constructor].
      rewrite Hrun. simpl. by rewrite <- !app_assoc.
Qed.

Lemma format_games_length games formatted :
  format_games games = Done formatted → length formatted = length games.
Proof.
  revert formatted. induction games as [|g games IH]; intros formatted; simpl.
  - by intros [= <-].
  - destruct (format_line g) as [line|]; simpl; [|done].
    destruct (format_games games) as [lines|]; simpl; [|done].
    intros [= <-]. simpl. by rewrite (IH lines).
Qed.

Lemma page_embeds_length total formatted :
  length (page_embeds total formatted) = (length formatted + 79) / 80.
Proof.
  unfold page_embeds, chunks, range_step.
  rewrite length_imap, !length_map, length_seq. f_equal. lia.
Qed.

End CommandRuns.

(** C9. When the platform accepts the deferral, the follow-up and the
    fetch of the message, a listing of a non-empty snapshot sends one new
    message, the first page, and delivers every other page by a pause of
    two seconds followed by an edit of that same message; there are as many
    pages as groups of 80 games. *)
Theorem C9_gamelist_edits_one_message (E : env) (w : world state) games formatted :
  accepts_deferrals E →
  accepts_followups E →
  (∀ t m, message_fetch E t m = None) →
  served E w = games →
  games ≠ [] →
  format_games games = Done formatted →
  ∃ msg first others evs,
    page_embeds (length games) formatted = first :: others
    ∧ S (length others) = (length games + 79) / 80
    ∧ gamelist E w
      = (Done tt,
         World (mem w)
           (out w ++ Defer None :: HttpGet GAMES_JSON_URL
              :: Followup (Rich first) false (Done msg)
              :: MessageFetch msg None :: evs))
    ∧ edits msg others evs.
Proof.
  intros Hdefer Hfollow Hfetch Hgames Hne Hformat.
  unfold gamelist.
  erewrite mbind_run; [|by apply defer_run]. cbv beta iota.
  erewrite mbind_run; [|apply fetch_games_run]. cbn [mem out].
  rewrite length_app, Nat.add_1_r. unfold served in Hgames. rewrite Hgames.
  rewrite games_log_snapshot by by rewrite Hgames.
  destruct games as [|g gs]; [done|].
  erewrite mbind_run; [|unfold lift; by rewrite Hformat]. cbv beta iota.
  pose proof (page_embeds_length (length (g :: gs)) formatted) as Hlen.
  rewrite (format_games_length _ _ Hformat) in Hlen.
  destruct (page_embeds (length (g :: gs)) formatted) as [|first others] eqn:Hpages.
  { exfalso. cbn [length] in Hlen.
    assert (1 ≤ (S (length gs) + 79) / 80)%nat by (apply Nat.div_le_lower_bound; lia).
    lia. }
  erewrite mbind_run; [|apply followup_run]. cbn [mem out].
  destruct (Hfollow (length ((out w ++ [Defer None]) ++ [HttpGet GAMES_JSON_URL]))
              (Rich first)) as [msg Hmsg].
  rewrite Hmsg.
  erewrite mbind_run; [|by apply fetch_message_run]. cbn [mem out].
  match goal with
  | |- ∃ _ _ _ _, _ ∧ _ ∧ for_each others (edit_page E msg) ?w1 = _ ∧ _ =>
      destruct (edit_pages_run E msg others w1) as (evs & Hrun & Hed)
  end.
  exists msg, first, others, evs. split_and!; [done | exact Hlen | | done].
  rewrite Hrun. cbn [mem out]. f_equal. f_equal. by rewrite <- !app_assoc.
Qed.

Section PeekRuns.

Lemma scan_games_list_keys games ks0 m0 ks mapping :
  scan_games_list games ks0 m0 = Done (ks, mapping) →
  (∀ k, k ∈ ks0 → ∃ e, m0 !! k = Some e ∧ e_name e = k) →
  (∃ new, ks = ks0 ++ new ∧ Forall2 (λ g k, game_key g = Done k) games new)
  ∧ (∀ k, k ∈ ks → ∃ e, mapping !! k = Some e ∧ e_name e = k).
Proof.
  revert ks0 m0. induction games as [|g games IH]; intros ks0 m0 Hscan Hinv;
    simpl in Hscan.
  - injection Hscan as <- <-. split; [|done].
    exists []. rewrite app_nil_r. split; [done | constructor].
  - destruct (game_entry g) as [e|x] eqn:He; [|done]. simpl in Hscan.
    destruct (IH _ _ Hscan) as [(new & -> & Hnew) Htotal].
    + intros k Hk. destruct (decide (k = e_name e)) as [->|Hne].
      * exists e. by rewrite lookup_insert_eq.
      * rewrite lookup_insert_ne by done. apply Hinv. set_solver.
    + split; [|done]. exists (e_name e :: new). rewrite <- app_assoc. split; [done|].
      constructor; [|done]. apply game_key_entry. eauto.
Qed.

(** The loop of [newgame] over the keys it shows. *)
Lemma show_loop_run (E : env) (mapping : gmap string entry) (keys : list string)
    (w : world state) :
  accepts_followups E →
  (∀ k, k ∈ keys → ∃ e, mapping !! k = Some e ∧ e_name e = k) →
  ∃ shown,
    for_each keys (λ k,
      match mapping !! k with
      | None => raise (Exn OtherError "'NoneType' object is not subscriptable")
      | Some e =>
          followup E (Rich (make_game_embed (e_name e) (e_appid e) (e_img e) "NEW"))
            false;;
          mret tt
      end) w
    = (Done tt, World (mem w) (out w ++ shown))
    ∧ Forall2 (λ k ev, ∃ e m, mapping !! k = Some e
                              ∧ ev = Followup
                                       (Rich (make_game_embed k (e_appid e) (e_img e) "NEW"))
                                       false (Done m))
        keys shown.
Proof.
  intros Hfollow. revert w. induction keys as [|k keys IH]; intros w Hkeys; simpl.
  - exists []. rewrite app_nil_r. split; [by destruct w | constructor].
  - destruct (Hkeys k) as (e & He & Hname); [by left|].
    unfold bind at 1. rewrite He.
    erewrite mbind_run; [|apply followup_run].
    destruct (Hfollow (length (out w))
                (Rich (make_game_embed (e_name e) (e_appid e) (e_img e) "NEW")))
      as [m Hm].
    rewrite Hm. cbn [mret M_ret ret].
    match goal with
    | |- ∃ _, for_each _ _ ?w1 = _ ∧ _ =>
        destruct (IH w1) as (shown & Hrun & Hshown)
    end.
    { intros k' Hk'. apply Hkeys. by right. }
    eexists (_ :: shown). split.
    + rewrite Hrun. cbn [mem out]. by rewrite <- app_assoc.
    + constructor; [|done]. exists e, m. split; [done | by rewrite Hname].
Qed.

End PeekRuns.

(** C10. When the platform accepts the deferral and the follow-ups,
    [newgame] on a snapshot with unseen keys shows the first ten unseen keys
    in the order of the snapshot (the keys follow the games one by one, not
    sorted), one embed each, and when there are more than ten it ends with
    one line giving their total number; the other unseen games are not
    shown, and the memory of the monitor is unchanged. *)
Theorem C10_newgame_shows_first_ten (E : env) (w : world state)
    games current_keys mapping :
  accepts_deferrals E →
  accepts_followups E →
  served E w = games →
  scan_games_list games [] ∅ = Done (current_keys, mapping) →
  let new_keys := filter (λ k, k ∉ seen_new (mem w)) current_keys in
  new_keys ≠ [] →
  Forall2 (λ g k, game_key g = Done k) games current_keys
  ∧ ∃ shown tail,
      newgame E w
      = (Done tt,
         World (mem w)
           (out w ++ Defer None :: HttpGet GAMES_JSON_URL :: shown ++ tail))
      ∧ Forall2 (λ k ev, ∃ e m, mapping !! k = Some e
                                ∧ ev = Followup
                                         (Rich (make_game_embed k (e_appid e) (e_img e)
                                                  "NEW"))
                                         false (Done m))
          (take 10 new_keys) shown
      ∧ if Nat.ltb 10 (length new_keys)
        then ∃ m, tail = [Followup (Content (count_line (length new_keys))) true (Done m)]
        else tail = [].
Proof.
  intros Hdefer Hfollow Hgames Hscan new_keys Hnew.
  destruct (scan_games_list_keys _ _ _ _ _ Hscan) as [(new & -> & Hkeys) Htotal].
  { intros k Hk. by apply elem_of_nil in Hk. }
  simpl in *. split; [done|].
  assert (games ≠ []) as Hne.
  { intros ->. apply Forall2_nil_inv_l in Hkeys as ->. by apply Hnew. }
  unfold newgame.
  erewrite mbind_run; [|by apply defer_run]. cbv beta iota.
  erewrite mbind_run; [|apply fetch_games_run]. cbn [mem out].
  rewrite length_app, Nat.add_1_r. unfold served in Hgames. rewrite Hgames.
  rewrite games_log_snapshot by by rewrite Hgames.
  destruct games as [|g gs]; [done|].
  erewrite mbind_run; [|unfold lift; by rewrite Hscan]. cbv beta iota.
  erewrite mbind_run; [|reflexivity]. cbv beta iota. cbn [mem out].
  fold new_keys.
  destruct new_keys as [|k0 ks0] eqn:Hnk; [done|]. rewrite <- Hnk in *.
  match goal with
  | |- ∃ _ _, (for_each _ ?body ≫= _) ?w1 = _ ∧ _ =>
      destruct (show_loop_run E mapping (take 10 new_keys) w1 Hfollow)
        as (shown & Hrun & Hshown)
  end.
  { intros k Hk. apply Htotal. apply elem_of_take in Hk as (i & Hk & _).
    apply list_elem_of_lookup_2 in Hk. subst new_keys.
    by apply list_elem_of_filter in Hk as [_ Hk]. }
  erewrite mbind_run; [|exact Hrun]. cbv beta iota. cbn [mem out].
  destruct (Nat.ltb 10 (length new_keys)) eqn:Hmore.
  - erewrite mbind_run; [|apply followup_run]. cbn [mem out].
    match goal with
    | |- context [followup_send E ?t ?p] => destruct (Hfollow t p) as [m Hm]; rewrite Hm
    end.
    exists shown, [Followup (Content (count_line (length new_keys))) true (Done m)].
    split_and!; [|done|by exists m].
    cbn [mret M_ret ret]. f_equal. f_equal. by rewrite <- !app_assoc.
  - exists shown, []. split_and!; [|done..].
    cbn [mret M_ret ret]. f_equal. f_equal. rewrite app_nil_r. by rewrite <- !app_assoc.
Qed.

Section CycleEvents.

Lemma delivers_events ch posts evs :
  delivers ch posts evs →
  Forall (λ ev, match ev with
                | Print _ | FetchChannel _ _ => True
                | ChannelSend _ e _ => e ∈ posts
                | _ => False
                end) evs.
Proof.
  induction 1 as [|e posts g evs Hg _ IH]; [constructor|].
  apply Forall_app. split.
  - destruct Hg as [r|r|]; repeat constructor; destruct r; repeat constructor.
  - eapply Forall_impl; [exact IH|]. intros [] ?; try done. by right.
Qed.

Lemma cycle_event_weaken (E : env) lo hi lo' hi' ev :
  (lo' ≤ lo)%nat → (hi ≤ hi')%nat →
  cycle_event E lo hi ev → cycle_event E lo' hi' ev.
Proof.
  intros Hlo Hhi. destruct ev; simpl; try done.
  intros (t & Ht & Hr). exists t. split; [lia | done].
Qed.

Lemma feed_trace_events (E : env) t channel_id posts evs :
  feed_trace channel_id posts evs →
  (∀ e, e ∈ posts → renders_game E t e ∨ renders_fix E t e) →
  Forall (cycle_event E t (S t)) evs.
Proof.
  unfold feed_trace. intros Htr Hposts.
  destruct (channel_set channel_id) as [ch|]; [|by subst].
  eapply Forall_impl; [by apply (delivers_events ch posts)|].
  intros [] ?; simpl; try done. exists t. split; [lia | by apply Hposts].
Qed.

Lemma game_posts_render (E : env) t keys mapping kind (ks : list string) :
  kind ∈ ["NEW"; "UPDATED"] →
  scan_games (games_snapshot (games_feed E t)) ∅ ∅ = Done (keys, mapping) →
  ∀ e, e ∈ omap (game_post mapping kind) ks → renders_game E t e ∨ renders_fix E t e.
Proof.
  intros Hkind Hscan e He. left.
  apply list_elem_of_omap in He as (k & _ & Hk).
  unfold game_post in Hk. destruct (mapping !! k) as [en|] eqn:Hen; [|done].
  injection Hk as <-.
  destruct (scan_games_mapping _ _ _ _ _ Hscan k en Hen) as [Hm|(g & Hg & Hge & _)].
  - by rewrite lookup_empty in Hm.
  - by exists g, en, kind.
Qed.

Lemma scan_fixes_mapping fixes ks m titles mapping :
  scan_fixes fixes ks m = (titles, mapping) →
  ∀ k e, mapping !! k = Some e →
         m !! k = Some e
         ∨ ∃ f, f ∈ fixes
                ∧ e = mkFix (Text.strip (fix_title f)) (fix_download f) (fix_size f).
Proof.
  revert ks m. induction fixes as [|f fixes IH]; intros ks m Hscan k e Hk;
    simpl in Hscan.
  - injection Hscan as <- <-. auto.
  - destruct (nonempty (Text.strip (fix_title f))).
    + destruct (IH _ _ Hscan k e Hk) as [Hm|(f' & Hf' & ?)].
      * apply lookup_insert_Some in Hm as [[<- <-]|[_ Hm]]; [|auto].
        right. exists f. split; [by left | done].
      * right. exists f'. split; [by right | done].
    + destruct (IH _ _ Hscan k e Hk) as [Hm|(f' & Hf' & ?)]; [auto|].
      right. exists f'. split; [by right | done].
Qed.

(** The events of a pipeline after its request: every message renders an
    item the request was served. *)
Lemma games_pipeline_events (E : env) (w : world state) :
  let t := length (out w) in
  ∃ evs, out (process_games_new_updated E w).2 = out w ++ HttpGet GAMES_JSON_URL :: evs
         ∧ Forall (cycle_event E t (S t)) evs.
Proof.
  intros t.
  destruct (games_snapshot (games_feed E (length (out w)))) as [|g gs] eqn:Hgames.
  { destruct (cycle_unavailable NEW_GAMES E w Hgames) as [Hrun Hlog].
    simpl in Hrun. rewrite Hrun. eexists. split; [done|].
    eapply Forall_impl; [exact Hlog|]. by intros []. }
  destruct (scan_games (g :: gs) ∅ ∅) as [[keys mapping]|x] eqn:Hscan.
  - rewrite <- Hgames in Hscan.
    destruct (process_games_run E w keys mapping) as (evs_new & evs_upd & Hn & Hu & Hrun);
      [by rewrite Hgames | done |].
    pose proof (feed_trace_events E t _ _ _ Hn
                  (game_posts_render E _ _ _ "NEW" _ ltac:(set_solver) Hscan)) as Hen.
    pose proof (feed_trace_events E t _ _ _ Hu
                  (game_posts_render E _ _ _ "UPDATED" _ ltac:(set_solver) Hscan)) as Heu.
    rewrite Hrun.
    destruct (is_empty _ && is_empty _); simpl; eexists; (split; [done|]);
      rewrite ?Forall_app; split_and?; try done.
    by repeat constructor.
  - exists []. split; [|constructor].
    unfold process_games_new_updated.
    erewrite mbind_run; [|apply fetch_games_run].
    rewrite games_log_snapshot by by rewrite Hgames.
    rewrite Hgames. unfold mbind, M_bind, bind, lift. by rewrite Hscan.
Qed.

Lemma fixes_pipeline_events (E : env) (w : world state) :
  let t := length (out w) in
  ∃ evs, out (process_fixes E w).2 = out w ++ HttpGet FIXES_PAGE_URL :: evs
         ∧ Forall (cycle_event E t (S t)) evs.
Proof.
  intros t.
  destruct (fixes_snapshot (fixes_page E (length (out w)))) as [|f fs] eqn:Hfixes.
  { destruct (cycle_unavailable FIXED_GAMES E w Hfixes) as [Hrun _].
    simpl in Hrun. rewrite Hrun. eexists. split; [done|]. constructor. }
  destruct (scan_fixes (f :: fs) ∅ ∅) as [titles mapping] eqn:Hscan.
  rewrite <- Hfixes in Hscan.
  destruct (process_fixes_run E w titles mapping) as (evs & Htr & Hrun);
    [by rewrite Hfixes | done |].
  assert (Forall (cycle_event E t (S t)) evs) as Hevs.
  { apply (feed_trace_events E t _ _ _ Htr). intros e He. right.
    apply list_elem_of_omap in He as (k & _ & Hk).
    unfold fix_post in Hk. destruct (mapping !! k) as [it|] eqn:Hit; [|done].
    injection Hk as <-.
    destruct (scan_fixes_mapping _ _ _ _ _ Hscan k it Hit) as [Hm|(f' & Hf' & ->)].
    - by rewrite lookup_empty in Hm.
    - by exists f'. }
  rewrite Hrun.
  destruct (is_empty _); simpl; eexists; (split; [done|]);
    rewrite ?Forall_app; split_and?; try done.
  by repeat constructor.
Qed.

Lemma monitor_loop_events (E : env) (w : world state) :
  ∃ evs, out (monitor_loop E w).2 = out w ++ evs
         ∧ Forall (cycle_event E (length (out w)) (length (out w ++ evs))) evs.
Proof.
  unfold monitor_loop, check_for_new_games, try_except, mbind, M_bind, bind.
  destruct (games_pipeline_events E w) as (evs1 & Hout1 & Hevs1).
  destruct (process_games_new_updated E w) as [[[]|x] w1]; simpl in *.
  - destruct (fixes_pipeline_events E w1) as (evs2 & Hout2 & Hevs2).
    rewrite Hout1 in Hevs2.
    destruct (process_fixes E w1) as [[[]|x] w2]; simpl in *.
    + exists (HttpGet GAMES_JSON_URL :: evs1 ++ HttpGet FIXES_PAGE_URL :: evs2).
      rewrite Hout2, Hout1, <- app_assoc. split; [done|].
      constructor; [done|]. apply Forall_app. split; [|constructor; [done|]].
      * eapply Forall_impl; [exact Hevs1|]. intros ev.
        apply cycle_event_weaken; [lia|]. rewrite length_app. simpl. lia.
      * eapply Forall_impl; [exact Hevs2|]. intros ev.
        apply cycle_event_weaken; rewrite !length_app; simpl; rewrite ?length_app;
          simpl; lia.
    + exists (HttpGet GAMES_JSON_URL :: evs1 ++ HttpGet FIXES_PAGE_URL :: evs2
                ++ [Print ("[ERROR] Monitor loop exception: " +:+ exn_text x)]).
      rewrite Hout2, Hout1, <- !app_assoc. split; [done|].
      constructor; [done|]. apply Forall_app. split; [|constructor; [done|]].
      * eapply Forall_impl; [exact Hevs1|]. intros ev.
        apply cycle_event_weaken; [lia|]. rewrite length_app. simpl. lia.
      * apply Forall_app. split; [|by repeat constructor].
        eapply Forall_impl; [exact Hevs2|]. intros ev.
        apply cycle_event_weaken; rewrite !length_app; simpl; rewrite ?length_app;
          simpl; lia.
  - exists (HttpGet GAMES_JSON_URL :: evs1
              ++ [Print ("[ERROR] Monitor loop exception: " +:+ exn_text x)]).
    rewrite Hout1, <- app_assoc. split; [done|].
    constructor; [done|]. apply Forall_app. split; [|by repeat constructor].
    eapply Forall_impl; [exact Hevs1|]. intros ev.
    apply cycle_event_weaken; [lia|]. rewrite length_app. simpl. lia.
Qed.

Lemma monitor_loop_returns (E : env) (w : world state) :
  (monitor_loop E w).1 = Done tt.
Proof.
  unfold monitor_loop, try_except.
  by destruct (check_for_new_games E w) as [[[]|x] w'].
Qed.

End CycleEvents.

Section StatusRuns.
Import StatusBot.
Context {St : Type}.

Lemma fetch_status_respects (E : env) : respects (=) any_event (fetch_status (St:=St) E).
Proof. unfold fetch_status. frame_with (@eq St). Qed.

Lemma countdown_respects (E : env) ch msg embed remaining :
  respects (=) any_event (countdown (St:=St) E ch msg embed remaining).
Proof.
  revert embed. induction remaining as [|n IH]; intros embed; simpl.
  - apply (respects_ret (=)).
  - frame_with (@eq St). apply IH.
Qed.

Lemma fetch_status_failed (E : env) (w : world St) x :
  status_page E (length (out w)) = StatusFailed x →
  fetch_status E w
  = (Done ("❌ Error fetching status: " +:+ exn_text x),
     World (mem w) (out w ++ [HttpGet STATUS_URL])).
Proof.
  intros H. unfold fetch_status, mbind, M_bind, bind, now, emit. simpl.
  by rewrite H.
Qed.

(** A failed fetch of the status page is what the first message shows. *)
Lemma send_visual_status_failed (E : env) ch (w : world St) x :
  channel_cached E (length (out w)) ch = true →
  status_page E (length (out w)) = StatusFailed x →
  ∃ embed r rest,
    out (send_visual_status E ch w).2
    = out w ++ HttpGet STATUS_URL :: ChannelSend ch embed r :: rest
    ∧ description embed = "❌ Error fetching status: " +:+ exn_text x.
Proof.
  intros Hcached Hfailed. unfold send_visual_status.
  erewrite mbind_run; [|reflexivity]. cbv beta iota. rewrite Hcached. cbn [negb].
  erewrite mbind_run; [|by apply fetch_status_failed]. cbv beta iota.
  erewrite mbind_run; [|reflexivity]. cbv beta iota. cbn [mem out].
  erewrite mbind_run; [|reflexivity]. cbv beta iota. cbn [mem out].
  match goal with
  | |- context [out (?c ?w2).2] =>
      assert (respects (=) any_event c) as Hc;
      [|destruct (Hc w2) as (rest & Hout & _ & _)]
  end.
  { apply (respects_bind (=)); [apply (respects_lift (=)) | intros msg].
    apply (respects_bind (=)); [apply countdown_respects | intros [finished embed']].
    destruct finished; simpl; [|apply (respects_ret (=))].
    apply (respects_bind (=)); [apply fetch_status_respects | intros status_msg].
    frame_with (@eq St). }
  eexists _, _, rest. rewrite Hout. cbn [out]. rewrite <- !app_assoc.
  split; reflexivity.
Qed.

Lemma fetch_status_text (E : env) (w : world St) :
  fetch_status E w
  = (Done (status_text (status_page E (length (out w)))),
     World (mem w) (out w ++ [HttpGet STATUS_URL])).
Proof.
  unfold fetch_status, status_text, mbind, M_bind, bind, now, emit.
  cbn [mem out fst snd].
  by destruct (status_page E (length (out w))) as [x|[|b bs]].
Qed.

Lemma status_message_footer (E : env) embed text :
  status_message E embed →
  status_message E (set_footer (countdown_text text) embed).
Proof. intros (Ht & Hd & _). split_and!; [done..|by eexists]. Qed.

(** The countdown shows nothing but the message it was given, with a new
    footer. *)
Lemma countdown_shows (E : env) ch msg embed n (w : world St) :
  status_message E embed →
  ∃ evs,
    out (countdown E ch msg embed n w).2 = out w ++ evs
    ∧ Forall (status_event E) evs
    ∧ mem (countdown E ch msg embed n w).2 = mem w
    ∧ ∀ finished embed',
        (countdown E ch msg embed n w).1 = Done (finished, embed') →
        status_message E embed'.
Proof.
  revert embed w. induction n as [|n IH]; intros embed w Hembed.
  - exists []. rewrite app_nil_r. split_and!; [done..|]. by intros ? ? [= _ <-].
  - cbn [countdown]. unfold mbind, M_bind, bind, now, emit. cbn [mem out fst snd].
    pose proof (status_message_footer E embed (S n) Hembed) as Hembed1.
    set (embed1 := set_footer (countdown_text (S n)) embed) in *.
    destruct (message_edit E (length (out w)) msg embed1) as [x|] eqn:Hedit;
      cbn [mem out fst snd].
    + destruct (exn_kind x); cbn [mem out fst snd raise mret M_ret ret];
        try (exists [MessageEdit msg embed1 (Some x)];
             split_and!; [done | constructor; [exact Hembed1 | constructor]
                         | done | done]).
      exists [MessageEdit msg embed1 (Some x);
              Print ("Missing permission to edit message in channel " +:+ Text.of_Z ch)].
      rewrite <- app_assoc.
      split_and!; [done | constructor; [exact Hembed1 | by repeat constructor]
                  | done |].
      by intros ? ? [= _ <-].
    + destruct (IH embed1 (World (mem w)
                             ((out w ++ [MessageEdit msg embed1 None]) ++ [Sleep 1]))
                  Hembed1) as (evs & Hout & Hevs & Hmem & Hres).
      exists (MessageEdit msg embed1 None :: Sleep 1 :: evs).
      split_and!;
        [rewrite Hout; cbn [out]; by rewrite <- !app_assoc
        | constructor; [exact Hembed1 | by constructor]
        | exact Hmem | exact Hres].
Qed.

Lemma send_visual_status_shows (E : env) ch :
  respects (=) (status_event E) (send_visual_status (St:=St) E ch).
Proof.
  intros w. unfold send_visual_status. generalize CHECK_INTERVAL. intros n.
  erewrite mbind_run; [|reflexivity]. cbv beta iota.
  destruct (channel_cached E (length (out w)) ch); cbn [negb].
  2:{ eexists [_]. split_and!; [done | by repeat constructor | done]. }
  erewrite mbind_run; [|apply fetch_status_text]. cbv beta iota.
  erewrite mbind_run; [|reflexivity]. cbv beta iota. cbn [mem out].
  set (embed := mkEmbed _ _ _ _ _).
  assert (status_message E embed) as Hembed.
  { split_and!; [done | by exists (length (out w)) | by exists n]. }
  erewrite mbind_run; [|reflexivity]. cbv beta iota. cbn [mem out].
  destruct (channel_send E _ ch embed) as [msg|x] eqn:Hsend.
  2:{ erewrite mbind_run; [|reflexivity]. cbn [mem out snd].
      eexists [_; _]. rewrite <- app_assoc.
      split_and!; [reflexivity | | done].
      constructor; [done|]. constructor; [exact Hembed | constructor]. }
  erewrite mbind_run; [|reflexivity]. cbv beta iota.
  match goal with
  | |- context [mbind _ (countdown E ch msg embed n) ?w1] =>
      destruct (countdown_shows E ch msg embed n w1 Hembed)
        as (evs & Hout & Hevs & Hmem & Hres);
      destruct (countdown E ch msg embed n w1) as [[[finished embed']|x] w2] eqn:Hrun
  end; cbn [fst snd mem out] in *.
  2:{ erewrite mbind_run; [|exact Hrun]. cbn [mem out snd].
      eexists (_ :: _ :: evs). rewrite Hout, <- !app_assoc.
      split_and!; [reflexivity | | done].
      constructor; [done|]. constructor; [exact Hembed | exact Hevs]. }
  erewrite mbind_run; [|exact Hrun]. cbv beta iota.
  specialize (Hres _ _ eq_refl).
  destruct finished; cbn [negb].
  2:{ eexists (_ :: _ :: evs). cbn [mret M_ret ret snd out mem].
      rewrite Hout, <- !app_assoc.
      split_and!; [reflexivity | | done].
      constructor; [done|]. constructor; [exact Hembed | exact Hevs]. }
  erewrite mbind_run; [|apply fetch_status_text]. cbv beta iota.
  erewrite mbind_run; [|reflexivity]. cbv beta iota. cbn [mem out].
  set (embed2 := set_footer _ (set_description _ embed')).
  assert (status_message E embed2) as Hembed2.
  { destruct Hres as (Ht & _ & _). split_and!; [done | by eexists | by eexists]. }
  erewrite mbind_run; [|reflexivity]. cbv beta iota. cbn [mem out].
  match goal with
  | |- context [message_edit E ?t msg embed2] => set (r := message_edit E t msg embed2)
  end.
  exists (HttpGet STATUS_URL :: ChannelSend ch embed (Done msg)
            :: evs ++ [HttpGet STATUS_URL; MessageEdit msg embed2 r]).
  split_and!.
  - destruct r; cbn [snd out]; rewrite Hout, <- !app_assoc; reflexivity.
  - constructor; [done|]. constructor; [exact Hembed|].
    apply Forall_app. split; [exact Hevs|].
    constructor; [done|]. constructor; [exact Hembed2 | constructor].
  - by destruct r.
Qed.

End StatusRuns.

Import Sample.

(** C4. A cycle of the game monitor never lets an error out: whatever the
    network, the platform and the file system answer, the body of
    [monitor_loop] returns normally.  A cycle of the status monitor does
    let one out: with a configured channel in which the bot may not post,
    the error raised by [channel.send] leaves the body of [status_loop]. *)
Theorem C4_status_cycle_error_escapes :
  (∀ (E : env) (w : world state), (monitor_loop E w).1 = Done tt)
  ∧ (StatusBot.status_loop (refusing_sends missing_permissions calm)
       (World [("1", 42%Z)] [])).1
    = Raised missing_permissions.
Proof. split; [apply monitor_loop_returns | vm_compute; reflexivity]. Qed.

(** C5, as stated, fails in the status domain: when the fetch of the
    status page raises "boom", the cycle posts a message whose description
    shows that text. *)
Lemma C5_status_failure_is_shown_on_chat :
  shown_on_chat "boom"
    (out (StatusBot.status_loop
            (with_status (StatusFailed (Exn OtherError "boom")) calm)
            (World [("1", 42%Z)] [])).2).
Proof.
  eexists. split.
  - apply (list_elem_of_lookup_2 _ 1). vm_compute. reflexivity.
  - vm_compute. reflexivity.
Qed.

Lemma status_loop_shows (E : env) :
  respects (=) (status_event E) (StatusBot.status_loop E).
Proof.
  unfold StatusBot.status_loop.
  apply (respects_bind (=)); [apply (respects_get (=))|]. intros config.
  apply (respects_for_each (=)). intros [guild_id channel_id] _.
  apply send_visual_status_shows.
Qed.

(** C5, amended. Every event of a cycle of the game monitor is a request,
    a line printed for the operator, a channel look-up, a write of the
    configuration or a message that renders an item served by the source
    during the cycle, as a NEW or UPDATED game or as a fix: no failure is
    reported on a chat surface.  In a cycle of the status monitor every message and every
    edit shows the text of a fetch of the status page, so the one failure
    reported on the chat is a failed fetch of that page: its text is the
    description of the message the cycle posts in the configured channel. *)
Theorem C5_failures_reach_chat_only_in_status_domain :
  (∀ (E : env) (w : world state),
     ∃ evs, out (monitor_loop E w).2 = out w ++ evs
            ∧ Forall (cycle_event E (length (out w)) (length (out w ++ evs))) evs)
  ∧ (∀ (E : env) (w : world StatusBot.state),
       ∃ evs, out (StatusBot.status_loop E w).2 = out w ++ evs
              ∧ Forall (status_event E) evs)
  ∧ (∀ (E : env) (w : world StatusBot.state) ch x,
       channel_cached E (length (out w)) ch = true →
       status_page E (length (out w)) = StatusFailed x →
       ∃ embed r rest,
         out (StatusBot.send_visual_status E ch w).2
         = out w ++ HttpGet StatusBot.STATUS_URL :: ChannelSend ch embed r :: rest
         ∧ description embed = "❌ Error fetching status: " +:+ exn_text x).
Proof.
  split; [apply monitor_loop_events|]. split.
  - intros E w. destruct (status_loop_shows E w) as (evs & ? & ? & _). by exists evs.
  - intros. by apply send_visual_status_failed.
Qed.

(** * The scenarios of the specification *)

(** Snapshot "Beta", "Alpha" with "Alpha" seen: the diff is "Beta", and
    after the cycle the seen-set holds both. *)
Example scenario_alpha_beta :
  new_feed_keys (mem w_games) keys_games = ["Beta"]
  ∧ seen_new (mem (process_games_new_updated E_games w_games).2)
    = {[ "Alpha"; "Beta" ]}.
Proof. split; [vm_compute; reflexivity|]. apply (bool_decide_unpack _). vm_compute. exact I. Qed.

(** Two blocks with the same title after the extension is removed: the
    first one wins. *)
Example scenario_same_title :
  fetched_fixes [mkBlock (Some "/a/Patch1.zip") (Some "Patch1.zip") None;
                 mkBlock (Some "/b/Patch1.rar") (Some "Patch1.RAR") (Some "3 MB")]
  = [mkFix "Patch1" "https://generator.ryuu.lol/a/Patch1.zip" ""].
Proof. vm_compute. reflexivity. Qed.

(** A title of blanks gives the synthetic name; an item that is not an
    object makes the loop raise. *)
Example scenario_synthetic_name :
  game_key (GDict {[ "title" := VStr "  "; "id" := VInt 7 ]}) = Done "Unknown Game (7)"
  ∧ game_key (GDict {[ "title" := VInt 7 ]})
    = Raised (Exn AttributeError "'int' object has no attribute 'strip'")
  ∧ game_key (GOther "list")
    = Raised (Exn AttributeError "'list' object has no attribute 'get'").
Proof. repeat split; vm_compute; reflexivity. Qed.

(** The peek keeps the order of the snapshot, which is not sorted. *)
Example scenario_peek_order :
  take 3 keys_dozen = ["Beta"; "Alpha"; "Game 1"].
Proof. vm_compute. reflexivity. Qed.

(** * The claims on sample runs *)

(** C1, as stated, fails.  With no destination for the new games the
    cycle announces nothing, although "Beta" is the key of an item of the
    snapshot and is not in the seen-set: its trace is the request and the
    write.  And a snapshot with an item that is not an object makes the
    cycle stop before it announces "Beta". *)
Lemma C1_diff_is_not_always_announced :
  ((∃ d, GDict d ∈ two_games ∧ item_key d = Some "Beta")
   ∧ "Beta" ∉ seen_new (mem w_silent)
   ∧ out (process_games_new_updated E_games w_silent).2
     = [HttpGet GAMES_JSON_URL;
        WriteConfig (config (mem (process_games_new_updated E_games w_silent).2))
          WriteOk])
  ∧ (game_key beta = Done "Beta"
     ∧ "Beta" ∉ seen_new (mem w_games)
     ∧ process_games_new_updated E_malformed w_games
       = (Raised (Exn AttributeError "'int' object has no attribute 'get'"),
          World (mem w_games) [HttpGet GAMES_JSON_URL])).
Proof.
  split; split_and!.
  - exists {[ "title" := VStr "Beta"; "appid" := VStr "2" ]}.
    split; [by left | vm_compute; reflexivity].
  - apply (bool_decide_unpack _). vm_compute. exact I.
  - vm_compute. reflexivity.
  - vm_compute. reflexivity.
  - apply (bool_decide_unpack _). vm_compute. exact I.
  - vm_compute. reflexivity.
Qed.

Lemma C1_witness :
  (∀ seen : gset string,
     (∀ k, k ∈ sorted (keys_games ∖ seen)
           ↔ (∃ d, GDict d ∈ two_games ∧ item_key d = Some k) ∧ k ∉ seen)
     ∧ StronglySorted before (sorted (keys_games ∖ seen)))
  ∧ ∃ evs_new evs_upd tail,
      out (process_games_new_updated E_games w_games).2
      = out w_games ++ HttpGet GAMES_JSON_URL :: evs_new ++ evs_upd ++ tail
      ∧ announces (Some 5%Z) "NEW" mapping_games
          (sorted (keys_games ∖ seen_new (mem w_games))) evs_new
      ∧ announces (Some 6%Z) "UPDATED" mapping_games
          (filter (λ k, k ∉ keys_games ∖ seen_new (mem w_games))
             (sorted (keys_games ∖ seen_update (mem w_games))))
          evs_upd
      ∧ Forall off_chat tail.
Proof.
  apply (proj1 (proj2 (C1_feeds_announce_the_sorted_diffs E_games w_games))
           keys_games mapping_games).
  vm_compute. reflexivity.
Defined.

(** C2, as stated, fails.  With a destination for the updated games only,
    "Beta" is in both diffs and the cycle announces it nowhere: its trace
    is the request and the write; yet both seen-sets contain it after the
    cycle. *)
Lemma C2_key_in_both_diffs_is_announced_nowhere :
  "Beta" ∈ keys_games ∖ seen_new (mem w_update_only)
  ∧ "Beta" ∈ keys_games ∖ seen_update (mem w_update_only)
  ∧ out (process_games_new_updated E_games w_update_only).2
    = [HttpGet GAMES_JSON_URL;
       WriteConfig (config (mem (process_games_new_updated E_games w_update_only).2))
         WriteOk]
  ∧ "Beta" ∈ seen_new (mem (process_games_new_updated E_games w_update_only).2)
  ∧ "Beta" ∈ seen_update (mem (process_games_new_updated E_games w_update_only).2).
Proof.
  split_and!; try (vm_compute; reflexivity);
    apply (bool_decide_unpack _); vm_compute; exact I.
Qed.

Lemma C2_witness :
  ∃ evs_new evs_upd c wr r s',
    process_games_new_updated E_games w_games
    = (r, World s' (out w_games ++ HttpGet GAMES_JSON_URL :: evs_new ++ evs_upd
                      ++ [WriteConfig c wr]))
    ∧ announces (Some 5%Z) "NEW" mapping_games
        (sorted (keys_games ∖ seen_new (mem w_games))) evs_new
    ∧ announces (Some 6%Z) "UPDATED" mapping_games
        (filter (λ k, k ∉ keys_games ∖ seen_new (mem w_games))
           (sorted (keys_games ∖ seen_update (mem w_games))))
        evs_upd
    ∧ "Beta" ∈ sorted (keys_games ∖ seen_new (mem w_games))
    ∧ (∃ e before g after,
         mapping_games !! "Beta" = Some e
         ∧ evs_new = before ++ g ++ after
         ∧ attempt 5 (make_game_embed "Beta" (e_appid e) (e_img e) "NEW") g)
    ∧ "Beta" ∉ filter (λ k, k ∉ keys_games ∖ seen_new (mem w_games))
                 (sorted (keys_games ∖ seen_update (mem w_games)))
    ∧ (∀ ev, ev ∈ evs_upd → ¬ sends_key "Beta" ev)
    ∧ "Beta" ∈ seen_new s' ∧ "Beta" ∈ seen_update s'
    ∧ "Beta" ∈ cfg_seen_new c ∧ "Beta" ∈ cfg_seen_update c
    ∧ (wr = WriteOk → r = Done tt ∧ disk s' = Stored c).
Proof.
  apply (C2_key_in_both_diffs_goes_to_the_new_feed E_games w_games two_games
           keys_games mapping_games "Beta");
    try (vm_compute; reflexivity);
    apply (bool_decide_unpack _); vm_compute; exact I.
Defined.

Lemma C3_witness :
  ∃ evs c wr r s',
    cycle FIXED_GAMES E_fixes w_games
    = (r, World s' (out w_games ++ HttpGet (feed_url FIXED_GAMES) :: evs
                      ++ [WriteConfig c wr]))
    ∧ other_feed FIXED_GAMES E_fixes w_games evs
    ∧ seen_of FIXED_GAMES s'
      = seen_of FIXED_GAMES (mem w_games) ∪ to_announce FIXED_GAMES E_fixes w_games
    ∧ (∀ k, k ∈ stored_seen FIXED_GAMES c ↔ k ∈ seen_of FIXED_GAMES s')
    ∧ (wr = WriteOk → r = Done tt ∧ disk s' = Stored c).
Proof.
  apply (C3_unset_destination_still_commits FIXED_GAMES E_fixes w_games);
    [vm_compute; reflexivity | apply (bool_decide_unpack _); vm_compute; exact I].
Defined.

Lemma C5_witness :
  ∃ embed r rest,
    out (StatusBot.send_visual_status E_status 42 w_status).2
    = out w_status ++ HttpGet StatusBot.STATUS_URL :: ChannelSend 42 embed r :: rest
    ∧ description embed = "❌ Error fetching status: " +:+ exn_text boom.
Proof.
  apply (proj2 (proj2 C5_failures_reach_chat_only_in_status_domain)
           E_status w_status 42%Z boom);
    vm_compute; reflexivity.
Defined.

Lemma C7_witness :
  cycle NEW_GAMES calm w_games
  = (Done tt,
     World (mem w_games)
       (out w_games ++ HttpGet (feed_url NEW_GAMES)
          :: fetch_log NEW_GAMES calm (length (out w_games))))
  ∧ Forall is_log (fetch_log NEW_GAMES calm (length (out w_games))).
Proof.
  apply (C7_unavailable_source_changes_nothing NEW_GAMES calm w_games).
  vm_compute. reflexivity.
Defined.

(** C8, as stated, fails.  A block that lacks only its link, or only its
    name, is not skipped: it yields an item. *)
Lemma C8_block_with_one_field_is_kept :
  (¬ has_link nolink_block
   ∧ fetched_fixes [nolink_block] = [mkFix "NoLink" "" ""])
  ∧ (¬ has_title nameless_block
     ∧ fetched_fixes [nameless_block]
       = [mkFix "Only" "https://generator.ryuu.lol/files/Only.zip" ""]).
Proof.
  split; (split; [|vm_compute; reflexivity]).
  - intros (h & Hh & _). discriminate Hh.
  - intros (n & Hn & _). discriminate Hn.
Qed.

Lemma C8_witness :
  (fix_of_block empty_block = None
   ∧ fetched_fixes ([patch_block] ++ empty_block :: [])
     = fetched_fixes ([patch_block] ++ []))
  ∧ (∃ item, fix_of_block nolink_block = Some item ∧ fix_download item = "")
  ∧ (∃ h item, href_m nameless_block = Some h
               ∧ fix_of_block nameless_block = Some item
               ∧ fix_title item = title_from_href h)
  ∧ ∃ item,
      fix_of_block patch_block = Some item
      ∧ fix_size item = ""
      ∧ extract ([] ++ patch_block :: [empty_block])
        = extract [] ++ item :: extract [empty_block]
      ∧ (fix_title item ∉ map fix_title (extract []) →
         item ∈ fetched_fixes ([] ++ patch_block :: [empty_block])).
Proof.
  assert (¬ has_title empty_block) as Hempty_t
    by (intros (n & Hn & _); discriminate Hn).
  assert (¬ has_link empty_block) as Hempty_l
    by (intros (h & Hh & _); discriminate Hh).
  assert (has_title nolink_block) as Hnolink_t
    by (exists "NoLink.zip"; split; [reflexivity | vm_compute; discriminate]).
  assert (¬ has_link nolink_block) as Hnolink_l
    by (intros (h & Hh & _); discriminate Hh).
  assert (¬ has_title nameless_block) as Hnameless_t
    by (intros (n & Hn & _); discriminate Hn).
  assert (has_link nameless_block) as Hnameless_l
    by (exists "/files/Only.zip"; split; [reflexivity | discriminate]).
  assert (has_title patch_block) as Hpatch_t
    by (exists "Patch1.zip"; split; [reflexivity | vm_compute; discriminate]).
  destruct (C8_fixes_blocks_skipped_or_sized [patch_block] [] empty_block)
    as (Hskip & Hrest & _).
  destruct (C8_fixes_blocks_skipped_or_sized [] [] nolink_block)
    as (_ & _ & Hnolink & _).
  destruct (C8_fixes_blocks_skipped_or_sized [] [] nameless_block)
    as (_ & _ & _ & Hnameless & _).
  destruct (C8_fixes_blocks_skipped_or_sized [] [empty_block] patch_block)
    as (_ & _ & _ & _ & Hsized).
  split_and!.
  - by apply Hskip.
  - apply Hrest. by apply Hskip.
  - by apply Hnolink.
  - by apply Hnameless.
  - by apply Hsized.
Defined.

Lemma C9_witness :
  ∃ msg first others evs,
    page_embeds (length many_games) lines_many = first :: others
    ∧ S (length others) = (length many_games + 79) / 80
    ∧ gamelist E_many w_games
      = (Done tt,
         World (mem w_games)
           (out w_games ++ Defer None :: HttpGet GAMES_JSON_URL
              :: Followup (Rich first) false (Done msg)
              :: MessageFetch msg None :: evs))
    ∧ edits msg others evs.
Proof.
  apply (C9_gamelist_edits_one_message E_many w_games many_games lines_many).
  - intros t. reflexivity.
  - intros t p. eexists. reflexivity.
  - intros t m. reflexivity.
  - vm_compute. reflexivity.
  - discriminate.
  - vm_compute. reflexivity.
Defined.

Lemma C10_witness :
  Forall2 (λ g k, game_key g = Done k) dozen_games keys_dozen
  ∧ ∃ shown tail,
      newgame E_dozen w_games
      = (Done tt,
         World (mem w_games)
           (out w_games ++ Defer None :: HttpGet GAMES_JSON_URL :: shown ++ tail))
      ∧ Forall2 (λ k ev, ∃ e m, mapping_dozen !! k = Some e
                                ∧ ev = Followup
                                         (Rich (make_game_embed k (e_appid e) (e_img e)
                                                  "NEW"))
                                         false (Done m))
          (take 10 (filter (λ k, k ∉ seen_new (mem w_games)) keys_dozen)) shown
      ∧ if Nat.ltb 10 (length (filter (λ k, k ∉ seen_new (mem w_games)) keys_dozen))
        then ∃ m, tail = [Followup
                            (Content (count_line
                                        (length (filter (λ k, k ∉ seen_new (mem w_games))
                                                   keys_dozen))))
                            true (Done m)]
        else tail = [].
Proof.
  apply (C10_newgame_shows_first_ten E_dozen w_games dozen_games keys_dozen mapping_dozen).
  - intros t. reflexivity.
  - intros t p. eexists. reflexivity.
  - vm_compute. reflexivity.
  - vm_compute. reflexivity.
  - vm_compute. discriminate.
Defined.

(** * Further properties of the code *)

Import Props.

(** ** Persistence *)

Section Persistence.

Lemma init_saved (s : state) :
  init (Stored (with_seen s))
  = set_disk (Stored (with_seen s)) (set_config (with_seen s) s).
Proof.
  unfold init, set_disk, set_config. simpl.
  by rewrite !list_to_set_elements_L.
Qed.

End Persistence.

(** X1. After a successful [save_config], a monitor started on the
    configuration file is in the very state the running monitor is in: the
    three seen-sets, the destinations and the stored lists are read back as
    they were written. *)
Theorem X1_restart_restores_saved_state (E : env) (w : world state) :
  config_write E (length (out w)) = WriteOk →
  let s' := mem (save_config E w).2 in
  init (disk s') = s'
  ∧ seen_new s' = seen_new (mem w)
  ∧ seen_update s' = seen_update (mem w)
  ∧ seen_fixed s' = seen_fixed (mem w)
  ∧ channel_id_new (config s') = channel_id_new (config (mem w))
  ∧ channel_id_update (config s') = channel_id_update (config (mem w))
  ∧ channel_id_fixed (config s') = channel_id_fixed (config (mem w)).
Proof.
  intros Hw. rewrite save_config_run. cbn [mem snd]. rewrite Hw.
  rewrite saved_ok. cbn [snd]. split_and!; try done.
  cbn [disk set_disk]. apply init_saved.
Qed.

(** ** Cycles of the games pipeline *)

Section MoreCycles.

Lemma feed_trace_nil channel_id evs : feed_trace channel_id [] evs → evs = [].
Proof.
  unfold feed_trace. destruct (channel_set channel_id); [|done].
  by inversion 1.
Qed.

Lemma merged_seen s new_keys update_keys :
  seen_new (merged s new_keys update_keys) = seen_new s ∪ new_keys
  ∧ seen_update (merged s new_keys update_keys) = seen_update s ∪ update_keys
  ∧ seen_fixed (merged s new_keys update_keys) = seen_fixed s.
Proof. done. Qed.

(** The memory after a cycle of the games pipeline on a non-empty,
    well-formed snapshot has the diffs in its seen-sets. *)
Lemma union_diff (X K : gset string) : X ∪ K ∖ X = X ∪ K.
Proof. by rewrite (comm_L (∪) X), difference_union_L, (comm_L (∪)). Qed.

Lemma process_games_seen (E : env) (w : world state) keys mapping :
  let games := games_snapshot (games_feed E (length (out w))) in
  games ≠ [] →
  scan_games games ∅ ∅ = Done (keys, mapping) →
  let s' := mem (process_games_new_updated E w).2 in
  seen_new s' = seen_new (mem w) ∪ keys
  ∧ seen_update s' = seen_update (mem w) ∪ keys.
Proof.
  intros games Hne Hscan s'. subst s'.
  destruct (process_games_run E w keys mapping Hne Hscan)
    as (evs_new & evs_upd & _ & _ & Hrun).
  rewrite Hrun.
  rewrite <- (union_diff (seen_new (mem w)) keys), <- (union_diff (seen_update (mem w)) keys).
  unfold is_empty.
  destruct (bool_decide (keys ∖ seen_new (mem w) = ∅)) eqn:Hn;
    destruct (bool_decide (keys ∖ seen_update (mem w) = ∅)) eqn:Hu; cbn [andb mem snd];
    try (destruct (saved_seen (config_write E (length (out w ++ HttpGet GAMES_JSON_URL
                                                        :: evs_new ++ evs_upd)))
                     (merged (mem w) (keys ∖ seen_new (mem w))
                        (keys ∖ seen_update (mem w))))
           as (-> & -> & _); done).
  apply bool_decide_eq_true in Hn, Hu. rewrite Hn, Hu.
  by rewrite !(right_id_L ∅ (∪)).
Qed.

End MoreCycles.

(** X2. Once a cycle of the games pipeline has processed a well-formed
    snapshot, a second cycle on the same snapshot only fetches it: it
    delivers nothing and writes nothing, whatever happened to the
    deliveries and to the write of the first cycle. *)
Theorem X2_second_cycle_announces_nothing (E : env) (w : world state)
    games keys mapping :
  (∀ t, games_snapshot (games_feed E t) = games) →
  games ≠ [] →
  scan_games games ∅ ∅ = Done (keys, mapping) →
  let w1 := (process_games_new_updated E w).2 in
  process_games_new_updated E w1
  = (Done tt, World (mem w1) (out w1 ++ [HttpGet GAMES_JSON_URL])).
Proof.
  intros Hfeed Hne Hscan w1.
  assert (∀ t, scan_games (games_snapshot (games_feed E t)) ∅ ∅ = Done (keys, mapping))
    as Hscan' by (intros t; by rewrite Hfeed).
  assert (∀ t, games_snapshot (games_feed E t) ≠ []) as Hne'
    by (intros t; by rewrite Hfeed).
  destruct (process_games_seen E w keys mapping (Hne' _) (Hscan' _)) as [Hsn Hsu].
  fold w1 in Hsn, Hsu.
  destruct (process_games_run E w1 keys mapping (Hne' _) (Hscan' _))
    as (evs_new & evs_upd & Hn & Hu & Hrun).
  assert (keys ∖ seen_new (mem w1) = ∅) as Hen by (rewrite Hsn; set_solver).
  assert (keys ∖ seen_update (mem w1) = ∅) as Heu by (rewrite Hsu; set_solver).
  unfold new_feed_keys in Hn. unfold update_feed_keys in Hu.
  rewrite Hen in Hn. rewrite Heu in Hu. rewrite sorted_empty in Hn, Hu.
  apply feed_trace_nil in Hn as ->. apply feed_trace_nil in Hu as ->.
  rewrite Hrun, Hen, Heu. unfold is_empty.
  rewrite !bool_decide_eq_true_2 by done. done.
Qed.

Section Duplicates.

Lemma scan_games_other games ks m keys mapping k :
  scan_games games ks m = Done (keys, mapping) →
  (∀ g, g ∈ games → game_key g ≠ Done k) →
  mapping !! k = m !! k.
Proof.
  revert ks m. induction games as [|g games IH]; intros ks m Hscan Hk; simpl in Hscan.
  - by injection Hscan as <- <-.
  - destruct (game_entry g) as [e|x] eqn:He; [|done]. simpl in Hscan.
    rewrite (IH _ _ Hscan) by (intros g' Hg'; apply Hk; by right).
    apply lookup_insert_ne. intros <-.
    apply (Hk g); [by left|]. apply game_key_entry. eauto.
Qed.

Lemma scan_games_last pre g post ks m keys mapping e :
  scan_games (pre ++ g :: post) ks m = Done (keys, mapping) →
  game_entry g = Done e →
  (∀ g', g' ∈ post → game_key g' ≠ Done (e_name e)) →
  mapping !! e_name e = Some e.
Proof.
  revert ks m. induction pre as [|g0 pre IH]; intros ks m Hscan He Hpost;
    simpl in Hscan.
  - rewrite He in Hscan. simpl in Hscan.
    rewrite (scan_games_other _ _ _ _ _ _ Hscan Hpost). apply lookup_insert_eq.
  - destruct (game_entry g0) as [e0|x]; [|done]. simpl in Hscan.
    by apply (IH _ _ Hscan).
Qed.

End Duplicates.

(** X17. When several games of a snapshot have the same name, the entry
    kept for that name is the one of the last of them: the embed posted for
    the key shows the appid and the image of the last game of that name. *)
Theorem X17_last_game_of_a_name_is_posted (pre post : list game) (g : game)
    keys mapping e kind :
  scan_games (pre ++ g :: post) ∅ ∅ = Done (keys, mapping) →
  game_entry g = Done e →
  (∀ g', g' ∈ post → game_key g' ≠ Done (e_name e)) →
  e_name e ∈ keys
  ∧ game_post mapping kind (e_name e)
    = Some (make_game_embed (e_name e) (e_appid e) (e_img e) kind).
Proof.
  intros Hscan He Hpost. split.
  - apply (scan_games_keys _ _ _ _ _ Hscan). right. exists g.
    split; [set_solver|]. apply game_key_entry. eauto.
  - unfold game_post. by rewrite (scan_games_last _ _ _ _ _ _ _ _ Hscan He Hpost).
Qed.

(** X16. When the write of the configuration fails in a cycle of the
    games pipeline that has something to commit, the error is caught and
    printed by [monitor_loop], the fixes pipeline is not run in that cycle,
    and the file is as before while the seen-sets in memory hold the diff:
    a monitor restarted on the file computes the same diff again. *)
Theorem X16_failed_write_ends_the_cycle (E : env) (w : world state)
    keys mapping e :
  scan_games (games_snapshot (games_feed E (length (out w)))) ∅ ∅ = Done (keys, mapping) →
  keys ∖ seen_new (mem w) ≠ ∅ ∨ keys ∖ seen_update (mem w) ≠ ∅ →
  (∀ t, config_write E t = OpenFails e) →
  ∃ evs_new evs_upd c s',
    monitor_loop E w
    = (Done tt,
       World s'
         (out w ++ HttpGet GAMES_JSON_URL :: evs_new ++ evs_upd
            ++ [WriteConfig c (OpenFails e);
                Print ("[ERROR] Monitor loop exception: " +:+ exn_text e)]))
    ∧ feed_trace (channel_id_new (config (mem w)))
        (omap (game_post mapping "NEW") (new_feed_keys (mem w) keys)) evs_new
    ∧ feed_trace (channel_id_update (config (mem w)))
        (omap (game_post mapping "UPDATED") (update_feed_keys (mem w) keys)) evs_upd
    ∧ disk s' = disk (mem w)
    ∧ seen_new s' = seen_new (mem w) ∪ keys
    ∧ seen_update s' = seen_update (mem w) ∪ keys.
Proof.
  intros Hscan Hdiff Hwrite.
  assert (games_snapshot (games_feed E (length (out w))) ≠ []) as Hne.
  { intros Hnil. rewrite Hnil in Hscan. injection Hscan as <- <-.
    destruct Hdiff as [H|H]; apply H; set_solver. }
  destruct (process_games_run E w keys mapping Hne Hscan)
    as (evs_new & evs_upd & Hn & Hu & Hrun).
  unfold is_empty in Hrun.
  assert (bool_decide (keys ∖ seen_new (mem w) = ∅)
          && bool_decide (keys ∖ seen_update (mem w) = ∅) = false) as Hb.
  { destruct Hdiff as [H|H]; rewrite (bool_decide_eq_false_2 _ H); [done|].
    apply andb_false_r. }
  rewrite Hb, Hwrite in Hrun. cbn [saved fst snd] in Hrun.
  eexists evs_new, evs_upd, _, _. split_and!; [|done|done|..].
  - unfold monitor_loop, check_for_new_games, try_except.
    erewrite mbind_run; [|exact Hrun]. unfold emit. cbn [mem out].
    rewrite <- app_assoc. cbn [app]. rewrite <- !app_assoc. reflexivity.
  - done.
  - cbn [seen_new set_config merged set_seen_update set_seen_new]. apply union_diff.
  - cbn [seen_update set_config merged set_seen_update set_seen_new]. apply union_diff.
Qed.

(** ** What a cycle keeps *)

Lemma respects_bind_lift {S A B} (R : relation S) `{!PreOrder R} (P : event → Prop)
    (o : outcome A) (k : A → M S B) :
  (∀ a, o = Done a → respects R P (k a)) → respects R P (lift o ≫= k).
Proof.
  intros Hk w. unfold mbind, M_bind, bind, lift. destruct o as [a|x]; simpl.
  - apply (Hk a eq_refl).
  - exists []. by rewrite app_nil_r.
Qed.

Lemma safe_send_respects {S} (E : env) channel_id e :
  respects (=) any_event (safe_send (St:=S) E channel_id e).
Proof. unfold safe_send. frame_with (@eq S). Qed.

Lemma game_key_nonempty g k : game_key g = Done k → k ≠ "".
Proof.
  intros Hk. apply game_key_entry in Hk as (e & He & <-).
  unfold game_entry in He. destruct g as [d|]; [|done]. simpl in He.
  destruct (strip_method _) as [name|]; [|done]. simpl in He.
  injection He as <-. simpl. unfold nonempty.
  case_bool_decide as Hname; simpl; [done|]. done.
Qed.

Lemma scan_fixes_titles fixes ks m titles mapping :
  scan_fixes fixes ks m = (titles, mapping) →
  ∀ k, k ∈ titles ↔ k ∈ ks ∨ (k ≠ "" ∧ ∃ f, f ∈ fixes ∧ Text.strip (fix_title f) = k).
Proof.
  revert ks m. induction fixes as [|f fixes IH]; intros ks m Hscan k; simpl in Hscan.
  - injection Hscan as <- <-. split; [auto|]. intros [?|(_ & f & Hf & _)]; [done|].
    by apply elem_of_nil in Hf.
  - unfold nonempty in Hscan. case_bool_decide as Hname; simpl in Hscan.
    + rewrite (IH _ _ Hscan k). split.
      * intros [?|(? & f' & ? & ?)]; [auto|]. right. split; [done|].
        exists f'. split; [by right | done].
      * intros [?|(Hk & f' & Hf' & Hs)]; [auto|].
        apply elem_of_cons in Hf' as [->|Hf']; [congruence|].
        right. split; [done|]. by exists f'.
    + rewrite (IH _ _ Hscan k), elem_of_union, elem_of_singleton. split.
      * intros [[->|?]|(? & f' & ? & ?)]; [|auto|].
        -- right. split; [done|]. exists f. split; [by left | done].
        -- right. split; [done|]. exists f'. split; [by right | done].
      * intros [?|(Hk & f' & Hf' & Hs)]; [auto|].
        apply elem_of_cons in Hf' as [->|Hf']; [auto|].
        right. split; [done|]. by exists f'.
Qed.

Section CycleInvariant.

Context (R : relation state) `{!PreOrder R}.
Hypothesis R_new :
  ∀ s K, "" ∉ K → R s (set_seen_new (λ seen, seen ∪ K) s).
Hypothesis R_update :
  ∀ s K, "" ∉ K → R s (set_seen_update (λ seen, seen ∪ K) s).
Hypothesis R_fixed :
  ∀ s K, "" ∉ K → R s (set_seen_fixed (λ seen, seen ∪ K) s).
Hypothesis R_config : ∀ s, R s (set_config (with_seen s) s).
Hypothesis R_disk : ∀ s d, R s (set_disk d s).

Lemma quiet_respects {A} (c : M state A) :
  respects (=) any_event c → respects R any_event c.
Proof. apply respects_weaken; [by intros ?? -> | done]. Qed.

Lemma save_config_respects (E : env) : respects R any_event (save_config E).
Proof.
  unfold save_config.
  apply (respects_bind R); [by apply (respects_modify R) | intros _].
  apply (respects_bind R); [apply (respects_get R) | intros s].
  apply (respects_bind R); [apply (respects_now R) | intros t].
  apply (respects_bind R); [by apply (respects_emit R) | intros _].
  destruct (config_write E t).
  - apply (respects_modify R). intros ?. apply R_disk.
  - apply (respects_raise R).
  - apply (respects_bind R); [|intros _; apply (respects_raise R)].
    apply (respects_modify R). intros ?. apply R_disk.
Qed.

Lemma feed_respects (keys : list string) (body : string → M state unit) :
  (∀ k, respects (=) any_event (body k)) →
  respects R any_event (for_each keys body).
Proof. intros Hbody. apply (respects_for_each R). intros k _. by apply quiet_respects. Qed.

Lemma process_games_respects (E : env) :
  respects R any_event (process_games_new_updated E).
Proof.
  unfold process_games_new_updated.
  apply (respects_bind R).
  { apply quiet_respects. by apply fetch_games_respects. }
  intros [|g gs]; [apply (respects_ret R)|].
  apply (respects_bind_lift R). intros [keys mapping] Hscan.
  assert ("" ∉ keys) as Hkeys.
  { intros Hk. apply (scan_games_keys _ _ _ _ _ Hscan) in Hk as [Hk|(g' & _ & Hk)];
      [set_solver|]. by apply game_key_nonempty in Hk. }
  apply (respects_bind R); [apply (respects_get R) | intros s].
  apply (respects_bind R).
  { destruct (_ && _); [|apply (respects_ret R)].
    apply feed_respects. intros k.
    destruct (mapping !! k); [apply safe_send_respects | apply (respects_ret (=))]. }
  intros _. apply (respects_bind R).
  { destruct (_ && _); [|apply (respects_ret R)].
    apply feed_respects. intros k.
    case_bool_decide; [apply (respects_ret (=))|].
    destruct (mapping !! k); [apply safe_send_respects | apply (respects_ret (=))]. }
  intros _. apply (respects_bind R).
  { destruct (negb _); [|apply (respects_ret R)].
    apply (respects_modify R). intros ?. apply R_new. set_solver. }
  intros _. apply (respects_bind R).
  { destruct (negb _); [|apply (respects_ret R)].
    apply (respects_modify R). intros ?. apply R_update. set_solver. }
  intros _. destruct (_ || _); [apply save_config_respects | apply (respects_ret R)].
Qed.

Lemma process_fixes_respects (E : env) : respects R any_event (process_fixes E).
Proof.
  unfold process_fixes.
  apply (respects_bind R).
  { apply quiet_respects. by apply fetch_fixes_respects. }
  intros [|f fs]; [apply (respects_ret R)|].
  destruct (scan_fixes (f :: fs) ∅ ∅) as [titles mapping] eqn:Hscan.
  assert ("" ∉ titles) as Htitles.
  { intros Hk. apply (scan_fixes_titles _ _ _ _ _ Hscan) in Hk as [Hk|(Hk & _)];
      [set_solver | done]. }
  apply (respects_bind R); [apply (respects_get R) | intros s].
  apply (respects_bind R).
  { destruct (_ && _); [|apply (respects_ret R)].
    apply feed_respects. intros k.
    destruct (mapping !! k); [apply safe_send_respects | apply (respects_ret (=))]. }
  intros _. destruct (negb _); [|apply (respects_ret R)].
  apply (respects_bind R); [|intros _; apply save_config_respects].
  apply (respects_modify R). intros ?. apply R_fixed. set_solver.
Qed.

Lemma monitor_loop_respects (E : env) : respects R any_event (monitor_loop E).
Proof.
  unfold monitor_loop, check_for_new_games.
  apply (respects_try R).
  - apply (respects_bind R); [apply process_games_respects | intros _].
    apply process_fixes_respects.
  - intros e. by apply (respects_emit R).
Qed.

End CycleInvariant.

Global Instance grows_preorder : PreOrder grows.
Proof.
  split.
  - intros s. unfold grows. done.
  - intros s1 s2 s3 (? & ? & ? & ? & ? & ?) (? & ? & ? & ? & ? & ?).
    unfold grows. split_and!; try congruence; by etrans.
Qed.

Global Instance no_empty_key_preorder : PreOrder no_empty_key.
Proof.
  split.
  - by intros s f.
  - intros s1 s2 s3 H12 H23 f Hf. by apply H12, H23.
Qed.

(** X3. A cycle of the game monitor, whatever the network, the platform
    and the file system answer, never removes a key from a seen-set and
    never changes a destination. *)
Theorem X3_cycle_only_adds_seen_keys (E : env) (w : world state) :
  grows (mem w) (mem (monitor_loop E w).2).
Proof.
  destruct (monitor_loop_respects grows) with (E := E) (w := w)
    as (_ & _ & _ & H); [..|exact H];
    try (intros s K _; unfold grows; destruct s; simpl; split_and!; set_solver);
    intros; unfold grows; by destruct s.
Qed.

(** X5. The key of a game is never the empty string, and a cycle of the
    game monitor never puts the empty string into a seen-set: a game
    without a usable name gets the synthetic name, and a fix whose title
    is blank is passed over. *)
Theorem X5_no_empty_key_is_recorded (E : env) (w : world state) (f : feature) :
  "" ∉ seen_of f (mem w) →
  (∀ g k, game_key g = Done k → k ≠ "")
  ∧ "" ∉ seen_of f (mem (monitor_loop E w).2).
Proof.
  intros Hf. split; [apply game_key_nonempty|].
  destruct (monitor_loop_respects no_empty_key) with (E := E) (w := w)
    as (_ & _ & _ & H).
  - intros s K HK [] Hin; destruct s; simpl in *; set_solver.
  - intros s K HK [] Hin; destruct s; simpl in *; set_solver.
  - intros s K HK [] Hin; destruct s; simpl in *; set_solver.
  - intros s []; by destruct s.
  - intros s d []; by destruct s.
  - intros Hin. by apply Hf, H.
Qed.

(** ** Fetching the fixes *)

Section Dedupe.

Lemma dedupe_titles seen l t :
  t ∈ map fix_title (dedupe seen l) ↔ t ∈ map fix_title l ∧ t ∉ seen.
Proof.
  revert seen. induction l as [|x l IH]; intros seen; simpl.
  - split; [intros H; by apply elem_of_nil in H | intros [H _]; by apply elem_of_nil in H].
  - case_bool_decide as Hx; simpl.
    + rewrite IH. set_solver.
    + rewrite elem_of_cons, IH. destruct (decide (t = fix_title x)) as [->|]; set_solver.
Qed.

Lemma dedupe_NoDup seen l : NoDup (map fix_title (dedupe seen l)).
Proof.
  revert seen. induction l as [|x l IH]; intros seen; simpl; [constructor|].
  case_bool_decide as Hx; simpl; [apply IH|].
  constructor; [|apply IH].
  rewrite dedupe_titles. intros [_ H]. set_solver.
Qed.

End Dedupe.

(** X4. The result of [fetch_fixes] has no two items with the same title;
    it is the list of the items the blocks yield with some items left out,
    in the same order; every title the blocks yield is kept; and the item
    kept for a title is the first one with that title. *)
Theorem X4_fetched_fixes_are_deduplicated (anchors : list block) :
  NoDup (map fix_title (fetched_fixes anchors))
  ∧ sublist (fetched_fixes anchors) (extract anchors)
  ∧ (∀ t, t ∈ map fix_title (fetched_fixes anchors) ↔ t ∈ map fix_title (extract anchors))
  ∧ (∀ pre item post,
       extract anchors = pre ++ item :: post →
       fix_title item ∉ map fix_title pre →
       item ∈ fetched_fixes anchors).
Proof.
  unfold fetched_fixes, fixes_snapshot. simpl. split_and!.
  - apply dedupe_NoDup.
  - apply dedupe_sublist.
  - intros t. rewrite dedupe_titles. set_solver.
  - intros pre item post -> Hfresh. apply dedupe_keeps_fresh; [set_solver | done].
Qed.

(** ** Delivering a batch *)

(** X6. A batch of embeds handed to [safe_send] for a configured channel
    is attempted to the end: whether the channel is found, and whether a
    send is refused or fails, each embed gets its attempt in order, the
    loop returns normally and the memory is untouched. *)
Theorem X6_failed_delivery_does_not_stop_the_batch (E : env) (St : Type)
    (w : world St) channel_id ch (posts : list Embed) :
  channel_set channel_id = Some ch →
  ∃ evs,
    for_each posts (safe_send E channel_id) w = (Done tt, World (mem w) (out w ++ evs))
    ∧ delivers ch posts evs.
Proof.
  intros Hch. revert w. induction posts as [|e posts IH]; intros w; simpl.
  - exists []. rewrite app_nil_r. split; [by destruct w | constructor].
  - unfold bind at 1.
    destruct (safe_send_run E channel_id ch e w Hch) as (g & -> & Hg).
    destruct (IH (World (mem w) (out w ++ g))) as (evs & Hrun & Hd).
    exists (g ++ evs). split; [|by constructor].
    rewrite Hrun. cbn [mem out]. by rewrite app_assoc.
Qed.

(** ** The peek commands *)

Section PeekAgrees.

Lemma scan_games_list_set games ks0 m0 :
  match scan_games_list games ks0 m0 with
  | Done (ks, m) => scan_games games (list_to_set ks0) m0 = Done (list_to_set ks, m)
  | Raised x => scan_games games (list_to_set ks0) m0 = Raised x
  end.
Proof.
  revert ks0 m0. induction games as [|g games IH]; intros ks0 m0; simpl; [done|].
  destruct (game_entry g) as [e|x]; simpl; [|done].
  specialize (IH (ks0 ++ [e_name e]) (<[e_name e:=e]> m0)).
  replace (list_to_set (ks0 ++ [e_name e]) : gset string)
    with ({[e_name e]} ∪ list_to_set ks0 : gset string) in IH; [done|].
  rewrite list_to_set_app_L. set_solver.
Qed.

End PeekAgrees.

(** X7. The peek and the automatic cycle read a snapshot alike: the loop
    of [newgame] succeeds exactly when the loop of the cycle does, with the
    same exception otherwise, it builds the same entries, and a key is
    among the unseen keys of the peek exactly when it is among the keys the
    cycle would announce on the NEW feed. *)
Theorem X7_peek_and_cycle_agree (games : list game) (s : state) :
  match scan_games_list games [] ∅ with
  | Done (current_keys, mapping) =>
      scan_games games ∅ ∅ = Done (list_to_set current_keys, mapping)
      ∧ ∀ k, k ∈ filter (λ k, k ∉ seen_new s) current_keys
             ↔ k ∈ new_feed_keys s (list_to_set current_keys)
  | Raised x => scan_games games ∅ ∅ = Raised x
  end.
Proof.
  pose proof (scan_games_list_set games [] ∅) as H.
  destruct (scan_games_list games [] ∅) as [[ks m]|x]; [|done].
  split; [done|]. intros k. unfold new_feed_keys.
  rewrite list_elem_of_filter, elem_of_sorted, elem_of_difference, elem_of_list_to_set.
  tauto.
Qed.

Section ShowFixes.

Lemma show_fixes_run (E : env) (fixes : list fix_item) (w : world state) :
  accepts_followups E →
  ∃ shown,
    for_each fixes (λ f,
      followup E (Rich (make_fix_embed (fix_title f) (fix_download f) (fix_size f)))
        false;;
      mret tt) w
    = (Done tt, World (mem w) (out w ++ shown))
    ∧ Forall2 (λ f ev, ∃ m, ev = Followup
                                    (Rich (make_fix_embed (fix_title f) (fix_download f)
                                             (fix_size f)))
                                    false (Done m))
        fixes shown.
Proof.
  intros Hfollow. revert w. induction fixes as [|f fixes IH]; intros w; simpl.
  - exists []. rewrite app_nil_r. split; [by destruct w | constructor].
  - unfold bind at 1.
    erewrite mbind_run; [|apply followup_run].
    destruct (Hfollow (length (out w))
                (Rich (make_fix_embed (fix_title f) (fix_download f) (fix_size f))))
      as [m Hm].
    rewrite Hm. cbn [mret M_ret ret].
    match goal with
    | |- ∃ _, for_each _ _ ?w1 = _ ∧ _ => destruct (IH w1) as (shown & Hrun & Hshown)
    end.
    eexists (_ :: shown). split.
    + rewrite Hrun. cbn [mem out]. by rewrite <- app_assoc.
    + constructor; [by exists m | done].
Qed.

End ShowFixes.

(** X8. When the platform accepts the deferral and the follow-ups,
    [fixegame] on a non-empty result of [fetch_fixes] shows every fetched
    fix, seen or not and in the order of the page, one public embed each,
    then one line for the user alone with their number; the memory of the
    monitor is unchanged. *)
Theorem X8_fixegame_shows_every_fix (E : env) (w : world state) fixes :
  accepts_deferrals E →
  accepts_followups E →
  fixes_snapshot (fixes_page E (S (length (out w)))) = fixes →
  fixes ≠ [] →
  ∃ shown m,
    fixegame E w
    = (Done tt,
       World (mem w)
         (out w ++ Defer None :: HttpGet FIXES_PAGE_URL :: shown
            ++ [Followup
                  (Content (glyph_check +:+ " " +:+ Text.of_nat (length fixes)
                              +:+ " fixes found " +:+ glyph_dash +:+ " all displayed."))
                  true (Done m)]))
    ∧ Forall2 (λ f ev, ∃ m', ev = Followup
                                     (Rich (make_fix_embed (fix_title f) (fix_download f)
                                              (fix_size f)))
                                     false (Done m'))
        fixes shown.
Proof.
  intros Hdefer Hfollow Hfixes Hne.
  unfold fixegame.
  erewrite mbind_run; [|by apply defer_run]. cbv beta iota.
  erewrite mbind_run; [|apply fetch_fixes_run]. cbn [mem out].
  rewrite length_app, Nat.add_1_r, Hfixes.
  destruct fixes as [|f fs] eqn:Hf; [done|]. rewrite <- Hf in *.
  match goal with
  | |- ∃ _ _, (for_each _ _ ≫= _) ?w1 = _ ∧ _ =>
      destruct (show_fixes_run E fixes w1 Hfollow) as (shown & Hrun & Hshown)
  end.
  erewrite mbind_run; [|exact Hrun]. cbv beta iota. cbn [mem out].
  erewrite mbind_run; [|apply followup_run]. cbn [mem out].
  match goal with
  | |- context [followup_send E ?t ?p] => destruct (Hfollow t p) as [m Hm]; rewrite Hm
  end.
  exists shown, m. split; [|done].
  cbn [mret M_ret ret]. f_equal. f_equal. by rewrite <- !app_assoc.
Qed.

(** ** Pages of the game list *)

Local Open Scope nat_scope.

Section Chunks.

Lemma chunks_nil : chunks [] = [].
Proof. reflexivity. Qed.

Lemma chunks_cons (l : list string) :
  l ≠ [] → chunks l = take 80 l :: chunks (drop 80 l).
Proof.
  intros Hl. unfold chunks, range_step.
  assert (0 < length l) as Hlen by (destruct l; [done | simpl; lia]).
  rewrite length_drop.
  replace ((length l + 80 - 1) / 80) with (S ((length l - 80 + 80 - 1) / 80)).
  2:{ destruct (decide (length l ≤ 80)) as [Hle|Hgt].
      - replace (length l - 80 + 80 - 1) with 79 by lia.
        change (79 / 80) with 0.
        apply Nat.div_unique with (length l - 1); lia.
      - replace (length l + 80 - 1) with ((length l - 80 + 80 - 1) + 1 * 80) by lia.
        rewrite Nat.div_add by lia. lia. }
  cbn [seq map]. change (0 * 80) with 0. rewrite drop_0. f_equal.
  rewrite <- seq_shift, !map_map. apply map_ext. intros j.
  rewrite drop_drop. by replace (S j * 80) with (80 + j * 80) by lia.
Qed.

Lemma chunks_partition (n : nat) (l : list string) :
  length l ≤ n →
  concat (chunks l) = l ∧ Forall (λ c, 1 ≤ length c ≤ 80) (chunks l).
Proof.
  revert l. induction n as [|n IH]; intros l Hn.
  - destruct l; [|simpl in Hn; lia]. split; [done | constructor].
  - destruct l as [|x l]; [split; [done | constructor]|].
    rewrite chunks_cons by done.
    destruct (IH (drop 80 (x :: l))) as [Hc Hf].
    { rewrite length_drop. simpl in *. lia. }
    split.
    + cbn [concat]. rewrite Hc. apply take_drop.
    + constructor; [|done]. rewrite length_take. cbn [length]. lia.
Qed.

End Chunks.

(** X9. The pages of the game list partition its lines: put end to end
    the groups are the list of lines, in order and with nothing lost or
    repeated, every group has between 1 and 80 lines, and there are as many
    groups as the number of lines divided by 80, rounded up. *)
Theorem X9_pages_partition_the_lines (formatted : list string) :
  concat (chunks formatted) = formatted
  ∧ Forall (λ c, 1 ≤ length c ≤ 80) (chunks formatted)
  ∧ length (chunks formatted) = (length formatted + 79) / 80.
Proof.
  destruct (chunks_partition (length formatted) formatted) as [Hc Hf]; [done|].
  split_and!; [done | done |].
  unfold chunks, range_step. rewrite !length_map, length_seq. f_equal. lia.
Qed.

(** ** Characters of a text *)

Section Characters.
Import Text.

Lemma concat_utf8_chars s : concat (utf8_chars s) = s.
Proof.
  induction s as [|c s IH]; [done|]. simpl.
  destruct (utf8_chars s) as [|g gs]; simpl in *; [by rewrite <- IH|].
  destruct (starts_with_continuation g); simpl; by rewrite <- IH.
Qed.

Lemma utf8_chars_head s :
  match utf8_chars s with
  | [] => s = ""
  | g :: _ => starts_with_continuation g = starts_with_continuation s
  end.
Proof.
  destruct s as [|c s]; [done|]. simpl.
  destruct (utf8_chars s) as [|g gs]; [done|].
  by destruct (starts_with_continuation g).
Qed.

Lemma utf8_chars_well_grouped s : well_grouped (utf8_chars s).
Proof.
  induction s as [|c s IH]; [done|]. simpl.
  destruct (utf8_chars s) as [|g gs]; simpl in *.
  - split; [by exists c, "" | constructor].
  - destruct IH as [(c' & r & -> & Hr) Hgs].
    destruct (starts_with_continuation (String c' r)) eqn:Hs; simpl in *.
    + split; [|done]. exists c, (String c' r). split; [done|]. simpl. by rewrite Hs, Hr.
    + split; [by exists c, ""|]. constructor; [|done]. split; [|done]. by exists c', r.
Qed.

Lemma append_empty (X : string) : "" +:+ X = X.
Proof. reflexivity. Qed.

Lemma append_String c r (X : string) : String c r +:+ X = String c (r +:+ X).
Proof. reflexivity. Qed.

Lemma utf8_chars_continuation r X gs :
  all_continuation r = true → r ≠ "" →
  utf8_chars X = gs → head_starts_fresh gs →
  utf8_chars (r +:+ X) = r :: gs.
Proof.
  intros Hr Hne HX Hgs. induction r as [|c1 r IH]; [done|].
  rewrite append_String. simpl in *.
  apply andb_true_iff in Hr as [Hc1 Hr].
  destruct r as [|c2 r2].
  - rewrite append_empty, HX. destruct gs as [|g gs']; [done|]. simpl in Hgs. by rewrite Hgs.
  - rewrite IH by done. simpl in Hr. apply andb_true_iff in Hr as [Hc2 _].
    simpl. by rewrite Hc2.
Qed.

Lemma utf8_chars_group g X gs :
  group_ok g → utf8_chars X = gs → head_starts_fresh gs →
  utf8_chars (g +:+ X) = g :: gs.
Proof.
  intros (c & r & -> & Hr) HX Hgs. rewrite append_String. simpl.
  destruct r as [|c2 r2].
  - rewrite append_empty, HX. destruct gs as [|g gs']; [done|]. simpl in Hgs. by rewrite Hgs.
  - rewrite (utf8_chars_continuation _ _ gs) by done.
    simpl in Hr. apply andb_true_iff in Hr as [Hc2 _]. simpl. by rewrite Hc2.
Qed.

Lemma utf8_chars_concat L : well_grouped L → utf8_chars (concat L) = L.
Proof.
  induction L as [|g gs IH]; [done|]. intros [Hg Hgs]. simpl.
  apply utf8_chars_group; [done | |].
  - apply IH. destruct gs as [|g' gs']; [done|].
    apply Forall_cons in Hgs as [[? _] ?]. done.
  - destruct gs as [|g' gs']; [done|]. by apply Forall_cons in Hgs as [[_ ?] _].
Qed.

Lemma well_grouped_take n L : well_grouped L → well_grouped (take n L).
Proof.
  destruct L as [|g gs]; [by destruct n|]. intros [Hg Hgs].
  destruct n as [|n]; [done|]. simpl. split; [done|]. by apply Forall_take.
Qed.

Lemma utf8_chars_app s1 s2 :
  starts_with_continuation s2 = false →
  utf8_chars (s1 +:+ s2) = utf8_chars s1 ++ utf8_chars s2.
Proof.
  intros Hs2. induction s1 as [|c s1 IH]; [done|].
  rewrite append_String. simpl. rewrite IH.
  destruct (utf8_chars s1) as [|g gs];
    [|simpl; by destruct (starts_with_continuation g)].
  simpl.
  pose proof (utf8_chars_head s2) as Hh.
  destruct (utf8_chars s2) as [|g gs]; [done|]. by rewrite Hh, Hs2.
Qed.

End Characters.

(** X10. The description of a page of the game list never has more than
    4096 characters, and it is the whole text of the page, its lines joined
    by newlines, when that text has at most 4096 characters. *)
Theorem X10_page_description_is_bounded (total pages idx : nat) (chunk : list string) :
  length (Text.utf8_chars (description (page_embed total pages idx chunk))) ≤ 4096
  ∧ (length (Text.utf8_chars (Text.join Text.newline chunk)) ≤ 4096 →
     description (page_embed total pages idx chunk) = Text.join Text.newline chunk).
Proof.
  unfold page_embed, Text.slice_to. cbn [description]. split.
  - rewrite utf8_chars_concat.
    + rewrite length_take. lia.
    + apply well_grouped_take, utf8_chars_well_grouped.
  - intros Hlen. rewrite take_ge by done. apply concat_utf8_chars.
Qed.

(** ** File extensions *)

Lemma strip_extension_suffix b ext last rest :
  rev (Text.utf8_chars ext) = last :: rest →
  Text.starts_with_continuation ext = false →
  last ≠ Text.newline →
  (∀ tail, drop_extension archive_extensions (last :: rest ++ tail) = tail) →
  strip_extension (b +:+ ext) = b.
Proof.
  intros Hrev Hstart Hlast Hdrop. unfold strip_extension.
  rewrite utf8_chars_app, rev_app_distr, Hrev by done. cbn [app].
  rewrite bool_decide_eq_false_2 by done.
  rewrite Hdrop, rev_involutive. apply concat_utf8_chars.
Qed.

(** X11. A file name that ends with one of the archive extensions
    [.zip], [.rar], [.7z], [.tar.gz], written in any letter case, loses
    exactly that extension: the rest of the name is kept as it is. *)
Theorem X11_extension_is_removed_in_any_case (b pat ext : string) :
  pat ∈ archive_extensions →
  ext ∈ spellings pat →
  strip_extension (b +:+ ext) = b.
Proof.
  intros Hpat Hext. unfold archive_extensions in Hpat.
  repeat (apply elem_of_cons in Hpat as [Hpat | Hpat]; [subst pat|]);
    [| | | | by apply elem_of_nil in Hpat];
    vm_compute in Hext;
    repeat (apply elem_of_cons in Hext as [Hext | Hext]; [subst ext|]);
    try (by apply elem_of_nil in Hext);
    (eapply strip_extension_suffix;
      [vm_compute; reflexivity | reflexivity | discriminate
      | intros tail; vm_compute; reflexivity]).
Qed.

(** ** Setting up and testing the alerts *)

Section Commands.
Import GameCommands.

Lemma test_loop_run (E : env) features sent (w : world state) :
  ∃ evs,
    test_loop E features sent w
    = (Done (sent ++ (configured features (mem w)).*1),
       World (mem w) (out w ++ evs))
    ∧ test_deliveries (configured features (mem w)) evs.
Proof.
  revert sent w. induction features as [|[name key] rest IH]; intros sent w.
  - exists []. rewrite !app_nil_r. split; [by destruct w | constructor].
  - cbn [test_loop]. erewrite mbind_run; [|reflexivity]. cbv beta iota.
    unfold configured. cbn [omap list_omap]. fold (configured rest (mem w)).
    destruct (channel_set (key (config (mem w)))) as [ch|] eqn:Hch;
      cbn [is_Some_b mbind option_bind].
    + destruct (safe_send_run E _ ch (test_embed name) w Hch) as (g & Hrun & Hatt).
      erewrite mbind_run; [|exact Hrun]. cbv beta iota.
      destruct (IH (sent ++ [name]) (World (mem w) (out w ++ g)))
        as (evs & Hloop & Hdel).
      rewrite Hloop. cbn [mem out]. exists (g ++ evs).
      rewrite <- !app_assoc. split; [done | by constructor].
    + apply IH.
Qed.

End Commands.

(** X14. Choosing a channel in [gamesetup] makes it the destination of the
    chosen feature in memory, whatever happens to the file; the other
    destinations and the seen-sets are unchanged.  The user is answered
    only when the file was written, and a monitor started on the file is
    then in the same state; when the file cannot be written the error
    escapes and the file keeps its content (the opening failed) or is left
    damaged (the writing failed). *)
Theorem X14_selected_channel_is_kept (E : env) (w : world state) (f : feature)
    (selected_channel : Z) :
  let r := GameCommands.channel_selected E (feature_value f) selected_channel w in
  let s' := mem r.2 in
  destination f s' = channel_set (Some selected_channel)
  ∧ (∀ f', f' ≠ f → destination f' s' = destination f' (mem w))
  ∧ (∀ f', seen_of f' s' = seen_of f' (mem w))
  ∧ match config_write E (length (out w)) with
    | WriteOk =>
        (∃ a, r.1 = Done a ∧ GameCommands.answer_ephemeral a = true)
        ∧ init (disk s') = s'
    | OpenFails e => r.1 = Raised e ∧ disk s' = disk (mem w)
    | DumpFails e => r.1 = Raised e ∧ disk s' = Damaged
    end.
Proof.
  unfold GameCommands.channel_selected.
  erewrite mbind_run; [|reflexivity]. cbv beta iota.
  erewrite mbind_run; [|apply save_config_run]. cbn [mem out].
  destruct (config_write E (length (out w))) as [|e|e]; cbn [saved fst snd];
    (split; [by destruct f|];
     split; [intros f' Hf'; by destruct f, f'|];
     split; [intros f'; by destruct f, f'|]).
  - split; [by eexists|]. cbn [mem snd disk set_disk]. apply init_saved.
  - by destruct f.
  - by destruct f.
Qed.

(** X15. [testgamealerts] answers a user who is not the owner of the
    server without doing anything.  For the owner it hands one test embed
    to [safe_send] for each feature that has a destination, in the order
    New, Updated, Fixed, and then names exactly these features in its
    answer, delivered or not; the memory of the monitor is unchanged. *)
Theorem X15_test_alerts_report_configured_features (E : env) (w : world state)
    (user_id owner_id : Z) :
  ∃ a evs,
    GameCommands.testgamealerts E user_id owner_id w
    = (Done a, World (mem w) (out w ++ evs))
    ∧ GameCommands.answer_ephemeral a = true
    ∧ if bool_decide (user_id = owner_id) then
        test_deliveries (configured GameCommands.test_features (mem w)) evs
        ∧ GameCommands.answer_text a
          = match (configured GameCommands.test_features (mem w)).*1 with
            | [] => glyph_warning +:+ " No channels configured. Run `/gamesetup` first."
            | names => glyph_check +:+ " Test alerts sent for: " +:+ Text.join ", " names
            end
      else evs = [] ∧ a = GameCommands.not_owner.
Proof.
  unfold GameCommands.testgamealerts, GameCommands.is_owner.
  case_bool_decide as Hown.
  - subst. rewrite Z.eqb_refl. cbn [negb].
    destruct (test_loop_run E GameCommands.test_features [] w) as (evs & Hrun & Hdel).
    erewrite mbind_run; [|exact Hrun]. cbv beta iota. cbn [app].
    destruct ((configured GameCommands.test_features (mem w)).*1) as [|n names] eqn:Hn.
    + eexists _, evs. split; [reflexivity|]. by split.
    + eexists _, evs. split; [reflexivity|]. by split.
  - apply Z.eqb_neq in Hown. rewrite Hown. cbn [negb].
    exists GameCommands.not_owner, []. rewrite app_nil_r. by destruct w.
Qed.

(** ** The status cycle *)

Section StatusCycle.
Import StatusBot.
Context {St : Type}.

Lemma slept_app evs1 evs2 : slept (evs1 ++ evs2) = slept evs1 + slept evs2.
Proof.
  unfold slept. induction evs1 as [|ev evs1 IH]; [done|].
  cbn [app fmap list_fmap]. cbn [sum_list sum_list_with]. rewrite IH. lia.
Qed.

Lemma posted_to_app evs1 evs2 : posted_to (evs1 ++ evs2) = posted_to evs1 ++ posted_to evs2.
Proof. apply omap_app. Qed.

Lemma fetch_status_run (E : env) (w : world St) :
  ∃ text, fetch_status E w = (Done text, World (mem w) (out w ++ [HttpGet STATUS_URL])).
Proof.
  unfold fetch_status, mbind, M_bind, bind, now, emit. cbn [mem out fst snd].
  destruct (status_page E (length (out w))) as [x | [|b bs]]; by eexists.
Qed.

Lemma countdown_healthy (E : env) ch msg embed n (w : world St) :
  (∀ t m e, message_edit E t m e = None) →
  ∃ evs embed',
    countdown E ch msg embed n w = (Done (true, embed'), World (mem w) (out w ++ evs))
    ∧ slept evs = n ∧ posted_to evs = [] ∧ Forall (tick msg) evs.
Proof.
  intros Hedit. revert embed w. induction n as [|n IH]; intros embed w.
  - exists [], embed. rewrite app_nil_r. split; [by destruct w | done].
  - cbn [countdown]. unfold mbind, M_bind, bind, now, emit. cbn [mem out fst snd].
    rewrite Hedit. cbn [mem out fst snd].
    match goal with
    | |- context [countdown E ch msg ?e n ?w1] =>
        destruct (IH e w1) as (evs & embed' & Hrun & Hs & Hp & Ht);
        exists (MessageEdit msg e None :: Sleep 1 :: evs), embed'
    end.
    rewrite Hrun. cbn [mem out]. rewrite <- !app_assoc. split; [done|].
    split; [unfold slept in *; cbn; by rewrite Hs|].
    split; [done|]. by repeat constructor.
Qed.

Lemma countdown_forbidden (E : env) ch msg embed n j (w : world St) x :
  j < n →
  (∀ t e, t < length (out w) + 2 * j → message_edit E t msg e = None) →
  (∀ e, message_edit E (length (out w) + 2 * j) msg e = Some x) →
  exn_kind x = Forbidden →
  ∃ evs embed',
    countdown E ch msg embed n w
    = (Done (false, embed'),
       World (mem w)
         (out w ++ evs
            ++ [MessageEdit msg embed' (Some x);
                Print ("Missing permission to edit message in channel "
                         +:+ Text.of_Z ch)]))
    ∧ slept evs = j ∧ Forall (tick msg) evs.
Proof.
  revert j embed w. induction n as [|n IH]; intros j embed w Hj Hok Hx Hkind; [lia|].
  cbn [countdown]. unfold mbind, M_bind, bind, now, emit. cbn [mem out fst snd].
  destruct j as [|j].
  - rewrite Nat.mul_0_r, Nat.add_0_r in Hx. rewrite Hx, Hkind.
    cbn [mem out fst snd mret M_ret ret].
    eexists [], _. rewrite <- !app_assoc. split; [reflexivity | done].
  - rewrite Hok by lia. cbn [mem out fst snd].
    match goal with
    | |- context [countdown E ch msg ?e n ?w1] =>
        destruct (IH j e w1) as (evs & embed' & Hrun & Hs & Ht);
        [lia
        | intros t e' Hlt; apply Hok; cbn [out] in Hlt;
          rewrite !length_app in Hlt; cbn [length] in Hlt; lia
        | intros e'; cbn [out]; rewrite !length_app; cbn [length];
          rewrite <- (Hx e'); f_equal; lia
        | done
        | exists (MessageEdit msg e None :: Sleep 1 :: evs), embed']
    end.
    rewrite Hrun. cbn [mem out]. rewrite <- !app_assoc. split; [done|].
    split; [unfold slept in *; cbn; by rewrite Hs | by repeat constructor].
Qed.

Lemma send_visual_status_healthy (E : env) ch (w : world St) :
  healthy E →
  ∃ evs,
    send_visual_status E ch w = (Done tt, World (mem w) (out w ++ evs))
    ∧ slept evs = CHECK_INTERVAL ∧ posted_to evs = [ch].
Proof.
  intros (Hcached & Hsend & Hedit). unfold send_visual_status.
  generalize CHECK_INTERVAL. intros n.
  erewrite mbind_run; [|reflexivity]. cbv beta iota. rewrite Hcached. cbn [negb].
  destruct (fetch_status_run E w) as (text & Hfetch).
  erewrite mbind_run; [|exact Hfetch]. cbv beta iota.
  erewrite mbind_run; [|reflexivity]. cbv beta iota. cbn [mem out].
  match goal with
  | |- context [channel_send E ?t ch ?e] =>
      destruct (Hsend t ch e) as [m Hm]; rewrite Hm
  end.
  erewrite mbind_run; [|reflexivity]. cbv beta iota. cbn [mem out].
  erewrite mbind_run; [|reflexivity]. cbv beta iota.
  match goal with
  | |- context [mbind _ (countdown E ch m ?e n) ?w1] =>
      destruct (countdown_healthy E ch m e n w1 Hedit)
        as (evs & embed' & Hrun & Hs & Hp & _)
  end.
  erewrite mbind_run; [|exact Hrun]. cbv beta iota. cbn [negb mem out].
  match goal with
  | |- context [mbind _ (fetch_status E) ?w1] =>
      destruct (fetch_status_run E w1) as (text' & Hfetch')
  end.
  erewrite mbind_run; [|exact Hfetch']. cbv beta iota.
  erewrite mbind_run; [|reflexivity]. cbv beta iota. cbn [mem out].
  rewrite Hedit.
  erewrite mbind_run; [|reflexivity]. cbv beta iota. cbn [mem out mret M_ret ret].
  eexists. rewrite <- !app_assoc. split; [reflexivity|].
  cbn [app]. split.
  - change (slept (?a :: ?b :: ?l)) with (slept l).
    rewrite slept_app, Hs. unfold slept. cbn. lia.
  - unfold posted_to in *. cbn [omap list_omap]. rewrite omap_app, Hp. done.
Qed.

End StatusCycle.

Lemma status_channels_run (E : env) (config : StatusBot.state)
    (w : world StatusBot.state) :
  healthy E →
  ∃ evs,
    for_each config (λ '(guild_id, channel_id), StatusBot.send_visual_status E channel_id) w
    = (Done tt, World (mem w) (out w ++ evs))
    ∧ posted_to evs = config.*2
    ∧ slept evs = length config * StatusBot.CHECK_INTERVAL.
Proof.
  intros HE. revert w.
  induction config as [|[guild_id channel_id] config IH]; intros w.
  - exists []. rewrite app_nil_r. split; [by destruct w | done].
  - cbn [for_each].
    destruct (send_visual_status_healthy E channel_id w HE) as (evs1 & Hrun & Hs & Hp).
    unfold bind. rewrite Hrun.
    destruct (IH (World (mem w) (out w ++ evs1))) as (evs2 & Hrest & Hp2 & Hs2).
    rewrite Hrest. cbn [mem out]. exists (evs1 ++ evs2).
    rewrite <- app_assoc. split; [done|].
    rewrite posted_to_app, slept_app, Hp, Hs, Hp2, Hs2. cbn [length fmap list_fmap].
    split; [done | lia].
Qed.

(** X12. On a platform that has every channel and accepts every message
    and every edit, a status cycle posts one new message in the channel of
    each configured server, in the order of the configuration, and sleeps
    [CHECK_INTERVAL] seconds for each of them, one after the other. *)
Theorem X12_status_cycle_serves_channels_in_turn (E : env) (w : world StatusBot.state) :
  healthy E →
  ∃ evs,
    StatusBot.status_loop E w = (Done tt, World (mem w) (out w ++ evs))
    ∧ posted_to evs = (mem w).*2
    ∧ slept evs = length (mem w) * StatusBot.CHECK_INTERVAL.
Proof.
  intros HE. unfold StatusBot.status_loop.
  erewrite mbind_run; [|reflexivity]. cbv beta iota.
  by apply status_channels_run.
Qed.

(** X13. When the platform refuses an edit of the countdown for lack of
    permission, after [j] edits that it accepted, [send_visual_status]
    prints one line and returns normally: it has slept [j] seconds, it does
    not fetch the status again and makes no further edit. *)
Theorem X13_refused_edit_ends_the_countdown (E : env) (w : world StatusBot.state)
    (ch : Z) (j : nat) (x : exn) :
  let t := length (out w) in
  channel_cached E t ch = true →
  (∀ e, ∃ m, channel_send E (S t) ch e = Done m) →
  (∀ t' m e, t' < t + 2 + 2 * j → message_edit E t' m e = None) →
  (∀ m e, message_edit E (t + 2 + 2 * j) m e = Some x) →
  exn_kind x = Forbidden →
  j < StatusBot.CHECK_INTERVAL →
  ∃ first m ticks last,
    StatusBot.send_visual_status E ch w
    = (Done tt,
       World (mem w)
         (out w ++ HttpGet StatusBot.STATUS_URL :: ChannelSend ch first (Done m) :: ticks
            ++ [MessageEdit m last (Some x);
                Print ("Missing permission to edit message in channel "
                         +:+ Text.of_Z ch)]))
    ∧ Forall (tick m) ticks
    ∧ slept ticks = j.
Proof.
  intros t Hcached Hsend Hok Hx Hkind Hj. unfold StatusBot.send_visual_status.
  revert Hj. generalize StatusBot.CHECK_INTERVAL. intros n Hj.
  erewrite mbind_run; [|reflexivity]. cbv beta iota. fold t. rewrite Hcached. cbn [negb].
  destruct (fetch_status_run E w) as (text & Hfetch).
  erewrite mbind_run; [|exact Hfetch]. cbv beta iota.
  erewrite mbind_run; [|reflexivity]. cbv beta iota. cbn [mem out].
  rewrite length_app. cbn [length]. rewrite Nat.add_1_r. fold t.
  match goal with
  | |- context [channel_send E (S t) ch ?e] =>
      destruct (Hsend e) as [m Hm]; rewrite Hm
  end.
  erewrite mbind_run; [|reflexivity]. cbv beta iota. cbn [mem out].
  erewrite mbind_run; [|reflexivity]. cbv beta iota.
  match goal with
  | |- context [mbind _ (StatusBot.countdown E ch m ?e n) ?w1] =>
      destruct (countdown_forbidden E ch m e n j w1 x) as (ticks & last & Hrun & Hs & Ht);
      [ done
      | intros t' e' Hlt; apply Hok; cbn [out] in Hlt;
        rewrite !length_app in Hlt; cbn [length] in Hlt; unfold t; lia
      | intros e'; cbn [out]; rewrite !length_app; cbn [length];
        rewrite <- (Hx m e'); f_equal; unfold t; lia
      | done
      | ]
  end.
  erewrite mbind_run; [|exact Hrun]. cbv beta iota. cbn [negb mem out mret M_ret ret].
  eexists _, m, ticks, last. rewrite <- !app_assoc. split; [reflexivity|]. done.
Qed.

(** * The further properties on sample runs *)

Import Cases.

Lemma X1_witness :
  let s' := mem (save_config calm w_games).2 in
  init (disk s') = s'
  ∧ seen_new s' = seen_new (mem w_games)
  ∧ seen_update s' = seen_update (mem w_games)
  ∧ seen_fixed s' = seen_fixed (mem w_games)
  ∧ channel_id_new (config s') = channel_id_new (config (mem w_games))
  ∧ channel_id_update (config s') = channel_id_update (config (mem w_games))
  ∧ channel_id_fixed (config s') = channel_id_fixed (config (mem w_games)).
Proof.
  apply (X1_restart_restores_saved_state calm w_games). reflexivity.
Defined.

Lemma X2_witness :
  let w1 := (process_games_new_updated E_games w_games).2 in
  process_games_new_updated E_games w1
  = (Done tt, World (mem w1) (out w1 ++ [HttpGet GAMES_JSON_URL])).
Proof.
  apply (X2_second_cycle_announces_nothing E_games w_games two_games
           keys_games mapping_games).
  - intros t. reflexivity.
  - discriminate.
  - vm_compute. reflexivity.
Defined.

Lemma X5_witness :
  (∀ g k, game_key g = Done k → k ≠ "")
  ∧ "" ∉ seen_of NEW_GAMES (mem (monitor_loop E_games w_games).2).
Proof.
  apply (X5_no_empty_key_is_recorded E_games w_games NEW_GAMES).
  apply (bool_decide_unpack _). vm_compute. exact I.
Defined.

Lemma X6_witness :
  ∃ evs,
    for_each test_posts (safe_send (refusing_sends missing_permissions calm) (Some 5%Z))
      w_games
    = (Done tt, World (mem w_games) (out w_games ++ evs))
    ∧ delivers 5 test_posts evs.
Proof.
  apply (X6_failed_delivery_does_not_stop_the_batch
           (refusing_sends missing_permissions calm) state w_games (Some 5%Z) 5%Z
           test_posts).
  reflexivity.
Defined.

Lemma X8_witness :
  ∃ shown m,
    fixegame E_fixes w_games
    = (Done tt,
       World (mem w_games)
         (out w_games ++ Defer None :: HttpGet FIXES_PAGE_URL :: shown
            ++ [Followup
                  (Content (glyph_check +:+ " "
                              +:+ Text.of_nat (length (fetched_fixes [patch_block]))
                              +:+ " fixes found " +:+ glyph_dash +:+ " all displayed."))
                  true (Done m)]))
    ∧ Forall2 (λ f ev, ∃ m', ev = Followup
                                     (Rich (make_fix_embed (fix_title f) (fix_download f)
                                              (fix_size f)))
                                     false (Done m'))
        (fetched_fixes [patch_block]) shown.
Proof.
  apply (X8_fixegame_shows_every_fix E_fixes w_games (fetched_fixes [patch_block])).
  - intros t. reflexivity.
  - intros t p. eexists. reflexivity.
  - reflexivity.
  - vm_compute. discriminate.
Defined.

Lemma X11_witness : strip_extension ("Patch1" +:+ ".ZIP") = "Patch1".
Proof.
  apply (X11_extension_is_removed_in_any_case "Patch1" ".zip" ".ZIP");
    apply (bool_decide_unpack _); vm_compute; exact I.
Defined.

Lemma X12_witness :
  ∃ evs,
    StatusBot.status_loop calm w_status
    = (Done tt, World (mem w_status) (out w_status ++ evs))
    ∧ posted_to evs = (mem w_status).*2
    ∧ slept evs = length (mem w_status) * StatusBot.CHECK_INTERVAL.
Proof.
  apply (X12_status_cycle_serves_channels_in_turn calm w_status).
  split; [|split].
  - intros t ch. reflexivity.
  - intros t ch e. eexists. reflexivity.
  - intros t m e. reflexivity.
Defined.

Lemma X13_witness :
  ∃ first m ticks last,
    StatusBot.send_visual_status E_refused 42 w_status
    = (Done tt,
       World (mem w_status)
         (out w_status ++ HttpGet StatusBot.STATUS_URL
            :: ChannelSend 42 first (Done m) :: ticks
            ++ [MessageEdit m last (Some missing_permissions);
                Print ("Missing permission to edit message in channel "
                         +:+ Text.of_Z 42)]))
    ∧ Forall (tick m) ticks
    ∧ slept ticks = 2.
Proof.
  apply (X13_refused_edit_ends_the_countdown E_refused w_status 42%Z 2
           missing_permissions).
  - reflexivity.
  - intros e. eexists. reflexivity.
  - intros t' m e Ht. simpl in *.
    destruct (Nat.ltb_spec t' 6); [reflexivity | lia].
  - intros m e. reflexivity.
  - reflexivity.
  - unfold StatusBot.CHECK_INTERVAL. lia.
Defined.

Lemma X16_witness :
  ∃ evs_new evs_upd c s',
    monitor_loop E_readonly w_games
    = (Done tt,
       World s'
         (out w_games ++ HttpGet GAMES_JSON_URL :: evs_new ++ evs_upd
            ++ [WriteConfig c (OpenFails boom);
                Print ("[ERROR] Monitor loop exception: " +:+ exn_text boom)]))
    ∧ feed_trace (channel_id_new (config (mem w_games)))
        (omap (game_post mapping_games "NEW") (new_feed_keys (mem w_games) keys_games))
        evs_new
    ∧ feed_trace (channel_id_update (config (mem w_games)))
        (omap (game_post mapping_games "UPDATED")
           (update_feed_keys (mem w_games) keys_games))
        evs_upd
    ∧ disk s' = disk (mem w_games)
    ∧ seen_new s' = seen_new (mem w_games) ∪ keys_games
    ∧ seen_update s' = seen_update (mem w_games) ∪ keys_games.
Proof.
  apply (X16_failed_write_ends_the_cycle E_readonly w_games keys_games mapping_games boom).
  - vm_compute. reflexivity.
  - left. apply (bool_decide_unpack _). vm_compute. exact I.
  - intros t. reflexivity.
Defined.

Lemma X17_witness :
  ∃ e,
    game_entry beta = Done e
    ∧ e_name e ∈ keys_games
    ∧ game_post mapping_games "NEW" (e_name e)
      = Some (make_game_embed (e_name e) (e_appid e) (e_img e) "NEW").
Proof.
  eexists. split; [vm_compute; reflexivity|].
  apply (X17_last_game_of_a_name_is_posted [] [alpha] beta keys_games mapping_games).
  - vm_compute. reflexivity.
  - vm_compute. reflexivity.
  - intros g' Hg'. apply list_elem_of_singleton in Hg'. subst g'.
    vm_compute. discriminate.
Defined.
